(** * explainable: precedence merge, decision ledger and tsconfig extends chains

    A shallow embedding of [src/core/explained.ts], [src/config/resolver.ts],
    [src/config/builder.ts], [src/adapters/tsconfig.ts] and
    [src/adapters/env.ts], with the properties of the merge engine, of the
    resolver and its builder, of the extends-chain walker and of the
    environment adapter proved over it.

    Conventions of the embedding, and the inputs on which it is the code.
    - JavaScript numbers that the code compares or subtracts (precedence,
      timestamp) are integers ([Z]); the code computes with doubles, which
      agree with the integers below 2^53, and the one statement that adds
      to a number says so.
    - An object is the list of its own enumerable properties in enumeration
      order, which is insertion order for every key that is not an array
      index.  Writing an existing key keeps its position, writing a new key
      appends it.  Statements about the order in which keys are listed
      are made for keys that do not begin with a digit ([orderedKey]).
    - The prototype of an object is [Object.prototype] and is not part of
      the model: [key in v] and [v[key]] are modelled on own properties.
      They are the code's for every key that no object inherits
      ([inheritedName]), and every statement that rests on them is made
      for such keys; an assignment to [__proto__], which reaches the
      setter of the prototype, is modelled by [object_set].
    - An array is an object whose own properties are its indices; it only
      differs from a plain object by [Array.isArray].  Its [length] and
      what it inherits from [Array.prototype] are not modelled, and the
      statements that rest on [key in v] are made for sources that are
      not arrays ([notArray]).
    - A ledger is a [Map] from paths to sequences, a wrapper is a value:
      that [_addExplanation] pushes onto the array it finds, which another
      path may hold as well, shows in no value of the model, and the
      statement about it is made for wrappers whose sequences each belong
      to one path ([freshLedger]).
    - [Date.now()] is an explicit argument.
    - What the environment adapter asks of the language ([Number],
      [JSON.parse], case conversion) is a parameter of its embedding.
    - A [throw] is the [Throws] outcome; nothing is returned with it. *)

From Stdlib Require Import List String Ascii ZArith Bool Lia Permutation Sorted.
From Stdlib Require Import DecimalString.
Import ListNotations.
Open Scope string_scope.
Open Scope list_scope.

Set Implicit Arguments.

(** ** Outcomes of calls that can throw *)

Inductive Error : Type :=
| TypeError
| CannotResolvePackage (configPath : string)
| CannotFindFile (configPath : string)
| FailedToParse (configPath : string)
| NoTsconfigFound (configPath : string).

Inductive Outcome (A : Type) : Type :=
| Returns (a : A)
| Throws (e : Error).

Arguments Returns {A} a.
Arguments Throws {A} e.

Definition bind {A B : Type} (m : Outcome A) (f : A -> Outcome B) : Outcome B :=
  match m with
  | Returns a => f a
  | Throws e => Throws e
  end.

Notation "x <- m ;; k" := (bind m (fun x => k))
  (at level 61, m at next level, right associativity).

(** ** Property lists: objects, [Map] and [Set] in insertion order *)

Section Props.
Context {A : Type}.

Definition keysOf (o : list (string * A)) : list string := map fst o.

(** [o[k]] on own properties, [Map.prototype.get]. *)
Fixpoint prop_get (k : string) (o : list (string * A)) : option A :=
  match o with
  | [] => None
  | (k', v) :: o' => if String.eqb k k' then Some v else prop_get k o'
  end.

(** [k in o] on own properties, [Map.prototype.has]. *)
Fixpoint prop_in (k : string) (o : list (string * A)) : bool :=
  match o with
  | [] => false
  | (k', _) :: o' => if String.eqb k k' then true else prop_in k o'
  end.

(** [o[k] = v], [Map.prototype.set]. *)
Fixpoint prop_set (o : list (string * A)) (k : string) (v : A)
  : list (string * A) :=
  match o with
  | [] => [(k, v)]
  | (k', v') :: o' =>
      if String.eqb k k' then (k, v) :: o' else (k', v') :: prop_set o' k v
  end.

(** [Object.assign(target, source)]. *)
Definition prop_assign (target source : list (string * A))
  : list (string * A) :=
  fold_left (fun acc kv => prop_set acc (fst kv) (snd kv)) source target.

(** [o[k] = v] on a plain object.  Unless [o] has a property of its own
    under that name, [o['__proto__'] = v] runs the setter inherited from
    [Object.prototype]: it changes the prototype of [o] or does nothing,
    and adds no property.  The prototype is not part of an object of the
    model. *)
Definition object_set (o : list (string * A)) (k : string) (v : A)
  : list (string * A) :=
  if String.eqb k "__proto__" && negb (prop_in k o) then o
  else prop_set o k v.
End Props.

(** [Set.prototype.has] and [Set.prototype.add] on a set of strings. *)
Fixpoint set_has (k : string) (s : list string) : bool :=
  match s with
  | [] => false
  | k' :: s' => if String.eqb k k' then true else set_has k s'
  end.

Definition set_add (s : list string) (k : string) : list string :=
  if set_has k s then s else s ++ [k].

(** The string-named properties of [Object.prototype]: what a plain object
    inherits.  All are data properties that an assignment shadows, except
    [__proto__], an accessor. *)
Definition objectPrototypeNames : list string :=
  [ "constructor"; "__defineGetter__"; "__defineSetter__"; "hasOwnProperty";
    "__lookupGetter__"; "__lookupSetter__"; "isPrototypeOf";
    "propertyIsEnumerable"; "toString"; "valueOf"; "__proto__";
    "toLocaleString" ].

Definition inheritedName (k : string) : bool := set_has k objectPrototypeNames.

(** ** JavaScript values *)

Unset Elimination Schemes.

Inductive JSValue : Type :=
| VUndefined
| VNull
| VBool (b : bool)
| VNum (n : Z)
| VStr (s : string)
| VArr (entries : list (string * JSValue))
| VObj (entries : list (string * JSValue)).

Set Elimination Schemes.

(** [typeof v === 'object' && v !== null] *)
Definition isNonNullObject (v : JSValue) : bool :=
  match v with
  | VArr _ | VObj _ => true
  | _ => false
  end.

(** The truthiness test of [if (v)] and [v && ...]. *)
Definition truthy (v : JSValue) : bool :=
  match v with
  | VUndefined | VNull => false
  | VBool b => b
  | VNum n => negb (n =? 0)%Z
  | VStr s => negb (String.eqb s "")
  | VArr _ | VObj _ => true
  end.

(** [Object.keys(v)] where [v] is a non-null object. *)
Definition objectKeys (v : JSValue) : list string :=
  match v with
  | VArr o | VObj o => keysOf o
  | _ => []
  end.

(** [key in v]: a [TypeError] unless [v] is an object; for a key that no
    object inherits and a [v] that is not an array, whether [v] has the
    property itself. *)
Definition hasProperty (key : string) (v : JSValue) : Outcome bool :=
  match v with
  | VArr o | VObj o => Returns (prop_in key o)
  | _ => Throws TypeError
  end.

(** [v[key]] where [v] is a non-null object, for a key that [v] has
    itself or that no object inherits. *)
Definition getProperty (v : JSValue) (key : string) : JSValue :=
  match v with
  | VArr o | VObj o =>
      match prop_get key o with Some x => x | None => VUndefined end
  | _ => VUndefined
  end.

(** [v[key]] as an own property, when there is one. *)
Definition field (v : JSValue) (key : string) : option JSValue :=
  match v with
  | VArr o | VObj o => prop_get key o
  | _ => None
  end.

(** ** [Array.prototype.sort]

    The sort is stable; the comparators of this code base are consistent
    (they order by integer keys), and for those every stable sort returns
    the same array.  Insertion from the right is the one written here. *)

Section ArraySort.
Context {A : Type} (compareFn : A -> A -> Z).

Fixpoint insertSorted (a : A) (l : list A) : list A :=
  match l with
  | [] => [a]
  | b :: l' =>
      if (compareFn a b <=? 0)%Z then a :: b :: l'
      else b :: insertSorted a l'
  end.

Fixpoint arraySort (l : list A) : list A :=
  match l with
  | [] => []
  | a :: l' => insertSorted a (arraySort l')
  end.
End ArraySort.

(** [a] may stand before [b] in an array sorted by [compareFn]. *)
Definition precedes {A : Type} (compareFn : A -> A -> Z) (a b : A) : Prop :=
  (compareFn a b <= 0)%Z.

(** ** src/core/types.ts *)

Record Explanation : Type := mkExplanation {
  source : string;
  exp_value : JSValue;
  reason : string;
  precedence : Z;
  location : option string;
  won : bool;
  timestamp : Z
}.

Record Source : Type := mkSource {
  name : string;
  src_precedence : Z;
  src_reason : option string;
  src_location : option string
}.

Record ExplanationResult : Type := mkExplanationResult {
  res_value : JSValue;
  res_explanations : list (string * list Explanation);
  sourcesCount : nat;
  resolvedAt : Z
}.

(** ** src/core/explained.ts *)

Module Explained.

Record t : Type := new {
  value : JSValue;
  explanations : list (string * list Explanation)
}.

(** [explain(path?, options?)]: [path || '__root__'] sends both a missing
    and an empty path to the root sentinel. *)
Definition explain (this : t) (path : option string) (onlyWinners : bool)
  : list Explanation :=
  let key :=
    match path with
    | Some p => if String.eqb p "" then "__root__" else p
    | None => "__root__"
    end in
  let found :=
    match prop_get key (explanations this) with
    | Some l => l
    | None => []
    end in
  if onlyWinners then filter won found else found.

(** [explainAll()]: the loop copies the entries of the ledger, the root
    sentinel apart, into a fresh plain object. *)
Definition explainAll (this : t) : list (string * list Explanation) :=
  fold_left
    (fun result kv =>
       if negb (String.eqb (fst kv) "__root__")
       then object_set result (fst kv) (snd kv)
       else result)
    (explanations this) [].

(** [toJSON()]: the plain object into which the ledger is copied is
    written as the ledger itself, which it is when the paths are distinct,
    none is [__proto__] and none begins with a digit. *)
Definition toJSON (this : t) (now : Z) : ExplanationResult :=
  {| res_value := value this;
     res_explanations := explanations this;
     sourcesCount := List.length (explanations this);
     resolvedAt := now |}.

(** [_addExplanation(path, explanation)]: the sequence of the path with
    the Explanation pushed at its end. *)
Definition _addExplanation (this : t) (path : string) (e : Explanation) : t :=
  let existing :=
    match prop_get path (explanations this) with
    | Some l => l
    | None => []
    end in
  new (value this) (prop_set (explanations this) path (existing ++ [e])).

Definition _setExplanations (this : t) (path : string)
           (l : list Explanation) : t :=
  new (value this) (prop_set (explanations this) path l).

Definition _getPaths (this : t) : list string := keysOf (explanations this).

(** [Explained.from(value, source, reason, precedence, location)], with
    the reading of the clock made explicit. *)
Definition from (v : JSValue) (src rsn : string) (prec : Z)
           (loc : option string) (now : Z) : t :=
  _addExplanation (new v [])
    "__root__"
    {| source := src; exp_value := v; reason := rsn; precedence := prec;
       location := loc; won := true; timestamp := now |}.

(** The comparator of [merge]: precedence descending, then timestamp
    ascending. *)
Definition compareExplanations (a b : Explanation) : Z :=
  if negb (precedence b =? precedence a)%Z
  then (precedence b - precedence a)%Z
  else (timestamp a - timestamp b)%Z.

(** First loop of [merge]: the keys of every source that is a non-null
    object, in first-seen order. *)
Definition collectKeys (explaineds : list t) : list string :=
  fold_left
    (fun allKeys explained =>
       if isNonNullObject (value explained)
       then fold_left set_add (objectKeys (value explained)) allKeys
       else allKeys)
    explaineds [].

(** The Explanation pushed for [key] from one source. *)
Definition candidate (rootExp : Explanation) (v : JSValue)
           (key : string) : Explanation :=
  {| source := source rootExp;
     exp_value := getProperty v key;
     reason := reason rootExp;
     precedence := precedence rootExp;
     location := location rootExp;
     won := false;
     timestamp := timestamp rootExp |}.

(** Inner loop of [merge] for one key. *)
Fixpoint explanationsFor (key : string) (explaineds : list t)
  : Outcome (list Explanation) :=
  match explaineds with
  | [] => Returns []
  | explained :: rest =>
      let v := value explained in
      mine <-
        (if truthy v then
           present <- hasProperty key v ;;
           Returns
             (if present then
                match explain explained None false with
                | rootExp :: _ => [candidate rootExp v key]
                | [] => []
                end
              else [])
         else Returns []) ;;
      others <- explanationsFor key rest ;;
      Returns (mine ++ others)
  end.

Definition markWon (e : Explanation) : Explanation :=
  {| source := source e; exp_value := exp_value e; reason := reason e;
     precedence := precedence e; location := location e; won := true;
     timestamp := timestamp e |}.

(** Outer loop of [merge] over [allKeys]. *)
Fixpoint mergeKeys (explaineds : list t) (allKeys : list string)
         (mergedValue : list (string * JSValue))
         (allExplanations : list (string * list Explanation))
  : Outcome t :=
  match allKeys with
  | [] => Returns (new (VObj mergedValue) allExplanations)
  | key :: allKeys' =>
      explanationsForKey <- explanationsFor key explaineds ;;
      match arraySort compareExplanations explanationsForKey with
      | [] => mergeKeys explaineds allKeys' mergedValue allExplanations
      | first :: others =>
          mergeKeys explaineds allKeys'
            (object_set mergedValue key (exp_value first))
            (prop_set allExplanations key (markWon first :: others))
      end
  end.

Definition merge (explaineds : list t) : Outcome t :=
  mergeKeys explaineds (collectKeys explaineds) [] [].

End Explained.

(** ** src/config/resolver.ts *)

Record ConfigSource : Type := mkConfigSource {
  data : list (string * JSValue);
  cs_source : Source
}.

Module ConfigResolver.

(** The resolver holds its sources in registration order. *)
Definition t : Type := list ConfigSource.

Definition addSource (this : t) (d : list (string * JSValue)) (s : Source)
  : t :=
  this ++ [mkConfigSource d s].

Definition compareSources (a b : ConfigSource) : Z :=
  (src_precedence (cs_source a) - src_precedence (cs_source b))%Z.

(** [source.reason || `From ${source.name}`] *)
Definition reasonOf (s : Source) : string :=
  match src_reason s with
  | Some r => if String.eqb r "" then String.append "From " (name s) else r
  | None => String.append "From " (name s)
  end.

(** [sortedSources.map(...)]: the [i]-th call of [Explained.from] reads
    the clock as [now i]. *)
Fixpoint explainSources (now : nat -> Z) (i : nat) (l : list ConfigSource)
  : list Explained.t :=
  match l with
  | [] => []
  | s :: l' =>
      Explained.from (VObj (data s)) (name (cs_source s))
                     (reasonOf (cs_source s))
                     (src_precedence (cs_source s))
                     (src_location (cs_source s)) (now i)
      :: explainSources now (S i) l'
  end.

Definition resolve (this : t) (now : nat -> Z) : Outcome Explained.t :=
  match this with
  | [] => Returns (Explained.new (VObj []) [])
  | _ =>
      let sortedSources := arraySort compareSources this in
      Explained.merge (explainSources now 0 sortedSources)
  end.

(** The static helpers [ConfigResolver.from(sources, options)] and
    [ConfigResolver.resolve(sources, options)]; [options] is never read. *)
Module Static.

Definition from (sources : list ConfigSource) : t :=
  fold_left (fun resolver s => addSource resolver (data s) (cs_source s))
            sources [].

Definition resolve (sources : list ConfigSource) (now : nat -> Z)
  : Outcome Explained.t :=
  resolve (from sources) now.

End Static.

End ConfigResolver.

(** ** src/adapters/tsconfig.ts *)

(** [extends?: string | string[]] *)
Inductive Extends : Type :=
| ExtendsOne (configPath : string)
| ExtendsMany (configPaths : list string).

(** A parsed document: its [extends] field and its other fields, as the
    [TSConfig] interface types them. *)
Record TSConfig : Type := mkTSConfig {
  tsc_extends : option Extends;
  tsc_fields : list (string * JSValue)
}.

Record TSConfigResolution : Type := mkTSConfigResolution {
  path : string;
  config : TSConfig;
  res_precedence : Z
}.

(** What the walker asks of its environment: [require.resolve] ([None]
    when it throws), [path.resolve], [path.dirname], and the file system as
    the finite list of the paths that exist, each with the configuration the
    file there parses to after comment stripping ([None] when reading or
    parsing it fails). *)
Record Host : Type := mkHost {
  requireResolve : string -> string -> option string;
  pathResolve : string -> string -> string;
  dirname : string -> string;
  files : list (string * option TSConfig)
}.

Definition startsWith (prefix s : string) : bool := String.prefix prefix s.

Fixpoint splitDot (s : string) : list string :=
  match s with
  | EmptyString => [""]
  | String c s' =>
      if Ascii.eqb c "."%char then "" :: splitDot s'
      else match splitDot s' with
           | [] => [String c ""]
           | h :: t => String c h :: t
           end
  end.

(** [target[key] = v]; module code is strict, so the assignment throws on a
    primitive as it does on [null]. *)
Definition setProperty (target : JSValue) (key : string) (v : JSValue)
  : Outcome JSValue :=
  match target with
  | VObj o => Returns (VObj (object_set o key v))
  | VArr o => Returns (VArr (object_set o key v))
  | _ => Throws TypeError
  end.

Module TSConfigAdapter.

Section WithHost.
Variable host : Host.

Definition existsSync (p : string) : bool := prop_in p (files host).

Definition resolveTSConfigPath (configPath baseDir : string)
  : Outcome string :=
  if negb (startsWith "." configPath) && negb (startsWith "/" configPath)
  then
    match requireResolve host configPath baseDir with
    | Some p => Returns p
    | None =>
        match requireResolve host
                (String.append configPath "/tsconfig.json") baseDir with
        | Some p => Returns p
        | None => Throws (CannotResolvePackage configPath)
        end
    end
  else
    let fullPath := pathResolve host baseDir configPath in
    if existsSync fullPath then Returns fullPath
    else if existsSync (String.append fullPath ".json")
         then Returns (String.append fullPath ".json")
         else Throws (CannotFindFile configPath).

Definition loadTSConfig (configPath : string) : Outcome TSConfig :=
  match prop_get configPath (files host) with
  | Some (Some c) => Returns c
  | _ => Throws (FailedToParse configPath)
  end.

(** [if (config.extends)] and [Array.isArray(config.extends) ? ... : [...]]:
    an empty string is falsy, an empty array is not. *)
Definition extendsArray (c : TSConfig) : list string :=
  match tsc_extends c with
  | Some (ExtendsOne s) => if String.eqb s "" then [] else [s]
  | Some (ExtendsMany l) => l
  | None => []
  end.

(** The precedence handed to the parent at [index] among [len]. *)
Definition parentPrecedence (prec : Z) (len index : nat) : Z :=
  (prec - (Z.of_nat len - Z.of_nat index))%Z.

Definition Walk : Type :=
  option (Outcome (list TSConfigResolution * list string)).

(** [extendsArray.forEach((extendPath, index) => ...)], threading the
    shared [visited] set; [None] is a walk cut short by its fuel. *)
Fixpoint forEachExtends (recur : string -> Z -> list string -> Walk)
         (prec : Z) (len : nat) (rest : list string) (index : nat)
         (chain : list TSConfigResolution) (visited : list string)
  : Walk :=
  match rest with
  | [] => Some (Returns (chain, visited))
  | extendPath :: rest' =>
      match recur extendPath (parentPrecedence prec len index) visited with
      | None => None
      | Some (Throws e) => Some (Throws e)
      | Some (Returns (extendedChain, visited')) =>
          forEachExtends recur prec len rest' (S index)
                         (chain ++ extendedChain) visited'
      end
  end.

Fixpoint chainWithFuel (fuel : nat) (configPath baseDir : string)
         (prec : Z) (visited : list string) : Walk :=
  match fuel with
  | O => None
  | S fuel' =>
      match resolveTSConfigPath configPath baseDir with
      | Throws e => Some (Throws e)
      | Returns fullPath =>
          if set_has fullPath visited then Some (Returns ([], visited))
          else
            let visited1 := set_add visited fullPath in
            match loadTSConfig fullPath with
            | Throws e => Some (Throws e)
            | Returns cfg =>
                let currentDir := dirname host fullPath in
                let parents := extendsArray cfg in
                match forEachExtends
                        (fun p q v => chainWithFuel fuel' p currentDir q v)
                        prec (List.length parents) parents 0 [] visited1
                with
                | None => None
                | Some (Throws e) => Some (Throws e)
                | Some (Returns (chain, visited')) =>
                    Some (Returns
                            (chain ++ [mkTSConfigResolution fullPath cfg prec],
                             visited'))
                end
            end
      end
  end.

(** Every nested call has added an existing file to [visited], so one
    unit of fuel per file and one more always suffice (proved below). *)
Definition resolveTSConfigChain (configPath baseDir : string) (prec : Z)
           (visited : list string) : Walk :=
  chainWithFuel (S (List.length (files host))) configPath baseDir prec
                visited.
End WithHost.

Definition joinKey (prefix key : string) : string :=
  if String.eqb prefix "" then key
  else String.append prefix (String.append "." key).

(** [flattenObject(obj, prefix)]; the recursion only descends into plain
    objects, and the function is only applied to objects. *)
Fixpoint flattenValue (obj : JSValue) (prefix : string) {struct obj}
  : list (string * JSValue) :=
  match obj with
  | VObj entries | VArr entries =>
      (fix loop (entries : list (string * JSValue))
           (result : list (string * JSValue)) {struct entries} :=
         match entries with
         | [] => result
         | (key, v) :: rest =>
             let newKey := joinKey prefix key in
             match v with
             | VObj _ => loop rest (prop_assign result (flattenValue v newKey))
             | _ => loop rest (object_set result newKey v)
             end
         end) entries []
  | _ => []
  end.

Definition flattenObject (obj : list (string * JSValue)) (prefix : string)
  : list (string * JSValue) :=
  flattenValue (VObj obj) prefix.

(** The inner loop of [unflattenObject] for one key, from [current]. *)
Fixpoint assignPath (current : JSValue) (keys : list string) (v : JSValue)
  : Outcome JSValue :=
  match keys with
  | [] => Returns current
  | [last] => setProperty current last v
  | k :: rest =>
      present <- hasProperty k current ;;
      child <- assignPath (if present then getProperty current k else VObj [])
                          rest v ;;
      setProperty current k child
  end.

Fixpoint unflattenInto (result : JSValue) (flat : list (string * JSValue))
  : Outcome JSValue :=
  match flat with
  | [] => Returns result
  | (key, v) :: flat' =>
      result' <- assignPath result (splitDot key) v ;;
      unflattenInto result' flat'
  end.

Definition unflattenObject (flat : list (string * JSValue))
  : Outcome JSValue :=
  unflattenInto (VObj []) flat.

(** [chain.map(...)] of [mergeTSConfigs], the clock read once per call of
    [Explained.from]. *)
Fixpoint explainChain (now : nat -> Z) (i : nat)
         (chain : list TSConfigResolution) : list Explained.t :=
  match chain with
  | [] => []
  | r :: chain' =>
      Explained.from (VObj (flattenObject (tsc_fields (config r)) ""))
                     (path r) (String.append "From " (path r))
                     (res_precedence r) (Some (path r)) (now i)
      :: explainChain now (S i) chain'
  end.

Definition mergeTSConfigs (chain : list TSConfigResolution) (now : nat -> Z)
  : Outcome Explained.t :=
  mergedFlat <- Explained.merge (explainChain now 0 chain) ;;
  unflattened <-
    match Explained.value mergedFlat with
    | VObj flat => unflattenObject flat
    | _ => Returns (VObj [])
    end ;;
  Returns
    (fold_left
       (fun result p =>
          match Explained.explain mergedFlat (Some p) false with
          | [] => result
          | l => Explained._setExplanations result p l
          end)
       (Explained._getPaths mergedFlat)
       (Explained.new unflattened [])).

(** The document as the object that [JSON.parse] returned: its [extends]
    property, when it has one, and its other fields.  ([TSConfig] keeps
    the two apart and does not record where [extends] stood among the
    keys; it is listed first here, and nothing below depends on its
    place.) *)
Fixpoint arrayFrom (i : nat) (items : list JSValue)
  : list (string * JSValue) :=
  match items with
  | [] => []
  | v :: rest =>
      (NilEmpty.string_of_uint (Nat.to_uint i), v) :: arrayFrom (S i) rest
  end.

Definition extendsValue (e : Extends) : JSValue :=
  match e with
  | ExtendsOne s => VStr s
  | ExtendsMany l => VArr (arrayFrom 0 (map VStr l))
  end.

Definition documentOf (c : TSConfig) : JSValue :=
  VObj (match tsc_extends c with
        | Some e => [("extends", extendsValue e)]
        | None => []
        end ++ tsc_fields c).

(** [explainTSConfig(configPath, {baseDir, followExtends})]; [None] is a
    walk cut short by its fuel. *)
Definition explainTSConfig (host : Host) (configPath baseDir : string)
           (followExtends : bool) (now : nat -> Z)
  : option (Outcome Explained.t) :=
  if negb followExtends then
    Some (fullPath <- resolveTSConfigPath host configPath baseDir ;;
          cfg <- loadTSConfig host fullPath ;;
          Returns (Explained.from (documentOf cfg) fullPath
                                  (String.append "From " fullPath) 0
                                  (Some fullPath) (now 0%nat)))
  else
    match resolveTSConfigChain host configPath baseDir 10 [] with
    | None => None
    | Some (Throws e) => Some (Throws e)
    | Some (Returns (chain, _)) =>
        match chain with
        | [] => Some (Throws (NoTsconfigFound configPath))
        | _ => Some (mergeTSConfigs chain now)
        end
    end.

End TSConfigAdapter.

(** ** The merge in closed form

    What [Explained.merge] computes, written without the loops; the
    properties below are read off these after [merge] has been shown equal
    to them. *)

(** A value on which [key in value] is reached and throws. *)
Definition truthyPrimitive (v : JSValue) : bool :=
  truthy v && negb (isNonNullObject v).

(** The Explanations one source pushes for [key]. *)
Definition contribution (key : string) (explained : Explained.t)
  : list Explanation :=
  let v := Explained.value explained in
  if isNonNullObject v && prop_in key (match v with
                                       | VArr o | VObj o => o
                                       | _ => []
                                       end)
  then match Explained.explain explained None false with
       | rootExp :: _ => [Explained.candidate rootExp v key]
       | [] => []
       end
  else [].

(** The candidates for [key] in source order, and their sorted list. *)
Definition candidates (key : string) (explaineds : list Explained.t)
  : list Explanation :=
  flat_map (contribution key) explaineds.

Definition ranked (key : string) (explaineds : list Explained.t)
  : list Explanation :=
  arraySort Explained.compareExplanations (candidates key explaineds).

Definition valueEntry (explaineds : list Explained.t) (key : string)
  : list (string * JSValue) :=
  match ranked key explaineds with
  | [] => []
  | first :: _ =>
      if String.eqb key "__proto__" then [] else [(key, exp_value first)]
  end.

Definition ledgerEntry (explaineds : list Explained.t) (key : string)
  : list (string * list Explanation) :=
  match ranked key explaineds with
  | [] => []
  | first :: others => [(key, Explained.markWon first :: others)]
  end.

Definition mergeClosedForm (explaineds : list Explained.t) : Explained.t :=
  Explained.new
    (VObj (flat_map (valueEntry explaineds) (Explained.collectKeys explaineds)))
    (flat_map (ledgerEntry explaineds) (Explained.collectKeys explaineds)).

(** ** Registration order and clock readings *)

(** The root Explanation that [merge] reads from a source, when there is
    one. *)
Definition rootOf (explained : Explained.t) : list Explanation :=
  match Explained.explain explained None false with
  | rootExp :: _ => [rootExp]
  | [] => []
  end.

Definition byTimestamp (a b : Explanation) : Prop :=
  (timestamp a <= timestamp b)%Z.

(** The sources were recorded in the order in which they are supplied: the
    timestamps of their root Explanations never decrease along the list. *)
Definition recordedInOrder (explaineds : list Explained.t) : Prop :=
  StronglySorted byTimestamp (flat_map rootOf explaineds).

Definition hasPrecedence (p : Z) (e : Explanation) : bool :=
  (precedence e =? p)%Z.

(** The candidates that the comparator of [merge] cannot tell apart. *)
Definition sameRank (p ts : Z) (e : Explanation) : bool :=
  (precedence e =? p)%Z && (timestamp e =? ts)%Z.

(** Ordering by precedence alone, highest first. *)
Definition comparePrecedence (a b : Explanation) : Z :=
  (precedence b - precedence a)%Z.

(** Forgetting what the clock read, to compare two runs. *)
Definition eraseTimestamp (e : Explanation) : Explanation :=
  {| source := source e; exp_value := exp_value e; reason := reason e;
     precedence := precedence e; location := location e; won := won e;
     timestamp := 0 |}.

Definition eraseLedger (ledger : list (string * list Explanation))
  : list (string * list Explanation) :=
  map (fun kv => (fst kv, map eraseTimestamp (snd kv))) ledger.

Definition eraseClock (explained : Explained.t) : Explained.t :=
  Explained.new (Explained.value explained)
                (eraseLedger (Explained.explanations explained)).

(** Successive readings of the clock never go back. *)
Definition monotoneClock (now : nat -> Z) : Prop :=
  forall i j, (i <= j)%nat -> (now i <= now j)%Z.

(** ** Sources *)

(** A provenance-tagged partial value: an object together with the root
    Explanation that carries its source metadata, as [Explained.from] and
    [ConfigResolver.resolve] build them. *)
Definition taggedPartial (explained : Explained.t) : Prop :=
  isNonNullObject (Explained.value explained) = true /\
  rootOf explained <> [].

(** [key] is a field of the partial value of a source. *)
Definition ownsKey (key : string) (explained : Explained.t) : bool :=
  match Explained.value explained with
  | VArr o | VObj o => prop_in key o
  | _ => false
  end.

(** [Array.isArray(v)] *)
Definition isArray (v : JSValue) : bool :=
  match v with
  | VArr _ => true
  | _ => false
  end.

(** A source that is not an array: for a key that no object inherits,
    [key in value] then holds exactly when the value has the key itself
    (an array also has a [length] and the methods of [Array.prototype]). *)
Definition notArray (explained : Explained.t) : Prop :=
  isArray (Explained.value explained) = false.

(** ** The walk of the extends chain as a relation

    [walks host configPath baseDir prec visited out]: the call
    [resolveTSConfigChain(configPath, baseDir, prec, visited)] ends with
    [out], which is either the chain it returns together with the state of
    the shared [visited] set, or the error it throws. *)

Inductive walks (host : Host)
  : string -> string -> Z -> list string ->
    Outcome (list TSConfigResolution * list string) -> Prop :=
| walks_unresolved configPath baseDir prec visited e :
    TSConfigAdapter.resolveTSConfigPath host configPath baseDir = Throws e ->
    walks host configPath baseDir prec visited (Throws e)
| walks_visited configPath baseDir prec visited fullPath :
    TSConfigAdapter.resolveTSConfigPath host configPath baseDir
    = Returns fullPath ->
    set_has fullPath visited = true ->
    walks host configPath baseDir prec visited (Returns ([], visited))
| walks_unparsed configPath baseDir prec visited fullPath e :
    TSConfigAdapter.resolveTSConfigPath host configPath baseDir
    = Returns fullPath ->
    set_has fullPath visited = false ->
    TSConfigAdapter.loadTSConfig host fullPath = Throws e ->
    walks host configPath baseDir prec visited (Throws e)
| walks_parent_throws configPath baseDir prec visited fullPath cfg e :
    TSConfigAdapter.resolveTSConfigPath host configPath baseDir
    = Returns fullPath ->
    set_has fullPath visited = false ->
    TSConfigAdapter.loadTSConfig host fullPath = Returns cfg ->
    walksParents host (dirname host fullPath) prec
                 (List.length (TSConfigAdapter.extendsArray cfg))
                 (TSConfigAdapter.extendsArray cfg) 0 []
                 (set_add visited fullPath) (Throws e) ->
    walks host configPath baseDir prec visited (Throws e)
| walks_document configPath baseDir prec visited fullPath cfg chain visited' :
    TSConfigAdapter.resolveTSConfigPath host configPath baseDir
    = Returns fullPath ->
    set_has fullPath visited = false ->
    TSConfigAdapter.loadTSConfig host fullPath = Returns cfg ->
    walksParents host (dirname host fullPath) prec
                 (List.length (TSConfigAdapter.extendsArray cfg))
                 (TSConfigAdapter.extendsArray cfg) 0 []
                 (set_add visited fullPath) (Returns (chain, visited')) ->
    walks host configPath baseDir prec visited
          (Returns (chain ++ [mkTSConfigResolution fullPath cfg prec],
                    visited'))

with walksParents (host : Host)
  : string -> Z -> nat -> list string -> nat ->
    list TSConfigResolution -> list string ->
    Outcome (list TSConfigResolution * list string) -> Prop :=
| parents_done currentDir prec len index chain visited :
    walksParents host currentDir prec len [] index chain visited
                 (Returns (chain, visited))
| parents_throw currentDir prec len extendPath rest index chain visited e :
    walks host extendPath currentDir
          (TSConfigAdapter.parentPrecedence prec len index) visited (Throws e) ->
    walksParents host currentDir prec len (extendPath :: rest) index chain
                 visited (Throws e)
| parents_next currentDir prec len extendPath rest index chain visited
               extendedChain visited' out :
    walks host extendPath currentDir
          (TSConfigAdapter.parentPrecedence prec len index) visited
          (Returns (extendedChain, visited')) ->
    walksParents host currentDir prec len rest (S index)
                 (chain ++ extendedChain) visited' out ->
    walksParents host currentDir prec len (extendPath :: rest) index chain
                 visited out.

Scheme walks_mutind := Minimality for walks Sort Prop
  with walksParents_mutind := Minimality for walksParents Sort Prop.

Combined Scheme walks_both from walks_mutind, walksParents_mutind.

(** The layout of a chain: the document at [prec] comes last, after one
    segment per parent in declaration order; the segment of the parent at
    [index] is empty when that location had been visited before, and is
    otherwise the chain of that parent, laid out in the same way at the
    precedence [parentPrecedence prec len index]. *)
Unset Elimination Schemes.

Inductive walked (host : Host)
  : string -> string -> Z -> list TSConfigResolution -> Prop :=
| walked_document configPath baseDir prec fullPath cfg segments :
    TSConfigAdapter.resolveTSConfigPath host configPath baseDir
    = Returns fullPath ->
    TSConfigAdapter.loadTSConfig host fullPath = Returns cfg ->
    Forall2
      (fun parent segment =>
         segment = [] \/
         walked host (snd parent) (dirname host fullPath)
                (TSConfigAdapter.parentPrecedence
                   prec (List.length (TSConfigAdapter.extendsArray cfg))
                   (fst parent))
                segment)
      (combine (seq 0 (List.length (TSConfigAdapter.extendsArray cfg)))
               (TSConfigAdapter.extendsArray cfg))
      segments ->
    walked host configPath baseDir prec
           (List.concat segments ++ [mkTSConfigResolution fullPath cfg prec]).

Set Elimination Schemes.

(** The references a resolution meets: the entry, and the parents that the
    documents met declare. *)
Inductive referenced (host : Host) (configPath baseDir : string)
  : string -> string -> Prop :=
| referenced_entry : referenced host configPath baseDir configPath baseDir
| referenced_parent child childDir fullPath cfg parent :
    referenced host configPath baseDir child childDir ->
    TSConfigAdapter.resolveTSConfigPath host child childDir = Returns fullPath ->
    TSConfigAdapter.loadTSConfig host fullPath = Returns cfg ->
    In parent (TSConfigAdapter.extendsArray cfg) ->
    referenced host configPath baseDir parent (dirname host fullPath).

(** The document a reference names cannot be located, or cannot be parsed;
    [e] is the error that says so. *)
Definition unavailable (host : Host) (configPath baseDir : string) (e : Error)
  : Prop :=
  TSConfigAdapter.resolveTSConfigPath host configPath baseDir = Throws e \/
  exists fullPath,
    TSConfigAdapter.resolveTSConfigPath host configPath baseDir
    = Returns fullPath /\
    TSConfigAdapter.loadTSConfig host fullPath = Throws e.

(** An error that carries the location it is about. *)
Definition identifies (e : Error) (configPath baseDir : string) (host : Host)
  : Prop :=
  e = CannotResolvePackage configPath \/
  e = CannotFindFile configPath \/
  exists fullPath,
    TSConfigAdapter.resolveTSConfigPath host configPath baseDir
    = Returns fullPath /\
    e = FailedToParse fullPath.

(** The same notions read off the host alone, without running the
    adapter: where a reference leads, which references a resolution
    meets, and what is wrong with the document that a reference names. *)
Definition pathLike (configPath : string) : bool :=
  startsWith "." configPath || startsWith "/" configPath.

(** The location that a reference names: for a relative or absolute path
    the file there, or else the file with [.json] appended; for any other
    reference what the module resolution finds for it, or else for its
    [tsconfig.json]. *)
Inductive locates (host : Host) (configPath baseDir : string)
  : string -> Prop :=
| locates_package fullPath :
    pathLike configPath = false ->
    requireResolve host configPath baseDir = Some fullPath ->
    locates host configPath baseDir fullPath
| locates_package_tsconfig fullPath :
    pathLike configPath = false ->
    requireResolve host configPath baseDir = None ->
    requireResolve host (String.append configPath "/tsconfig.json") baseDir
    = Some fullPath ->
    locates host configPath baseDir fullPath
| locates_file :
    pathLike configPath = true ->
    prop_in (pathResolve host baseDir configPath) (files host) = true ->
    locates host configPath baseDir (pathResolve host baseDir configPath)
| locates_file_json :
    pathLike configPath = true ->
    prop_in (pathResolve host baseDir configPath) (files host) = false ->
    prop_in (String.append (pathResolve host baseDir configPath) ".json")
            (files host) = true ->
    locates host configPath baseDir
            (String.append (pathResolve host baseDir configPath) ".json").

(** The references met from the entry: the entry, and the parents declared
    by the documents that the references met lead to. *)
Inductive reached (host : Host) (configPath baseDir : string)
  : string -> string -> Prop :=
| reached_entry : reached host configPath baseDir configPath baseDir
| reached_parent child childDir fullPath cfg parent :
    reached host configPath baseDir child childDir ->
    locates host child childDir fullPath ->
    prop_get fullPath (files host) = Some (Some cfg) ->
    In parent (TSConfigAdapter.extendsArray cfg) ->
    reached host configPath baseDir parent (dirname host fullPath).

(** What is wrong with the document that a reference names, together with
    the error that reports it: no package of that name, no file at that
    path, or a location that holds no readable, well-formed document.
    Each error carries the reference, or the location found for it. *)
Inductive defect (host : Host) (configPath baseDir : string)
  : Error -> Prop :=
| defect_package :
    pathLike configPath = false ->
    requireResolve host configPath baseDir = None ->
    requireResolve host (String.append configPath "/tsconfig.json") baseDir
    = None ->
    defect host configPath baseDir (CannotResolvePackage configPath)
| defect_file :
    pathLike configPath = true ->
    prop_in (pathResolve host baseDir configPath) (files host) = false ->
    prop_in (String.append (pathResolve host baseDir configPath) ".json")
            (files host) = false ->
    defect host configPath baseDir (CannotFindFile configPath)
| defect_content fullPath :
    locates host configPath baseDir fullPath ->
    (forall cfg, prop_get fullPath (files host) <> Some (Some cfg)) ->
    defect host configPath baseDir (FailedToParse fullPath).

(** The existing files not yet visited: what bounds the depth of a walk. *)
Definition unvisited (host : Host) (visited : list string) : list string :=
  filter (fun p => negb (set_has p visited)) (keysOf (files host)).

(** How a walk that returns [chain] leaves the shared set: it has added
    the locations of [chain], each new and each once. *)
Definition grows (visited : list string) (chain : list TSConfigResolution)
           (visited' : list string) : Prop :=
  (forall x, In x visited' <-> In x visited \/ In x (map path chain)) /\
  (forall x, In x (map path chain) -> ~ In x visited) /\
  NoDup (map path chain).

(** Every document of [chain] is the parsed content of its location, and
    every parent it declares has been located, at a location in [visited]. *)
Definition settled (host : Host) (visited : list string)
           (chain : list TSConfigResolution) : Prop :=
  forall d, In d chain ->
    TSConfigAdapter.loadTSConfig host (path d) = Returns (config d) /\
    forall parent, In parent (TSConfigAdapter.extendsArray (config d)) ->
      exists fullPath,
        TSConfigAdapter.resolveTSConfigPath host parent (dirname host (path d))
        = Returns fullPath /\
        In fullPath visited.

(** ** Documents that survive flattening *)

Fixpoint hasDot (s : string) : bool :=
  match s with
  | EmptyString => false
  | String c s' => Ascii.eqb c "."%char || hasDot s'
  end.

(** A key that one segment of a dotted path can stand for, and that is not
    a name every object inherits. *)
Definition plainKey (k : string) : bool :=
  negb (String.eqb k "") && negb (hasDot k) && negb (inheritedName k).

(** The entries of an object whose keys are plain and distinct and whose
    nested plain objects, at every depth, are of the same kind and not
    empty; every other value, arrays included, is a leaf. *)
Inductive nestedEntries : list (string * JSValue) -> Prop :=
| nested_nil : nestedEntries []
| nested_leaf k v o :
    plainKey k = true -> ~ In k (keysOf o) ->
    (forall o', v <> VObj o') ->
    nestedEntries o ->
    nestedEntries ((k, v) :: o)
| nested_object k o' o :
    plainKey k = true -> ~ In k (keysOf o) ->
    o' <> [] -> nestedEntries o' ->
    nestedEntries o ->
    nestedEntries ((k, VObj o') :: o).

(** The loop of [flattenObject] with its accumulator. *)
Definition flattenLoop (prefix : string)
  : list (string * JSValue) -> list (string * JSValue) ->
    list (string * JSValue) :=
  fix loop (entries : list (string * JSValue))
      (result : list (string * JSValue)) {struct entries} :=
    match entries with
    | [] => result
    | (key, v) :: rest =>
        let newKey := TSConfigAdapter.joinKey prefix key in
        match v with
        | VObj _ =>
            loop rest (prop_assign result
                                   (TSConfigAdapter.flattenValue v newKey))
        | _ => loop rest (object_set result newKey v)
        end
    end.

(** No key of [acc] is a dotted path through one of [keys] below [ps]. *)
Definition freshFor (ps : list string) (keys : list string)
           (acc : list (string * JSValue)) : Prop :=
  forall key, In key (keysOf acc) ->
    forall k rest, In k keys -> splitDot key <> ps ++ k :: rest.

(** [prefix] is the dotted form of the path [ps]. *)
Definition prefixPath (prefix : string) (ps : list string) : Prop :=
  (prefix = "" /\ ps = []) \/ (prefix <> "" /\ splitDot prefix = ps).

(** The entries of the object found by following [ps] from the entries
    [root], and [root] with that object's entries changed by [f]. *)
Fixpoint lookupAt (ps : list string) (root : list (string * JSValue))
  : option (list (string * JSValue)) :=
  match ps with
  | [] => Some root
  | p :: ps' =>
      match prop_get p root with
      | Some (VObj inner) => lookupAt ps' inner
      | _ => None
      end
  end.

Fixpoint updateAt (ps : list string)
         (f : list (string * JSValue) -> list (string * JSValue))
         (root : list (string * JSValue)) : list (string * JSValue) :=
  match ps with
  | [] => f root
  | p :: ps' =>
      match prop_get p root with
      | Some (VObj inner) => prop_set root p (VObj (updateAt ps' f inner))
      | _ => root
      end
  end.

(** The value found by following the path [ks] through own properties. *)
Fixpoint nodeAt (ks : list string) (v : JSValue) : option JSValue :=
  match ks with
  | [] => Some v
  | k :: rest =>
      match field v k with
      | Some child => nodeAt rest child
      | None => None
      end
  end.

(** One of the two paths runs along the other: they are equal, or one
    leads to a place at or above which the other ends. *)
Fixpoint comparable (p q : list string) : bool :=
  match p, q with
  | a :: p', b :: q' => String.eqb a b && comparable p' q'
  | _, _ => true
  end.

(** What the inner loop of [unflattenObject] makes of an object for one
    path, as long as it meets nothing but plain objects on its way, and
    the condition that it does. *)
Fixpoint insertPath (ks : list string) (v : JSValue)
         (o : list (string * JSValue)) : list (string * JSValue) :=
  match ks with
  | [] => o
  | [k] => prop_set o k v
  | k :: rest =>
      match prop_get k o with
      | Some (VObj inner) => prop_set o k (VObj (insertPath rest v inner))
      | Some _ => o
      | None => prop_set o k (VObj (insertPath rest v []))
      end
  end.

Fixpoint fits (ks : list string) (o : list (string * JSValue)) : bool :=
  match ks with
  | [] => true
  | [k] => true
  | k :: rest =>
      match prop_get k o with
      | Some (VObj inner) => fits rest inner
      | Some _ => false
      | None => true
      end
  end.

(** The flat keys of the documents of a chain, and the condition that no
    two of them contradict each other about the nesting: no document sets
    a field at a path at or below which another key, of the same or of
    another document, leads. *)
Definition flatKeys (chain : list TSConfigResolution) : list string :=
  flat_map
    (fun d => keysOf (TSConfigAdapter.flattenObject (tsc_fields (config d)) ""))
    chain.

Definition shapesAgree (chain : list TSConfigResolution) : bool :=
  forallb
    (fun k1 =>
       forallb
         (fun k2 =>
            String.eqb k1 k2 || negb (comparable (splitDot k1) (splitDot k2)))
         (flatKeys chain))
    (flatKeys chain).

(** The number of distinct sources recorded in a ledger. *)
Definition distinctSources (ledger : list (string * list Explanation))
  : list string :=
  nodup string_dec (flat_map (fun kv => map source (snd kv)) ledger).

(** ** Inputs used in the examples below *)

Module Scenario.

(** Three sources over [port] and [host], all recorded at the same clock
    reading. *)
Definition defaults : Explained.t :=
  Explained.from (VObj [("port", VNum 8080); ("host", VStr "localhost")])
                 "defaults" "Default configuration" 0 None 1700.

Definition env : Explained.t :=
  Explained.from (VObj [("port", VNum 3000)])
                 "env" "Environment variables" 10 None 1700.

Definition cli : Explained.t :=
  Explained.from (VObj [("port", VNum 5000)])
                 "cli" "Command-line arguments" 20 None 1700.

(** What merging the three yields (scenario 8 of the specification). *)
Definition portLedger : list Explanation :=
  [ mkExplanation "cli" (VNum 5000) "Command-line arguments" 20 None true 1700;
    mkExplanation "env" (VNum 3000) "Environment variables" 10 None false 1700;
    mkExplanation "defaults" (VNum 8080) "Default configuration" 0 None false
                  1700 ].

Definition hostLedger : list Explanation :=
  [ mkExplanation "defaults" (VStr "localhost") "Default configuration" 0 None
                  true 1700 ].

Definition merged : Explained.t :=
  Explained.new (VObj [("port", VNum 5000); ("host", VStr "localhost")])
                [("port", portLedger); ("host", hostLedger)].

Definition envPort : Explanation :=
  mkExplanation "env" (VNum 3000) "Environment variables" 10 None false 1700.

Definition defaultsPort : Explanation :=
  mkExplanation "defaults" (VNum 8080) "Default configuration" 0 None false
                1700.

(** Two sources of equal precedence recorded within the same
    millisecond, as in the tie-break test of the core. *)
Definition first : Explained.t :=
  Explained.from (VObj [("value", VNum 1)]) "first" "First" 5 None 1700.

Definition second : Explained.t :=
  Explained.from (VObj [("value", VNum 2)]) "second" "Second" 5 None 1700.

Definition firstValue : Explanation :=
  mkExplanation "first" (VNum 1) "First" 5 None false 1700.

Definition secondValue : Explanation :=
  mkExplanation "second" (VNum 2) "Second" 5 None false 1700.

Definition tied : Explained.t :=
  Explained.new (VObj [("value", VNum 1)])
                [("value", [Explained.markWon firstValue; secondValue])].

(** A source parsed from the JSON text [{"__proto__": 5, "x": 2}], whose
    first property is an own property named [__proto__]. *)
Definition polluted : Explained.t :=
  Explained.from (VObj [("__proto__", VNum 5); ("x", VNum 2)])
                 "s" "r" 0 None 1700.

(** The two sources of the tie-break test, the second stamped before the
    first: wrappers created in one order and supplied in the other, or a
    clock set back between the two calls of [Explained.from]. *)
Definition late : Explained.t :=
  Explained.from (VObj [("value", VNum 1)]) "first" "First" 5 None 1700.

Definition early : Explained.t :=
  Explained.from (VObj [("value", VNum 2)]) "second" "Second" 5 None 1699.

Definition lateValue : Explanation :=
  mkExplanation "first" (VNum 1) "First" 5 None false 1700.

Definition earlyValue : Explanation :=
  mkExplanation "second" (VNum 2) "Second" 5 None false 1699.

Definition swapped : Explained.t :=
  Explained.new (VObj [("value", VNum 2)])
                [("value", [Explained.markWon earlyValue; lateValue])].

(** The same two sources registered with the resolver, and a clock that
    is set back by a millisecond after its first reading. *)
Definition firstSource : ConfigSource :=
  mkConfigSource [("value", VNum 1)] (mkSource "first" 5 (Some "First") None).

Definition secondSource : ConfigSource :=
  mkConfigSource [("value", VNum 2)]
                 (mkSource "second" 5 (Some "Second") None).

Definition setBack (i : nat) : Z :=
  match i with
  | O => 1700
  | _ => 1699
  end.

End Scenario.

Module Disk.

(** A flat directory [/p]: a relative reference [./x] names [/p/x], and no
    package can be resolved. *)
Definition flat (fs : list (string * option TSConfig)) : Host :=
  {| requireResolve := fun _ _ => None;
     pathResolve := fun baseDir configPath =>
       String.append baseDir
         (String.substring 1 (String.length configPath - 1) configPath);
     dirname := fun _ => "/p";
     files := fs |}.

Definition strict (b : bool) : list (string * JSValue) :=
  [("compilerOptions", VObj [("strict", VBool b)])].

(** [tsconfig.json] extends [b] and [c]; [c] extends [d]. *)
Definition fork : Host :=
  flat [ ("/p/tsconfig.json",
          Some (mkTSConfig (Some (ExtendsMany ["./b.json"; "./c.json"]))
                           (strict true)));
         ("/p/b.json", Some (mkTSConfig None (strict false)));
         ("/p/c.json",
          Some (mkTSConfig (Some (ExtendsOne "./d.json")) (strict false)));
         ("/p/d.json", Some (mkTSConfig None (strict false))) ].

(** [a] extends [b] and [b] extends [a]. *)
Definition cycle : Host :=
  flat [ ("/p/a.json",
          Some (mkTSConfig (Some (ExtendsOne "./b.json")) (strict true)));
         ("/p/b.json",
          Some (mkTSConfig (Some (ExtendsOne "./a.json")) (strict false))) ].

(** [tsconfig.json] extends a file that is not there. *)
Definition dangling : Host :=
  flat [ ("/p/tsconfig.json",
          Some (mkTSConfig (Some (ExtendsOne "./nonexistent.json"))
                           (strict true))) ].

(** [tsconfig.json] extends a file that does not parse. *)
Definition garbled : Host :=
  flat [ ("/p/tsconfig.json",
          Some (mkTSConfig (Some (ExtendsOne "./invalid.json")) (strict true)));
         ("/p/invalid.json", None) ].

(** The chain of [fork], as the walk returns it. *)
Definition forkB : TSConfigResolution :=
  mkTSConfigResolution "/p/b.json" (mkTSConfig None (strict false)) 8.

Definition forkD : TSConfigResolution :=
  mkTSConfigResolution "/p/d.json" (mkTSConfig None (strict false)) 8.

Definition forkC : TSConfigResolution :=
  mkTSConfigResolution
    "/p/c.json" (mkTSConfig (Some (ExtendsOne "./d.json")) (strict false)) 9.

Definition forkEntry : TSConfigResolution :=
  mkTSConfigResolution
    "/p/tsconfig.json"
    (mkTSConfig (Some (ExtendsMany ["./b.json"; "./c.json"])) (strict true)) 10.

Definition forkChain : list TSConfigResolution :=
  [forkB; forkD; forkC; forkEntry].

Definition forkVisited : list string :=
  ["/p/tsconfig.json"; "/p/b.json"; "/p/c.json"; "/p/d.json"].

(** The chain of [cycle] from [a]. *)
Definition cycleChain : list TSConfigResolution :=
  [ mkTSConfigResolution
      "/p/b.json" (mkTSConfig (Some (ExtendsOne "./a.json")) (strict false)) 9;
    mkTSConfigResolution
      "/p/a.json" (mkTSConfig (Some (ExtendsOne "./b.json")) (strict true)) 10 ].

(** Two well-formed documents that flattening does not give back. *)
Definition emptyOptions : list (string * JSValue) :=
  [("compilerOptions", VObj [])].

Definition dottedKey : list (string * JSValue) :=
  [("a.b", VNum 1)].

(** Two more: a nested object under the empty key, whose fields come back
    at the top, and an own property [__proto__], as JSON text can give
    one, which flattening drops. *)
Definition emptyKey : list (string * JSValue) :=
  [("", VObj [("b", VNum 1)])].

Definition protoKey : list (string * JSValue) :=
  [("__proto__", VNum 5); ("strict", VBool true)].

(** Two documents that disagree about the nesting: the parent gives [a] a
    number, the entry gives it a nested object. *)
Definition clash : list TSConfigResolution :=
  [ mkTSConfigResolution "/p/base.json" (mkTSConfig None [("a", VNum 7)]) 9;
    mkTSConfigResolution
      "/p/tsconfig.json"
      (mkTSConfig (Some (ExtendsOne "./base.json"))
                  [("a", VObj [("b", VNum 1)])]) 10 ].

(** The first extends scenario of the specification, as one document. *)
Definition base : list (string * JSValue) :=
  [("compilerOptions",
    VObj [("strict", VBool false); ("target", VStr "ES2018")]);
   ("include", VArr [("0", VStr "src")])].

(** The same scenario as a chain: the entry extends [base] and turns
    [strict] on. *)
Definition extendedBase : TSConfigResolution :=
  mkTSConfigResolution "/p/tsconfig.base.json" (mkTSConfig None base) 9.

Definition extendedEntry : TSConfigResolution :=
  mkTSConfigResolution
    "/p/tsconfig.json"
    (mkTSConfig (Some (ExtendsOne "./tsconfig.base.json")) (strict true)) 10.

Definition extended : list TSConfigResolution :=
  [extendedBase; extendedEntry].

End Disk.

(** ** src/config/builder.ts *)

Module ConfigBuilder.

Record t : Type := mk {
  sources : list ConfigSource;
  currentPrecedence : Z
}.

(** [explainable()], that is [new ConfigBuilder()]. *)
Definition explainable : t := mk [] 0.

(** [reason || fallback] *)
Definition orElse (reason : option string) (fallback : string) : string :=
  match reason with
  | Some r => if String.eqb r "" then fallback else r
  | None => fallback
  end.

Definition from (this : t) (d : list (string * JSValue)) (s : Source) : t :=
  mk (sources this ++ [mkConfigSource d s])
     (Z.max (currentPrecedence this) (src_precedence s)).

Definition defaults (this : t) (d : list (string * JSValue))
           (reason : option string) : t :=
  from this d
       (mkSource "defaults" 0 (Some (orElse reason "Default configuration"))
                 None).

Definition env (this : t) (d : list (string * JSValue))
           (reason : option string) : t :=
  from this d
       (mkSource "env" 10 (Some (orElse reason "Environment variables")) None).

Definition file (this : t) (d : list (string * JSValue))
           (filePath reason : option string) : t :=
  from this d
       (mkSource "file" 5 (Some (orElse reason "Configuration file"))
                 filePath).

Definition cli (this : t) (d : list (string * JSValue))
           (reason : option string) : t :=
  from this d
       (mkSource "cli" 20 (Some (orElse reason "Command-line arguments"))
                 None).

(** [add(data, sourceName, reason)]: the counter is raised first, and the
    source is registered at the raised value ([currentPrecedence += 1] on
    a double, which is the next integer as long as the counter is below
    2^53). *)
Definition add (this : t) (d : list (string * JSValue)) (sourceName : string)
           (reason : option string) : t :=
  let raised := mk (sources this) (currentPrecedence this + 1) in
  from raised d
       (mkSource sourceName (currentPrecedence raised)
                 (Some (orElse reason (String.append "From " sourceName)))
                 None).

Definition build (this : t) (now : nat -> Z) : Outcome Explained.t :=
  ConfigResolver.resolve
    (fold_left
       (fun resolver s =>
          ConfigResolver.addSource resolver (data s) (cs_source s))
       (sources this) [])
    now.

Definition sourceCount (this : t) : nat := List.length (sources this).

Definition clear (this : t) : t := mk [] 0.

(** One call of the fluent interface, and the builder a chain of calls
    leaves, starting from [explainable()]. *)
Inductive Call : Type :=
| Defaults (d : list (string * JSValue)) (reason : option string)
| Env (d : list (string * JSValue)) (reason : option string)
| File (d : list (string * JSValue)) (filePath reason : option string)
| Cli (d : list (string * JSValue)) (reason : option string)
| From (d : list (string * JSValue)) (s : Source)
| Add (d : list (string * JSValue)) (sourceName : string)
      (reason : option string)
| Clear.

Definition call (this : t) (c : Call) : t :=
  match c with
  | Defaults d reason => defaults this d reason
  | Env d reason => env this d reason
  | File d filePath reason => file this d filePath reason
  | Cli d reason => cli this d reason
  | From d s => from this d s
  | Add d sourceName reason => add this d sourceName reason
  | Clear => clear this
  end.

Definition chained (calls : list Call) : t := fold_left call calls explainable.

End ConfigBuilder.

(** ** src/adapters/env.ts *)

(** What the adapter asks of the language: [String.prototype.toUpperCase],
    [String.prototype.toLowerCase], [Number(value)] ([None] when the result
    is [NaN]) and [JSON.parse(value)] ([None] when it throws). *)
Record Builtins : Type := mkBuiltins {
  toUpperCase : string -> string;
  toLowerCase : string -> string;
  numberOf : string -> option JSValue;
  jsonParse : string -> option JSValue
}.

Module EnvAdapter.

Inductive EnvType : Type := TString | TNumber | TBoolean | TJson.

(** A schema field; [default] is [VUndefined] when the schema gives none,
    [required] is [false] when it is left out. *)
Record EnvSchemaField : Type := mkEnvSchemaField {
  type : EnvType;
  default : JSValue;
  envVar : option string;
  required : bool
}.

Record EnvParseResult : Type := mkEnvParseResult {
  parsed : list (string * JSValue);
  used : list string;
  ignored : list string;
  errors : list (string * string)
}.

(** What [parseValue] returns, or the message of the error it throws. *)
Inductive Parsed : Type :=
| ParsedAs (v : JSValue)
| CannotParse (message : string).

Definition quote : string := String (ascii_of_nat 34) EmptyString.

(** [`Cannot parse "${value}" as ${what}`] *)
Definition cannotParse (value what : string) : string :=
  String.append "Cannot parse "
    (String.append quote
       (String.append value
          (String.append quote (String.append " as " what)))).

Definition isUndefined (v : JSValue) : bool :=
  match v with
  | VUndefined => true
  | _ => false
  end.

Definition isBoolean (ty : EnvType) : bool :=
  match ty with
  | TBoolean => true
  | _ => false
  end.

(** [env[name]] on a [Record<string, string | undefined>], for a name that
    [env] has itself or that no object inherits. *)
Definition envLookup (env : list (string * option string)) (name : string)
  : option string :=
  match prop_get name env with
  | Some (Some v) => Some v
  | _ => None
  end.

Section WithBuiltins.
Variable js : Builtins.

Definition parseValue (value : string) (ty : EnvType) : Parsed :=
  match ty with
  | TString => ParsedAs (VStr value)
  | TNumber =>
      match numberOf js value with
      | Some num => ParsedAs num
      | None => CannotParse (cannotParse value "number")
      end
  | TBoolean =>
      let lower := toLowerCase js value in
      if String.eqb lower "true" || String.eqb lower "1"
         || String.eqb lower "yes"
      then ParsedAs (VBool true)
      else if String.eqb lower "false" || String.eqb lower "0"
              || String.eqb lower "no" || String.eqb lower ""
           then ParsedAs (VBool false)
           else CannotParse (cannotParse value "boolean")
  | TJson =>
      match jsonParse js value with
      | Some v => ParsedAs v
      | None => CannotParse (cannotParse value "JSON")
      end
  end.

(** [field.envVar || key.toUpperCase()] *)
Definition envVarName (key : string) (field : EnvSchemaField) : string :=
  match envVar field with
  | Some n => if String.eqb n "" then toUpperCase js key else n
  | None => toUpperCase js key
  end.

(** The two branches taken when there is nothing to parse: the variable is
    undefined, or it is the empty string and the type is not boolean. *)
Definition notSet (key : string) (field : EnvSchemaField)
           (result : EnvParseResult) : EnvParseResult :=
  if required field then
    mkEnvParseResult
      (parsed result) (used result) (ignored result)
      (errors result
       ++ [(key,
            String.append "Required environment variable "
              (String.append (envVarName key field) " is not set"))])
  else if negb (isUndefined (default field)) then
    mkEnvParseResult
      (object_set (parsed result) key (default field))
      (used result) (ignored result) (errors result)
  else result.

(** The body of the first loop of [parseEnv]. *)
Definition parseField (env : list (string * option string))
           (result : EnvParseResult) (entry : string * EnvSchemaField)
  : EnvParseResult :=
  let key := fst entry in
  let field := snd entry in
  match envLookup env (envVarName key field) with
  | Some envValue =>
      if negb (String.eqb envValue "") || isBoolean (type field) then
        match parseValue envValue (type field) with
        | ParsedAs v =>
            mkEnvParseResult
              (object_set (parsed result) key v)
              (used result ++ [envVarName key field])
              (ignored result) (errors result)
        | CannotParse message =>
            mkEnvParseResult
              (if negb (isUndefined (default field))
               then object_set (parsed result) key (default field)
               else parsed result)
              (used result) (ignored result)
              (errors result ++ [(key, message)])
        end
      else notSet key field result
  | None => notSet key field result
  end.

Definition parseEnv (env : list (string * option string))
           (schema : list (string * EnvSchemaField)) : EnvParseResult :=
  let result :=
    fold_left (parseField env) schema (mkEnvParseResult [] [] [] []) in
  let schemaEnvVars :=
    fold_left set_add
              (map (fun entry => envVarName (fst entry) (snd entry)) schema)
              [] in
  mkEnvParseResult
    (parsed result) (used result)
    (filter
       (fun name =>
          negb (set_has name schemaEnvVars)
          && negb (existsb (String.eqb name) (used result)))
       (keysOf env))
    (errors result).

(** [envValue !== undefined && envValue !== ''] *)
Definition hasEnvValue (envValue : option string) : bool :=
  match envValue with
  | Some v => negb (String.eqb v "")
  | None => false
  end.

(** The body of the loop of [explainEnv]; the state is the wrapper and the
    number of readings of the clock made so far. *)
Definition explainField (env : list (string * option string))
           (result : EnvParseResult) (now : nat -> Z)
           (state : Explained.t * nat) (entry : string * EnvSchemaField)
  : Explained.t * nat :=
  let key := fst entry in
  let field := snd entry in
  let envValue := envLookup env (envVarName key field) in
  let finalValue := getProperty (VObj (parsed result)) key in
  let state1 :=
    if negb (isUndefined (default field)) then
      (Explained._addExplanation (fst state) key
         {| source := "default";
            exp_value := default field;
            reason := String.append "Default value for " key;
            precedence := 0;
            location := None;
            won := negb (hasEnvValue envValue);
            timestamp := now (snd state) |},
       S (snd state))
    else state in
  match envValue with
  | Some raw =>
      if negb (String.eqb raw "") then
        match find (fun e => String.eqb (fst e) key) (errors result) with
        | Some error =>
            (Explained._addExplanation (fst state1) key
               {| source := "env";
                  exp_value := VStr raw;
                  reason :=
                    String.append (envVarName key field)
                      (String.append " env var (parse error: "
                         (String.append (snd error) ")"));
                  precedence := 10;
                  location := None;
                  won := false;
                  timestamp := now (snd state1) |},
             S (snd state1))
        | None =>
            (Explained._addExplanation (fst state1) key
               {| source := "env";
                  exp_value := finalValue;
                  reason := String.append (envVarName key field) " env var";
                  precedence := 10;
                  location := None;
                  won := true;
                  timestamp := now (snd state1) |},
             S (snd state1))
        end
      else state1
  | None => state1
  end.

Definition explainEnv (schema : list (string * EnvSchemaField))
           (env : list (string * option string)) (now : nat -> Z)
  : Explained.t :=
  let result := parseEnv env schema in
  fst (fold_left (explainField env result now) schema
                 (Explained.new (VObj (parsed result)) [], 0%nat)).
End WithBuiltins.

(** [loadEnvFile(filePath)]: a placeholder that reads nothing. *)
Definition loadEnvFile (_filePath : string) : list (string * string) := [].

End EnvAdapter.

(** ** Notions used by the further properties *)

(** A key that begins with a digit; the keys that an object lists before
    the others, whatever the order in which they were added (the
    canonical array indices), are among them. *)
Definition startsWithDigit (k : string) : bool :=
  match k with
  | EmptyString => false
  | String c _ =>
      (48 <=? nat_of_ascii c)%nat && (nat_of_ascii c <=? 57)%nat
  end.

(** A key that an object holds as an own property in the place where it
    was first assigned: not [__proto__], whose assignment reaches the
    prototype setter, and not a key that is listed ahead of its turn. *)
Definition orderedKey (k : string) : bool :=
  negb (String.eqb k "__proto__") && negb (startsWithDigit k).

(** A wrapper whose ledger holds, for each path, a sequence that belongs
    to that path alone: one made by [new Explained(value)],
    [Explained.merge] or [_addExplanation].  ([_setExplanations] stores
    the array it is given, which another path or another wrapper may
    hold as well.) *)
Inductive freshLedger : Explained.t -> Prop :=
| fresh_new v : freshLedger (Explained.new v [])
| fresh_merge explaineds merged :
    Explained.merge explaineds = Returns merged -> freshLedger merged
| fresh_add this path e :
    freshLedger this -> freshLedger (Explained._addExplanation this path e).

(** [a] stands before [b] in a ledger entry: higher precedence first, and
    among equal precedences the earlier clock reading first. *)
Definition ranksBefore (a b : Explanation) : Prop :=
  (precedence b < precedence a)%Z \/
  (precedence b = precedence a /\ (timestamp a <= timestamp b)%Z).

(** The ledger entry that merging one tagged object records for a field. *)
Definition soleExplanation (src rsn : string) (prec : Z) (loc : option string)
           (now : Z) (kv : string * JSValue) : string * list Explanation :=
  (fst kv, [mkExplanation src (snd kv) rsn prec loc true now]).

Definition precedenceOf (s : ConfigSource) : Z := src_precedence (cs_source s).

(** The calls of the builder that register a source below the band of the
    command line. *)
Definition belowCli (c : ConfigBuilder.Call) : bool :=
  match c with
  | ConfigBuilder.Defaults _ _ | ConfigBuilder.Env _ _
  | ConfigBuilder.File _ _ _ => true
  | _ => false
  end.

(** The calls of the builder that register a source. *)
Definition registers (c : ConfigBuilder.Call) : bool :=
  match c with
  | ConfigBuilder.Clear => false
  | _ => true
  end.

(** The loop of [mergeTSConfigs] that copies the ledger of the flat merge
    into the result. *)
Definition copyExplanations (mergedFlat : Explained.t) (paths : list string)
           (result : Explained.t) : Explained.t :=
  fold_left
    (fun result p =>
       match Explained.explain mergedFlat (Some p) false with
       | [] => result
       | l => Explained._setExplanations result p l
       end)
    paths result.

(** A value that [flattenObject] does not descend into. *)
Definition isLeaf (v : JSValue) : bool :=
  match v with
  | VObj _ => false
  | _ => true
  end.

(** A flat record: its keys are distinct and none of its values is a plain
    object. *)
Definition flatRecord (flat : list (string * JSValue)) : Prop :=
  NoDup (keysOf flat) /\ Forall (fun kv => isLeaf (snd kv) = true) flat.

(** The Explanation that [explainEnv] records for the default of a field. *)
Definition defaultExplanation (key : string) (field : EnvAdapter.EnvSchemaField)
           (won : bool) (timestamp : Z) : Explanation :=
  mkExplanation "default" (EnvAdapter.default field)
                (String.append "Default value for " key) 0 None won timestamp.

(** The Explanations recorded for the default of a field, if it has one. *)
Definition defaultPart (key : string) (field : EnvAdapter.EnvSchemaField)
           (won : bool) (timestamp : Z) : list Explanation :=
  if EnvAdapter.isUndefined (EnvAdapter.default field) then []
  else [defaultExplanation key field won timestamp].

(** What a field falls back to. *)
Definition defaultOf (field : EnvAdapter.EnvSchemaField) : option JSValue :=
  if EnvAdapter.isUndefined (EnvAdapter.default field) then None
  else Some (EnvAdapter.default field).

(** ** Further inputs used in the examples below *)

Module Bands.

(** The sources of the resolver test, registered in two orders. *)
Definition defaults : list (string * JSValue) :=
  [("port", VNum 8080); ("host", VStr "localhost")].

Definition env : list (string * JSValue) := [("port", VNum 3000)].

Definition cli : list (string * JSValue) := [("port", VNum 9000)].

Definition sources : list ConfigSource :=
  [ mkConfigSource cli (mkSource "cli" 20 None None);
    mkConfigSource defaults (mkSource "defaults" 0 None None);
    mkConfigSource env (mkSource "env" 10 None None) ].

Definition reordered : list ConfigSource :=
  [ mkConfigSource defaults (mkSource "defaults" 0 None None);
    mkConfigSource env (mkSource "env" 10 None None);
    mkConfigSource cli (mkSource "cli" 20 None None) ].

End Bands.

Module Fluent.

(** Calls of the builder tests. *)
Definition calls : list ConfigBuilder.Call :=
  [ ConfigBuilder.Cli [("port", VNum 9000)] None;
    ConfigBuilder.Defaults [("port", VNum 8080)] None ].

Definition first : list (string * JSValue) := [("value", VStr "first")].

Definition second : list (string * JSValue) := [("value", VStr "second")].

End Fluent.

Module Nested.

(** A document with an empty object, a repeated path and a dotted key. *)
Definition doc : list (string * JSValue) :=
  [("a", VObj [("b", VNum 1); ("c", VObj [])]);
   ("a.b", VNum 2);
   ("d", VArr [("0", VObj [])])].

End Nested.

Module Shell.

(** Builtins that know the strings of the examples: the upper case of the
    two keys, one number, and no JSON. *)
Definition js : Builtins :=
  {| toUpperCase := fun s =>
       if String.eqb s "port" then "PORT"
       else if String.eqb s "debug" then "DEBUG" else s;
     toLowerCase := fun s => s;
     numberOf := fun s =>
       if String.eqb s "3000" then Some (VNum 3000) else None;
     jsonParse := fun _ => None |}.

Definition port : EnvAdapter.EnvSchemaField :=
  EnvAdapter.mkEnvSchemaField EnvAdapter.TNumber (VNum 8080) None false.

Definition debug : EnvAdapter.EnvSchemaField :=
  EnvAdapter.mkEnvSchemaField EnvAdapter.TBoolean (VBool true) None false.

Definition apiKey : EnvAdapter.EnvSchemaField :=
  EnvAdapter.mkEnvSchemaField EnvAdapter.TString (VStr "none")
                              (Some "API_KEY") true.

Definition schema : list (string * EnvAdapter.EnvSchemaField) :=
  [("port", port); ("debug", debug); ("apiKey", apiKey)].

(** Three environments: [PORT] set, [PORT] not a number, [DEBUG] empty. *)
Definition set : list (string * option string) :=
  [("PORT", Some "3000"); ("HOME", Some "/root")].

Definition garbled : list (string * option string) :=
  [("PORT", Some "abc")].

Definition blank : list (string * option string) :=
  [("DEBUG", Some "")].

End Shell.

(* ================================================================== *)
(** * Properties *)

(** ** Names that every object inherits *)

Lemma inheritedName_proto k : inheritedName k = false -> k <> "__proto__".
Proof. intros H ->. discriminate H. Qed.

Lemma object_set_plain {A : Type} (o : list (string * A)) k v :
  k <> "__proto__" -> object_set o k v = prop_set o k v.
Proof.
  intros H. unfold object_set. apply String.eqb_neq in H. now rewrite H.
Qed.

Lemma object_set_own {A : Type} (o : list (string * A)) k v :
  prop_in k o = true -> object_set o k v = prop_set o k v.
Proof.
  intros H. unfold object_set. rewrite H. simpl. now rewrite andb_false_r.
Qed.
(* ================================================================== *)

(** ** Property lists *)

Section PropsFacts.
Context {A : Type}.
Implicit Types (o : list (string * A)) (k : string).

Lemma prop_get_set_same o k (v : A) : prop_get k (prop_set o k v) = Some v.
Proof.
  induction o as [|[k' v'] o IH]; simpl.
  - now rewrite String.eqb_refl.
  - destruct (String.eqb k k') eqn:E; simpl; rewrite ?String.eqb_refl, ?E; auto.
Qed.

Lemma prop_get_set_other o k k' (v : A) :
  k <> k' -> prop_get k (prop_set o k' v) = prop_get k o.
Proof.
  intros Hne. induction o as [|[k0 v0] o IH]; simpl.
  - apply String.eqb_neq in Hne. now rewrite Hne.
  - destruct (String.eqb k' k0) eqn:E; simpl.
    + apply String.eqb_eq in E. subst k0.
      apply String.eqb_neq in Hne. now rewrite Hne.
    + now rewrite IH.
Qed.

Lemma prop_in_get o k : prop_in k o = true <-> exists v, prop_get k o = Some v.
Proof.
  induction o as [|[k' v'] o IH]; simpl.
  - split; [discriminate | intros [v Hv]; discriminate].
  - destruct (String.eqb k k'); [|exact IH].
    split; eauto.
Qed.

Lemma prop_in_keys o k : prop_in k o = true <-> In k (keysOf o).
Proof.
  induction o as [|[k' v'] o IH]; simpl.
  - split; [discriminate | tauto].
  - destruct (String.eqb k k') eqn:E.
    + apply String.eqb_eq in E. subst. tauto.
    + apply String.eqb_neq in E. rewrite IH. split; [tauto|].
      intros [H|H]; [congruence | exact H].
Qed.

Lemma prop_get_none o k : prop_get k o = None <-> ~ In k (keysOf o).
Proof.
  rewrite <- prop_in_keys, prop_in_get. split.
  - intros H [v Hv]. congruence.
  - intros H. destruct (prop_get k o); [exfalso; eauto | reflexivity].
Qed.

Lemma prop_set_fresh o k (v : A) :
  ~ In k (keysOf o) -> prop_set o k v = o ++ [(k, v)].
Proof.
  induction o as [|[k' v'] o IH]; simpl; intros Hn; [reflexivity|].
  destruct (String.eqb k k') eqn:E.
  - apply String.eqb_eq in E. subst. tauto.
  - rewrite IH by tauto. reflexivity.
Qed.

Lemma keysOf_app o o' : keysOf (o ++ o') = keysOf o ++ keysOf o'.
Proof. apply map_app. Qed.
End PropsFacts.

Lemma set_has_In k s : set_has k s = true <-> In k s.
Proof.
  induction s as [|k' s IH]; simpl.
  - split; [discriminate | tauto].
  - destruct (String.eqb k k') eqn:E.
    + apply String.eqb_eq in E. subst. tauto.
    + apply String.eqb_neq in E. rewrite IH. split; [tauto|].
      intros [H|H]; [congruence | exact H].
Qed.

Lemma set_add_In s k x : In x (set_add s k) <-> In x s \/ x = k.
Proof.
  unfold set_add. destruct (set_has k s) eqn:E.
  - apply set_has_In in E. split; [tauto | intros [H|H]; subst; auto].
  - rewrite in_app_iff. simpl. intuition (subst; auto).
Qed.

Lemma set_add_NoDup s k : NoDup s -> NoDup (set_add s k).
Proof.
  intros H. unfold set_add. destruct (set_has k s) eqn:E; [exact H|].
  assert (Hn : ~ In k s) by (rewrite <- set_has_In; congruence).
  clear E. induction H as [|x s Hx Hs IH]; simpl.
  - constructor; [tauto | constructor].
  - constructor.
    + rewrite in_app_iff. simpl in *. intuition congruence.
    + apply IH. simpl in Hn. tauto.
Qed.

(** ** The stable sort *)

Section ArraySortFacts.
Context {A : Type} (compareFn : A -> A -> Z).

Lemma insertSorted_perm a l : Permutation (insertSorted compareFn a l) (a :: l).
Proof.
  induction l as [|b l IH]; simpl; [reflexivity|].
  destruct (compareFn a b <=? 0)%Z; [reflexivity|].
  rewrite IH. apply perm_swap.
Qed.

Lemma arraySort_perm l : Permutation (arraySort compareFn l) l.
Proof.
  induction l as [|a l IH]; simpl; [reflexivity|].
  rewrite insertSorted_perm. now constructor.
Qed.

Lemma arraySort_nil_inv l : arraySort compareFn l = [] -> l = [].
Proof.
  intros H. apply Permutation_nil. rewrite <- H. apply arraySort_perm.
Qed.

(** Where the sort puts an element that beats everything recorded before
    it and is not beaten by anything recorded after it. *)
Lemma arraySort_head l1 x l2 :
  (forall y, In y l1 -> (0 < compareFn y x)%Z) ->
  (forall y, In y l2 -> (compareFn x y <= 0)%Z) ->
  exists tl, arraySort compareFn (l1 ++ x :: l2) = x :: tl.
Proof.
  intros H1 H2. induction l1 as [|a l1 IH]; simpl.
  - destruct (arraySort compareFn l2) as [|b t] eqn:E; simpl; [eauto|].
    assert (Hb : In b l2).
    { apply (Permutation_in b (arraySort_perm l2)). rewrite E. now left. }
    apply H2, Z.leb_le in Hb. rewrite Hb. eauto.
  - destruct IH as [tl IH]; [intros; apply H1; now right|].
    rewrite IH. simpl.
    assert (Ha : (0 < compareFn a x)%Z) by (apply H1; now left).
    apply Z.leb_gt in Ha. rewrite Ha. eauto.
Qed.

Section Consistent.
(** A comparator that orders by a total preorder. *)
Hypothesis total : forall a b, (compareFn a b <= 0)%Z \/ (compareFn b a <= 0)%Z.
Hypothesis trans : forall a b c,
  (compareFn a b <= 0)%Z -> (compareFn b c <= 0)%Z -> (compareFn a c <= 0)%Z.

Lemma insertSorted_sorted a l :
  StronglySorted (precedes compareFn) l ->
  StronglySorted (precedes compareFn) (insertSorted compareFn a l).
Proof.
  induction 1 as [|b l Hl IH Hb]; simpl.
  - repeat constructor.
  - destruct (compareFn a b <=? 0)%Z eqn:E.
    + apply Z.leb_le in E. constructor; [now constructor|].
      constructor; [exact E|].
      eapply Forall_impl; [|exact Hb]. intros c Hc. eapply trans; eauto.
    + apply Z.leb_gt in E. constructor; [exact IH|].
      assert (Hba : precedes compareFn b a)
        by (destruct (total a b); [lia | assumption]).
      rewrite Forall_forall in *. intros c Hc.
      apply (Permutation_in c (insertSorted_perm a l)) in Hc.
      destruct Hc as [<-|Hc]; auto.
Qed.

Lemma arraySort_sorted l :
  StronglySorted (precedes compareFn) (arraySort compareFn l).
Proof.
  induction l as [|a l IH]; simpl; [constructor|].
  now apply insertSorted_sorted.
Qed.
End Consistent.
End ArraySortFacts.

(** ** [Explained.merge] in closed form *)

Section MergeFacts.
Import Explained.

Lemma truthyPrimitive_object v :
  isNonNullObject v = true -> truthyPrimitive v = false.
Proof. unfold truthyPrimitive. intros ->. apply andb_false_r. Qed.

Lemma collectKeys_fold_NoDup (l : list t) acc :
  NoDup acc ->
  NoDup (fold_left
           (fun allKeys explained =>
              if isNonNullObject (value explained)
              then fold_left set_add (objectKeys (value explained)) allKeys
              else allKeys) l acc).
Proof.
  revert acc. induction l as [|w l IH]; simpl; intros acc Hacc; [exact Hacc|].
  apply IH. destruct (isNonNullObject (value w)); [|exact Hacc].
  generalize (objectKeys (value w)). intros ks. revert acc Hacc.
  induction ks as [|k ks IHk]; simpl; intros acc Hacc; [exact Hacc|].
  apply IHk. now apply set_add_NoDup.
Qed.

Lemma collectKeys_NoDup (l : list t) : NoDup (collectKeys l).
Proof. apply collectKeys_fold_NoDup. constructor. Qed.

Lemma fold_set_add_In ks acc x :
  In x (fold_left set_add ks acc) <-> In x acc \/ In x ks.
Proof.
  revert acc. induction ks as [|k ks IH]; simpl; intros acc; [tauto|].
  rewrite IH, set_add_In. intuition (subst; auto).
Qed.

Lemma collectKeys_fold_In (l : list t) acc x :
  In x (fold_left
          (fun allKeys explained =>
             if isNonNullObject (value explained)
             then fold_left set_add (objectKeys (value explained)) allKeys
             else allKeys) l acc)
  <-> In x acc \/ exists w, In w l /\ In x (objectKeys (value w)).
Proof.
  revert acc. induction l as [|w l IH]; simpl; intros acc.
  - split; [tauto | intros [H|[w [[] _]]]; exact H].
  - rewrite IH. destruct (isNonNullObject (value w)) eqn:E.
    + rewrite fold_set_add_In. split.
      * intros [[H|H]|[w' [H1 H2]]]; eauto 6.
      * intros [H|[w' [[<-|H1] H2]]]; eauto 6.
    + split.
      * intros [H|[w' [H1 H2]]]; eauto 6.
      * intros [H|[w' [[<-|H1] H2]]]; eauto 6.
        destruct (value w); simpl in *; try discriminate; tauto.
Qed.

(** The union of keys: a key is collected iff some source has it. *)
Lemma collectKeys_In (l : list t) x :
  In x (collectKeys l) <-> exists w, In w l /\ In x (objectKeys (value w)).
Proof.
  unfold collectKeys. rewrite collectKeys_fold_In. simpl. tauto.
Qed.

Lemma explanationsFor_returns key (l : list t) :
  Forall (fun w => truthyPrimitive (value w) = false) l ->
  explanationsFor key l = Returns (candidates key l).
Proof.
  induction 1 as [|w l Hw Hl IH]; simpl; [reflexivity|].
  rewrite IH. unfold contribution, truthyPrimitive in *.
  destruct (value w) as [| |b|n|s|o|o]; simpl in *;
    try rewrite andb_true_r in Hw; try rewrite Hw; simpl; try reflexivity;
    destruct (prop_in key o); reflexivity.
Qed.

Lemma explanationsFor_throws key (l : list t) :
  Exists (fun w => truthyPrimitive (value w) = true) l ->
  explanationsFor key l = Throws TypeError.
Proof.
  induction l as [|w l IH]; intros H; [inversion H|]. simpl.
  destruct (truthyPrimitive (value w)) eqn:E.
  - unfold truthyPrimitive in E. apply andb_prop in E. destruct E as [E1 E2].
    rewrite E1. destruct (value w); simpl in *; try discriminate; reflexivity.
  - inversion H as [? ? H'|? ? H']; subst; [congruence|].
    rewrite (IH H'). unfold truthyPrimitive in E.
    destruct (value w); simpl in *;
      try rewrite andb_true_r in E; try rewrite E; reflexivity.
Qed.

Lemma all_or_some_primitive (l : list t) :
  Forall (fun w => truthyPrimitive (value w) = false) l \/
  Exists (fun w => truthyPrimitive (value w) = true) l.
Proof.
  induction l as [|w l [IH|IH]]; auto.
  destruct (truthyPrimitive (value w)) eqn:E; auto.
Qed.

Lemma mergeKeys_closed (l : list t) :
  Forall (fun w => truthyPrimitive (value w) = false) l ->
  forall allKeys mergedValue allExplanations,
    NoDup allKeys ->
    (forall k, In k allKeys -> ~ In k (keysOf mergedValue)) ->
    (forall k, In k allKeys -> ~ In k (keysOf allExplanations)) ->
    mergeKeys l allKeys mergedValue allExplanations =
    Returns (new (VObj (mergedValue ++ flat_map (valueEntry l) allKeys))
                 (allExplanations ++ flat_map (ledgerEntry l) allKeys)).
Proof.
  intros Hok. induction allKeys as [|key ks IH]; simpl; intros mv ae Hnd Hmv Hae.
  - now rewrite !app_nil_r.
  - rewrite (explanationsFor_returns key Hok). simpl.
    inversion Hnd as [|? ? Hk Hks]; subst.
    unfold valueEntry at 1, ledgerEntry at 1. fold (ranked key l).
    destruct (ranked key l) as [|first others].
    + simpl. apply IH; auto.
    + assert (Hfresh : prop_in key mv = false).
      { destruct (prop_in key mv) eqn:E; [|reflexivity].
        apply prop_in_keys in E. destruct (Hmv key (or_introl eq_refl) E). }
      unfold object_set. rewrite Hfresh, andb_true_r.
      rewrite (@prop_set_fresh _ ae) by auto.
      destruct (String.eqb key "__proto__").
      * rewrite IH; auto.
        -- simpl. now rewrite <- !app_assoc.
        -- intros k Hin. rewrite keysOf_app, in_app_iff. simpl.
           intros [H|[H|[]]]; [eapply Hae; eauto | congruence].
      * rewrite (@prop_set_fresh _ mv) by auto. rewrite IH; auto.
        -- simpl. now rewrite <- !app_assoc.
        -- intros k Hin. rewrite keysOf_app, in_app_iff. simpl.
           intros [H|[H|[]]]; [eapply Hmv; eauto | congruence].
        -- intros k Hin. rewrite keysOf_app, in_app_iff. simpl.
           intros [H|[H|[]]]; [eapply Hae; eauto | congruence].
Qed.

(** [merge] either throws the [TypeError] of [in], or returns the closed
    form. *)
Lemma merge_closed (l : list t) :
  Forall (fun w => truthyPrimitive (value w) = false) l ->
  merge l = Returns (mergeClosedForm l).
Proof.
  intros Hok. unfold merge.
  rewrite (mergeKeys_closed Hok); auto using collectKeys_NoDup.
Qed.

Lemma merge_throws (l : list t) :
  Exists (fun w => truthyPrimitive (value w) = true) l ->
  collectKeys l <> [] ->
  merge l = Throws TypeError.
Proof.
  intros Hex Hk. unfold merge.
  destruct (collectKeys l) as [|key ks]; [congruence|]. simpl.
  now rewrite (explanationsFor_throws key Hex).
Qed.

Lemma merge_returns_inv (l : list t) merged :
  merge l = Returns merged -> merged = mergeClosedForm l.
Proof.
  intros H. destruct (all_or_some_primitive l) as [Hok|Hex].
  - rewrite (merge_closed Hok) in H. congruence.
  - destruct (collectKeys l) as [|key ks] eqn:E.
    + unfold merge in H. rewrite E in H. simpl in H.
      unfold mergeClosedForm. rewrite E. simpl. congruence.
    + rewrite merge_throws in H; [discriminate | exact Hex | congruence].
Qed.

(** Reading the closed form at one path. *)
Lemma ledger_lookup (l : list t) keys path exps :
  prop_get path (flat_map (ledgerEntry l) keys) = Some exps ->
  In path keys /\
  exists first others,
    ranked path l = first :: others /\ exps = markWon first :: others.
Proof.
  induction keys as [|k ks IH]; simpl; [discriminate|].
  unfold ledgerEntry at 1. destruct (ranked k l) as [|first others] eqn:E.
  - simpl. intros H. destruct (IH H) as [? ?]. auto.
  - simpl. destruct (String.eqb path k) eqn:Ek.
    + apply String.eqb_eq in Ek. subst k. intros [= <-].
      split; [now left | eauto].
    + intros H. destruct (IH H) as [? ?]. auto.
Qed.

Lemma value_lookup (l : list t) keys path first others :
  path <> "__proto__" ->
  In path keys -> ranked path l = first :: others ->
  prop_get path (flat_map (valueEntry l) keys) = Some (exp_value first).
Proof.
  intros Hp Hin Hr. induction keys as [|k ks IH]; simpl; [destruct Hin|].
  unfold valueEntry at 1. destruct (ranked k l) as [|f o] eqn:E.
  - simpl. destruct Hin as [->|Hin]; [congruence | auto].
  - destruct (String.eqb k "__proto__") eqn:Ep; simpl.
    + apply String.eqb_eq in Ep. destruct Hin as [->|Hin]; [congruence | auto].
    + destruct (String.eqb path k) eqn:Ek.
      * apply String.eqb_eq in Ek. subst k. congruence.
      * apply String.eqb_neq in Ek.
        destruct Hin as [->|Hin]; [congruence | auto].
Qed.

Lemma value_keys (l : list t) keys path :
  In path (keysOf (flat_map (valueEntry l) keys)) <->
  In path keys /\ ranked path l <> [] /\ path <> "__proto__".
Proof.
  induction keys as [|k ks IH]; simpl; [tauto|].
  rewrite keysOf_app, in_app_iff, IH. unfold valueEntry.
  destruct (ranked k l) as [|f o] eqn:E; simpl.
  - split.
    + intros [[]|[H1 H2]]; auto.
    + intros [[->|H1] [H2 H3]]; [congruence | auto].
  - destruct (String.eqb k "__proto__") eqn:Ep; simpl.
    + apply String.eqb_eq in Ep. split.
      * intros [[]|[H1 H2]]; auto.
      * intros [[->|H1] [H2 H3]]; [congruence | auto].
    + apply String.eqb_neq in Ep. split.
      * intros [[<-|[]]|[H1 H2]]; [|auto].
        split; [auto|]. split; congruence.
      * intros [[->|H1] H2]; auto.
Qed.

(** The merged value never has a property [__proto__]. *)
Lemma value_proto (l : list t) keys :
  prop_get "__proto__" (flat_map (valueEntry l) keys) = None.
Proof.
  apply prop_get_none. rewrite value_keys. intros [_ [_ H]]. now apply H.
Qed.

(** The field that the merge leaves at the path of a ledger entry. *)
Lemma value_found (l : list t) keys path first others :
  In path keys -> ranked path l = first :: others ->
  prop_get path (flat_map (valueEntry l) keys)
  = if String.eqb path "__proto__" then None else Some (exp_value first).
Proof.
  intros Hin Hr. destruct (String.eqb path "__proto__") eqn:Ep.
  - apply String.eqb_eq in Ep. subst path. apply value_proto.
  - apply String.eqb_neq in Ep. eapply value_lookup; eauto.
Qed.

Lemma candidates_not_won key (l : list t) :
  Forall (fun e => won e = false) (candidates key l).
Proof.
  unfold candidates. apply Forall_forall. intros e He.
  apply in_flat_map in He. destruct He as [w [_ He]].
  unfold contribution in He.
  destruct (_ && _); [|destruct He].
  destruct (explain w None false); [destruct He|].
  destruct He as [<-|[]]. reflexivity.
Qed.

Lemma ranked_perm key (l : list t) :
  Permutation (ranked key l) (candidates key l).
Proof. apply arraySort_perm. Qed.

Lemma ranked_not_won key (l : list t) :
  Forall (fun e => won e = false) (ranked key l).
Proof.
  apply Forall_forall. intros e He.
  apply (Permutation_in e (ranked_perm key l)) in He.
  revert e He. apply Forall_forall, candidates_not_won.
Qed.

Lemma filter_won_losers (l : list Explanation) :
  Forall (fun e => won e = false) l -> filter won l = [].
Proof.
  induction 1 as [|e l He Hl IH]; simpl; [reflexivity|]. now rewrite He.
Qed.
End MergeFacts.

(** C1, amended: after a merge, every path recorded in the ledger has
    exactly one Explanation with [won = true], and the value of that
    Explanation is the field of the merged value at that path, for every
    path but [__proto__]: the merged value never has a field of that
    name, whatever the ledger records for it. *)
Theorem merge_single_winner :
  forall (explaineds : list Explained.t) (merged : Explained.t)
         (path : string) (exps : list Explanation),
    Explained.merge explaineds = Returns merged ->
    prop_get path (Explained.explanations merged) = Some exps ->
    exists winner,
      filter won exps = [winner] /\
      In winner exps /\
      field (Explained.value merged) path
      = if String.eqb path "__proto__" then None
        else Some (exp_value winner).
Proof.
  intros l merged path exps Hm Hp.
  apply merge_returns_inv in Hm. subst merged. simpl in *.
  apply ledger_lookup in Hp. destruct Hp as [Hin [first [others [Hr ->]]]].
  exists (Explained.markWon first). simpl. split; [|split].
  - f_equal. apply filter_won_losers.
    pose proof (ranked_not_won path l) as H. rewrite Hr in H. now inversion H.
  - now left.
  - eapply value_found; eauto.
Qed.

(** The spec's sentence fails on a source with an own property
    [__proto__]: the ledger has a winner for that path, the merged value
    has no such field. *)
Lemma merge_proto_counterexample :
  exists merged winner,
    Explained.merge [Scenario.polluted] = Returns merged /\
    prop_get "__proto__" (Explained.explanations merged) = Some [winner] /\
    won winner = true /\ exp_value winner = VNum 5 /\
    field (Explained.value merged) "__proto__" = None /\
    field (Explained.value merged) "x" = Some (VNum 2).
Proof. do 2 eexists. repeat split; reflexivity. Qed.

Lemma merge_single_winner_witness :
  Explained.merge [Scenario.defaults; Scenario.env; Scenario.cli]
  = Returns Scenario.merged /\
  prop_get "port" (Explained.explanations Scenario.merged)
  = Some Scenario.portLedger /\
  exists winner,
    filter won Scenario.portLedger = [winner] /\
    In winner Scenario.portLedger /\
    field (Explained.value Scenario.merged) "port" = Some (exp_value winner).
Proof.
  split; [reflexivity|]. split; [reflexivity|].
  apply (@merge_single_winner
           [Scenario.defaults; Scenario.env; Scenario.cli]
           Scenario.merged "port");
    reflexivity.
Defined.

(** ** The comparator of [merge] *)

Lemma compareExplanations_le (a b : Explanation) :
  (Explained.compareExplanations a b <= 0)%Z <->
  (precedence b < precedence a)%Z \/
  (precedence b = precedence a /\ (timestamp a <= timestamp b)%Z).
Proof.
  unfold Explained.compareExplanations.
  destruct (precedence b =? precedence a)%Z eqn:E; simpl.
  - apply Z.eqb_eq in E. lia.
  - apply Z.eqb_neq in E. lia.
Qed.

Lemma compareExplanations_total (a b : Explanation) :
  (Explained.compareExplanations a b <= 0)%Z \/
  (Explained.compareExplanations b a <= 0)%Z.
Proof. rewrite !compareExplanations_le. lia. Qed.

Lemma compareExplanations_trans (a b c : Explanation) :
  (Explained.compareExplanations a b <= 0)%Z ->
  (Explained.compareExplanations b c <= 0)%Z ->
  (Explained.compareExplanations a c <= 0)%Z.
Proof. rewrite !compareExplanations_le. lia. Qed.

(** The head of the ranked candidates has the highest precedence. *)
Lemma ranked_head_highest key (l : list Explained.t) first others :
  ranked key l = first :: others ->
  forall e, In e (first :: others) -> (precedence e <= precedence first)%Z.
Proof.
  intros Hr e He.
  pose proof (arraySort_sorted Explained.compareExplanations
                compareExplanations_total compareExplanations_trans
                (candidates key l)) as Hs.
  fold (ranked key l) in Hs. rewrite Hr in Hs.
  apply StronglySorted_inv in Hs. destruct Hs as [_ Hall].
  destruct He as [<-|He]; [lia|].
  rewrite Forall_forall in Hall. specialize (Hall e He).
  apply compareExplanations_le in Hall. lia.
Qed.

Lemma candidates_perm key (l l' : list Explained.t) :
  Permutation l l' -> Permutation (candidates key l) (candidates key l').
Proof. apply Permutation_flat_map. Qed.

Lemma collectKeys_perm (l l' : list Explained.t) key :
  Permutation l l' ->
  In key (Explained.collectKeys l) -> In key (Explained.collectKeys l').
Proof.
  intros Hp. rewrite !collectKeys_In. intros [w [Hw Hk]].
  exists w. split; [eapply Permutation_in; eauto | exact Hk].
Qed.

Lemma ledger_found (l : list Explained.t) keys path first others :
  In path keys -> ranked path l = first :: others ->
  prop_get path (flat_map (ledgerEntry l) keys)
  = Some (Explained.markWon first :: others).
Proof.
  intros Hin Hr. induction keys as [|k ks IH]; simpl; [destruct Hin|].
  unfold ledgerEntry at 1. destruct (ranked k l) as [|f o] eqn:E.
  - simpl. destruct Hin as [->|Hin]; [congruence | auto].
  - simpl. destruct (String.eqb path k) eqn:Ek.
    + apply String.eqb_eq in Ek. subst k. congruence.
    + apply String.eqb_neq in Ek. destruct Hin as [->|Hin]; [congruence | auto].
Qed.

(** C2 as stated fails on the scenario of three sources: [env] has strictly
    higher precedence than [defaults] and both compete for [port], yet
    [env] is not the winner and its value is not the merged field. *)
Lemma precedence_pair_counterexample :
  Explained.merge [Scenario.defaults; Scenario.env; Scenario.cli]
  = Returns Scenario.merged /\
  prop_get "port" (Explained.explanations Scenario.merged)
  = Some Scenario.portLedger /\
  In Scenario.envPort Scenario.portLedger /\
  In Scenario.defaultsPort Scenario.portLedger /\
  (precedence Scenario.defaultsPort < precedence Scenario.envPort)%Z /\
  won Scenario.envPort = false /\
  field (Explained.value Scenario.merged) "port"
  <> Some (exp_value Scenario.envPort).
Proof.
  simpl. repeat split; auto; try discriminate.
Qed.

(** C2, amended: the winner of a field is the recorded Explanation of
    highest precedence, and its value is the merged field (for every path
    but [__proto__], which is never a field of the merged value), so in a
    pair of competitors the one of strictly lower precedence never wins;
    and this does not depend on the order of the sources: after any
    reordering the winner has the same precedence, and is the same
    Explanation when one competitor is strictly above all the others. *)
Theorem merge_highest_precedence_wins :
  forall (explaineds : list Explained.t) (merged : Explained.t)
         (path : string) (exps : list Explanation),
    Explained.merge explaineds = Returns merged ->
    prop_get path (Explained.explanations merged) = Some exps ->
    exists winner,
      filter won exps = [winner] /\
      field (Explained.value merged) path
      = (if String.eqb path "__proto__" then None
         else Some (exp_value winner)) /\
      (forall e, In e exps -> (precedence e <= precedence winner)%Z) /\
      (forall e1 e2, In e1 exps -> In e2 exps ->
                     (precedence e2 < precedence e1)%Z -> won e2 = false) /\
      (forall explaineds' merged',
          Permutation explaineds explaineds' ->
          Explained.merge explaineds' = Returns merged' ->
          exists exps' winner',
            prop_get path (Explained.explanations merged') = Some exps' /\
            filter won exps' = [winner'] /\
            field (Explained.value merged') path
            = (if String.eqb path "__proto__" then None
               else Some (exp_value winner')) /\
            precedence winner' = precedence winner /\
            ((forall e, In e exps -> e <> winner ->
                        (precedence e < precedence winner)%Z) ->
             winner' = winner)).
Proof.
  intros l merged path exps Hm Hp.
  apply merge_returns_inv in Hm. subst merged. simpl in *.
  apply ledger_lookup in Hp. destruct Hp as [Hin [first [others [Hr ->]]]].
  pose proof (ranked_not_won path l) as Hnw. rewrite Hr in Hnw.
  apply Forall_cons_iff in Hnw. destruct Hnw as [Hfirst Hothers].
  pose proof (ranked_head_highest _ _ Hr) as Hmax.
  exists (Explained.markWon first). simpl.
  split; [|split; [|split; [|split]]].
  - f_equal. now apply filter_won_losers.
  - eapply value_found; eauto.
  - intros e [<-|He]; [simpl; lia | apply Hmax; now right].
  - intros e1 e2 He1 [<-|He2] Hlt.
    + exfalso. simpl in Hlt.
      assert (precedence e1 <= precedence first)%Z; [|lia].
      destruct He1 as [<-|He1]; [simpl; lia | apply Hmax; now right].
    + rewrite Forall_forall in Hothers. auto.
  - intros l' merged' Hperm Hm'.
    apply merge_returns_inv in Hm'. subst merged'. simpl.
    assert (Hcp : Permutation (ranked path l) (ranked path l')).
    { rewrite (ranked_perm path l), (ranked_perm path l').
      now apply candidates_perm. }
    destruct (ranked path l') as [|first' others'] eqn:Hr'.
    { rewrite Hr in Hcp. apply Permutation_sym, Permutation_nil in Hcp.
      discriminate. }
    assert (Hin' : In path (Explained.collectKeys l'))
      by (eapply collectKeys_perm; eauto).
    pose proof (ranked_not_won path l') as Hnw'. rewrite Hr' in Hnw'.
    apply Forall_cons_iff in Hnw'. destruct Hnw' as [Hfirst' Hothers'].
    pose proof (ranked_head_highest _ _ Hr') as Hmax'.
    rewrite Hr in Hcp.
    assert (H1 : In first (first' :: others'))
      by (eapply Permutation_in; [exact Hcp | now left]).
    assert (H2 : In first' (first :: others))
      by (eapply Permutation_in; [symmetry; exact Hcp | now left]).
    assert (Heq : precedence first' = precedence first).
    { apply Hmax' in H1. apply Hmax in H2. lia. }
    exists (Explained.markWon first' :: others'), (Explained.markWon first').
    split; [eapply ledger_found; eauto|].
    split; [simpl; f_equal; now apply filter_won_losers|].
    split; [simpl; eapply value_found; eauto|].
    split; [exact Heq|].
    intros Huniq. destruct H2 as [->|H2]; [reflexivity|].
    exfalso. specialize (Huniq first' (or_intror H2)). simpl in Huniq.
    assert (Hne : first' <> Explained.markWon first).
    { intros ->. simpl in Hfirst'. discriminate. }
    specialize (Huniq Hne). lia.
Qed.

Lemma merge_highest_precedence_wins_witness :
  Explained.merge [Scenario.defaults; Scenario.env; Scenario.cli]
  = Returns Scenario.merged /\
  prop_get "port" (Explained.explanations Scenario.merged)
  = Some Scenario.portLedger /\
  exists winner,
    filter won Scenario.portLedger = [winner] /\
    field (Explained.value Scenario.merged) "port" = Some (exp_value winner) /\
    (forall e, In e Scenario.portLedger ->
               (precedence e <= precedence winner)%Z) /\
    (forall e1 e2, In e1 Scenario.portLedger -> In e2 Scenario.portLedger ->
                   (precedence e2 < precedence e1)%Z -> won e2 = false) /\
    (forall explaineds' merged',
        Permutation [Scenario.defaults; Scenario.env; Scenario.cli] explaineds' ->
        Explained.merge explaineds' = Returns merged' ->
        exists exps' winner',
          prop_get "port" (Explained.explanations merged') = Some exps' /\
          filter won exps' = [winner'] /\
          field (Explained.value merged') "port" = Some (exp_value winner') /\
          precedence winner' = precedence winner /\
          ((forall e, In e Scenario.portLedger -> e <> winner ->
                      (precedence e < precedence winner)%Z) ->
           winner' = winner)).
Proof.
  split; [reflexivity|]. split; [reflexivity|].
  apply (@merge_highest_precedence_wins
           [Scenario.defaults; Scenario.env; Scenario.cli]
           Scenario.merged "port" Scenario.portLedger);
    reflexivity.
Defined.

(** ** Stability of the sort *)

Section ArraySortStability.
Context {A : Type}.
Implicit Types (compareFn : A -> A -> Z) (l : list A).

Lemma insertSorted_filter compareFn (P : A -> bool) a l :
  (forall b, In b l -> P a = true -> P b = true -> (compareFn a b <= 0)%Z) ->
  filter P (insertSorted compareFn a l)
  = if P a then a :: filter P l else filter P l.
Proof.
  induction l as [|b l IH]; intros H; simpl; [reflexivity|].
  destruct (compareFn a b <=? 0)%Z eqn:E; simpl; [reflexivity|].
  rewrite IH by (intros; apply H; simpl; auto).
  destruct (P a) eqn:Pa, (P b) eqn:Pb; try reflexivity.
  apply Z.leb_gt in E. specialize (H b (or_introl eq_refl) eq_refl Pb). lia.
Qed.

(** Elements of one class that are already in order among themselves
    keep their relative order. *)
Lemma arraySort_stable compareFn (P : A -> bool) l :
  StronglySorted
    (fun a b => P a = true -> P b = true -> (compareFn a b <= 0)%Z) l ->
  filter P (arraySort compareFn l) = filter P l.
Proof.
  induction 1 as [|a l Hl IH Ha]; simpl; [reflexivity|].
  rewrite insertSorted_filter.
  - now rewrite IH.
  - intros b Hb. apply (Permutation_in b (arraySort_perm compareFn l)) in Hb.
    rewrite Forall_forall in Ha. auto.
Qed.

Lemma insertSorted_ext compareFn compareFn' a l :
  (forall b, In b l ->
             (compareFn a b <=? 0)%Z = (compareFn' a b <=? 0)%Z) ->
  insertSorted compareFn a l = insertSorted compareFn' a l.
Proof.
  induction l as [|b l IH]; intros H; simpl; [reflexivity|].
  rewrite <- (H b) by now left.
  destruct (compareFn a b <=? 0)%Z; [reflexivity|].
  rewrite IH; [reflexivity | intros; apply H; now right].
Qed.

(** Two comparators that agree on every pair taken in list order sort the
    list alike. *)
Lemma arraySort_ext (R : A -> A -> Prop) compareFn compareFn' l :
  StronglySorted R l ->
  (forall a b, R a b ->
               (compareFn a b <=? 0)%Z = (compareFn' a b <=? 0)%Z) ->
  arraySort compareFn l = arraySort compareFn' l.
Proof.
  intros Hs Hagree. induction Hs as [|a l Hl IH Ha]; simpl; [reflexivity|].
  rewrite IH. apply insertSorted_ext. intros b Hb.
  apply (Permutation_in b (arraySort_perm compareFn' l)) in Hb.
  rewrite Forall_forall in Ha. auto.
Qed.

Lemma StronglySorted_app_tail (R : A -> A -> Prop) l1 x l2 :
  StronglySorted R (l1 ++ x :: l2) -> Forall (R x) l2.
Proof.
  induction l1 as [|a l1 IH]; simpl; intros H;
    apply StronglySorted_inv in H; destruct H as [H1 H2]; auto.
Qed.
End ArraySortStability.

Lemma arraySort_map {A B : Type} (f : A -> B) compareFn compareFn' (l : list A) :
  (forall a b, compareFn' (f a) (f b) = compareFn a b) ->
  map f (arraySort compareFn l) = arraySort compareFn' (map f l).
Proof.
  intros H. induction l as [|a l IH]; simpl; [reflexivity|].
  rewrite <- IH. generalize (arraySort compareFn l). intros s.
  induction s as [|b s IHs]; simpl; [reflexivity|].
  rewrite H. destruct (compareFn a b <=? 0)%Z; simpl; [reflexivity|].
  now rewrite IHs.
Qed.

(** ** Registration order *)

Section TieBreakFacts.
Import Explained.

Lemma contribution_root key (w : t) e :
  In e (contribution key w) ->
  exists r, rootOf w = [r] /\ e = candidate r (value w) key.
Proof.
  unfold contribution, rootOf.
  destruct (_ && _); [|intros []].
  destruct (explain w None false) as [|r rs]; [intros []|].
  intros [<-|[]]. eauto.
Qed.

Lemma candidates_root key (l : list t) e :
  In e (candidates key l) ->
  exists r, In r (flat_map rootOf l) /\ timestamp e = timestamp r.
Proof.
  unfold candidates. rewrite in_flat_map. intros [w [Hw He]].
  apply contribution_root in He. destruct He as [r [Hr ->]].
  exists r. split; [|reflexivity].
  apply in_flat_map. exists w. rewrite Hr. simpl. auto.
Qed.

Lemma candidates_recordedInOrder key (l : list t) :
  recordedInOrder l -> StronglySorted byTimestamp (candidates key l).
Proof.
  unfold recordedInOrder, candidates.
  induction l as [|w l IH]; simpl; intros H; [constructor|].
  assert (Hl : StronglySorted byTimestamp (flat_map rootOf l)).
  { unfold rootOf in H. destruct (explain w None false); simpl in H; auto.
    now apply StronglySorted_inv in H. }
  specialize (IH Hl).
  destruct (contribution key w) as [|e es] eqn:E; [exact IH|].
  assert (He : In e (contribution key w)) by (rewrite E; now left).
  apply contribution_root in He. destruct He as [r [Hr ->]].
  assert (es = []) as ->.
  { unfold contribution in E. destruct (_ && _); [|discriminate].
    destruct (explain w None false); [discriminate|]. congruence. }
  simpl. constructor; [exact IH|].
  rewrite Hr in H. simpl in H. apply StronglySorted_inv in H.
  destruct H as [_ H]. rewrite Forall_forall in *. intros e He.
  apply candidates_root in He. destruct He as [r' [Hr' Hts]].
  unfold byTimestamp. simpl. rewrite Hts. apply (H r' Hr').
Qed.

(** With timestamps that follow registration order, the clock decides
    nothing: the candidates are ranked as a stable sort by precedence
    alone ranks them. *)
Lemma ranked_by_precedence key (l : list t) :
  recordedInOrder l ->
  ranked key l = arraySort comparePrecedence (candidates key l).
Proof.
  intros H. unfold ranked.
  apply arraySort_ext with (R := byTimestamp).
  - now apply candidates_recordedInOrder.
  - intros a b Hab. unfold compareExplanations, comparePrecedence, byTimestamp in *.
    destruct (precedence b =? precedence a)%Z eqn:E; simpl; [|reflexivity].
    apply Z.eqb_eq in E.
    transitivity true; [|symmetry]; apply Z.leb_le; lia.
Qed.

Lemma ranked_stable key (l : list t) p :
  recordedInOrder l ->
  filter (hasPrecedence p) (ranked key l)
  = filter (hasPrecedence p) (candidates key l).
Proof.
  intros H. rewrite (ranked_by_precedence key H).
  apply arraySort_stable.
  generalize (candidates key l). intros c.
  induction c as [|a c IH]; constructor; auto.
  apply Forall_forall. intros b _ Ha Hb.
  unfold hasPrecedence, comparePrecedence in *.
  apply Z.eqb_eq in Ha, Hb. lia.
Qed.

(** Erasing the clock readings of the sources erases those of their
    candidates. *)
Lemma prop_get_eraseLedger k ledger :
  prop_get k (eraseLedger ledger)
  = option_map (map eraseTimestamp) (prop_get k ledger).
Proof.
  induction ledger as [|[k' v] ledger IH]; simpl; [reflexivity|].
  destruct (String.eqb k k'); [reflexivity | exact IH].
Qed.

Lemma contribution_eraseClock key (w : t) :
  contribution key (eraseClock w) = map eraseTimestamp (contribution key w).
Proof.
  unfold contribution, explain. simpl.
  destruct (_ && _); [|reflexivity].
  rewrite prop_get_eraseLedger.
  destruct (prop_get "__root__" (explanations w)) as [[|r rs]|]; reflexivity.
Qed.

Lemma candidates_eraseClock key (l : list t) :
  candidates key (map eraseClock l) = map eraseTimestamp (candidates key l).
Proof.
  unfold candidates. induction l as [|w l IH]; simpl; [reflexivity|].
  now rewrite map_app, IH, contribution_eraseClock.
Qed.

Lemma ranked_erased key (l : list t) :
  recordedInOrder l ->
  map eraseTimestamp (ranked key l)
  = arraySort comparePrecedence (candidates key (map eraseClock l)).
Proof.
  intros H. rewrite (ranked_by_precedence key H), candidates_eraseClock.
  apply arraySort_map. reflexivity.
Qed.

Lemma collectKeys_values (l l' : list t) :
  map value l = map value l' -> collectKeys l = collectKeys l'.
Proof.
  unfold collectKeys. generalize (@nil string).
  revert l'. induction l as [|w l IH]; intros [|w' l'] acc H;
    try discriminate; [reflexivity|].
  simpl in *. injection H as Hv Hl. rewrite Hv. now apply IH.
Qed.

Lemma eraseClock_values (l l' : list t) :
  map eraseClock l = map eraseClock l' -> map value l = map value l'.
Proof.
  intros H. apply (f_equal (map value)) in H.
  rewrite !map_map in H. exact H.
Qed.
End TieBreakFacts.

Lemma contribution_collected key (l : list Explained.t) s c :
  In s l -> contribution key s = [c] -> In key (Explained.collectKeys l).
Proof.
  intros Hs Hc. apply collectKeys_In. exists s. split; [exact Hs|].
  unfold contribution in Hc.
  destruct (Explained.value s) as [| | | | |o|o]; simpl in *; try discriminate;
    apply prop_in_keys; destruct (prop_in key o); [reflexivity | discriminate
                                                  | reflexivity | discriminate].
Qed.

Lemma valueEntry_erased (l l' : list Explained.t) key :
  map eraseTimestamp (ranked key l) = map eraseTimestamp (ranked key l') ->
  valueEntry l key = valueEntry l' key.
Proof.
  unfold valueEntry.
  destruct (ranked key l) as [|f o], (ranked key l') as [|f' o'];
    simpl; intros H; try discriminate; [reflexivity|].
  injection H as _ Hv _. now rewrite Hv.
Qed.

Lemma ledgerEntry_erased (l l' : list Explained.t) key :
  map eraseTimestamp (ranked key l) = map eraseTimestamp (ranked key l') ->
  eraseLedger (ledgerEntry l key) = eraseLedger (ledgerEntry l' key).
Proof.
  unfold ledgerEntry.
  destruct (ranked key l) as [|f o], (ranked key l') as [|f' o'];
    simpl; intros H; try discriminate; [reflexivity|].
  injection H as Hs Hv Hr Hp Hl _ Ho. unfold eraseLedger. simpl. rewrite Ho.
  unfold eraseTimestamp, Explained.markWon. simpl.
  now rewrite Hs, Hv, Hr, Hp, Hl.
Qed.

(** With timestamps in registration order, a candidate strictly above all
    those recorded before it and not below any recorded after it heads the
    ranking. *)
Lemma ranked_first_at_top (before after : list Explained.t) s key c :
  recordedInOrder (before ++ s :: after) ->
  contribution key s = [c] ->
  (forall c', In c' (candidates key before) ->
              (precedence c' < precedence c)%Z) ->
  (forall c', In c' (candidates key after) ->
              (precedence c' <= precedence c)%Z) ->
  exists tl, ranked key (before ++ s :: after) = c :: tl.
Proof.
  intros Hord Hc Hbefore Hafter.
  assert (Hsplit : candidates key (before ++ s :: after)
                   = candidates key before ++ c :: candidates key after).
  { unfold candidates. rewrite flat_map_app. simpl. now rewrite Hc. }
  pose proof (candidates_recordedInOrder key Hord) as Hts.
  rewrite Hsplit in Hts. apply StronglySorted_app_tail in Hts.
  rewrite Forall_forall in Hts.
  destruct (arraySort_head Explained.compareExplanations
              (candidates key before) c (candidates key after)) as [tl Htl].
  - intros y Hy. specialize (Hbefore y Hy).
    pose proof (compareExplanations_le y c). lia.
  - intros y Hy. apply compareExplanations_le.
    specialize (Hafter y Hy). specialize (Hts y Hy).
    unfold byTimestamp in Hts. lia.
  - exists tl. unfold ranked. now rewrite Hsplit.
Qed.

(** ** The rank order of a ledger entry *)

Lemma precedes_ranksBefore (a b : Explanation) :
  precedes Explained.compareExplanations a b <-> ranksBefore a b.
Proof. unfold precedes, ranksBefore. apply compareExplanations_le. Qed.

Lemma ranked_sorted key (l : list Explained.t) :
  StronglySorted ranksBefore (ranked key l).
Proof.
  unfold ranked.
  assert (H : StronglySorted (precedes Explained.compareExplanations)
                             (arraySort Explained.compareExplanations
                                        (candidates key l))).
  { apply arraySort_sorted.
    - exact compareExplanations_total.
    - exact compareExplanations_trans. }
  induction H as [|a s Hs IH Ha]; constructor; [exact IH|].
  eapply Forall_impl; [|exact Ha].
  intros b. apply precedes_ranksBefore.
Qed.

(** Candidates that the comparator cannot tell apart keep the order in
    which the sources were supplied. *)
Lemma ranked_ties key (l : list Explained.t) p ts :
  filter (sameRank p ts) (ranked key l)
  = filter (sameRank p ts) (candidates key l).
Proof.
  unfold ranked. apply arraySort_stable.
  generalize (candidates key l). intros cs.
  induction cs as [|a cs IH]; constructor; [exact IH|].
  apply Forall_forall. intros b _ Ha Hb.
  unfold sameRank in Ha, Hb.
  apply andb_prop in Ha. destruct Ha as [Ha1 Ha2].
  apply andb_prop in Hb. destruct Hb as [Hb1 Hb2].
  apply Z.eqb_eq in Ha1, Ha2, Hb1, Hb2.
  apply compareExplanations_le. lia.
Qed.

(** The order of every ledger entry of a merge result. *)
Lemma merge_rank_order :
  forall (explaineds : list Explained.t) (merged : Explained.t)
         (key : string) (exps : list Explanation),
    Explained.merge explaineds = Returns merged ->
    prop_get key (Explained.explanations merged) = Some exps ->
    StronglySorted ranksBefore exps /\
    (Forall notArray explaineds -> inheritedName key = false ->
     exists first others,
       exps = Explained.markWon first :: others /\
       forall p ts, filter (sameRank p ts) (first :: others)
                    = filter (sameRank p ts) (candidates key explaineds)).
Proof.
  intros l merged key exps Hm Hp.
  apply merge_returns_inv in Hm. subst merged. simpl in Hp.
  apply ledger_lookup in Hp. destruct Hp as [_ [first [others [Hr ->]]]].
  split.
  - assert (Hs := ranked_sorted key l). rewrite Hr in Hs.
    inversion Hs as [|? ? Hs' Hf]; subst.
    constructor; [exact Hs'|].
    eapply Forall_impl; [|exact Hf]. intros b Hb. exact Hb.
  - intros _ _. exists first, others. split; [reflexivity|].
    intros p ts. rewrite <- Hr. apply ranked_ties.
Qed.

(** What the order of supply decides in a merge whose sources carry
    timestamps that never decrease along it: ties keep that order in
    every ledger entry, the first among the highest wins, and the clock
    readings themselves change nothing.  Where the statement names the
    candidates, the field is one that no object inherits and no source is
    an array, so that [key in value] holds of the sources that have the
    field and of no other. *)
Lemma merge_registration_order :
  forall (explaineds : list Explained.t) (merged : Explained.t),
    recordedInOrder explaineds ->
    Explained.merge explaineds = Returns merged ->
    (forall key exps,
        Forall notArray explaineds -> inheritedName key = false ->
        prop_get key (Explained.explanations merged) = Some exps ->
        exists first others,
          exps = Explained.markWon first :: others /\
          forall p, filter (hasPrecedence p) (first :: others)
                    = filter (hasPrecedence p) (candidates key explaineds)) /\
    (forall before s after key c,
        Forall notArray explaineds -> inheritedName key = false ->
        explaineds = before ++ s :: after ->
        contribution key s = [c] ->
        (forall c', In c' (candidates key before) ->
                    (precedence c' < precedence c)%Z) ->
        (forall c', In c' (candidates key after) ->
                    (precedence c' <= precedence c)%Z) ->
        exists others,
          prop_get key (Explained.explanations merged)
          = Some (Explained.markWon c :: others) /\
          field (Explained.value merged) key = Some (exp_value c)) /\
    (forall explaineds' merged',
        map eraseClock explaineds' = map eraseClock explaineds ->
        recordedInOrder explaineds' ->
        Explained.merge explaineds' = Returns merged' ->
        Explained.value merged' = Explained.value merged /\
        eraseLedger (Explained.explanations merged')
        = eraseLedger (Explained.explanations merged)).
Proof.
  intros l merged Hord Hm.
  apply merge_returns_inv in Hm. subst merged. simpl.
  split; [|split].
  - intros key exps _ _ Hp.
    apply ledger_lookup in Hp. destruct Hp as [_ [first [others [Hr ->]]]].
    exists first, others. split; [reflexivity|].
    intros p. rewrite <- (ranked_stable key p Hord), Hr. reflexivity.
  - intros before s after key c _ Hplain -> Hc Hbefore Hafter.
    apply inheritedName_proto in Hplain.
    assert (Hin : In key (Explained.collectKeys (before ++ s :: after))).
    { eapply contribution_collected; [|exact Hc].
      apply in_or_app. right. now left. }
    destruct (ranked_first_at_top before after s key Hord Hc Hbefore Hafter)
      as [tl Htl].
    exists tl. split.
    + eapply ledger_found; eauto.
    + eapply value_lookup; eauto.
  - intros l' merged' Herase Hord' Hm'.
    apply merge_returns_inv in Hm'. subst merged'. simpl.
    assert (Hkeys : Explained.collectKeys l' = Explained.collectKeys l)
      by (apply collectKeys_values, eraseClock_values, Herase).
    assert (Hr : forall key, map eraseTimestamp (ranked key l')
                             = map eraseTimestamp (ranked key l)).
    { intros key. rewrite !ranked_erased by assumption. now rewrite Herase. }
    rewrite Hkeys. generalize (Explained.collectKeys l). intros keys. split.
    + f_equal. induction keys as [|k ks IH]; simpl; [reflexivity|].
      rewrite IH. f_equal. apply valueEntry_erased, Hr.
    + induction keys as [|k ks IH]; simpl; [reflexivity|].
      unfold eraseLedger in *. rewrite !map_app, IH. f_equal.
      apply ledgerEntry_erased, Hr.
Qed.

(** ** Which sources compete for a key *)

Section UnionFacts.
Import Explained.

Lemma ownsKey_objectKeys key (w : t) :
  ownsKey key w = true <-> In key (objectKeys (value w)).
Proof.
  unfold ownsKey, objectKeys.
  destruct (value w); simpl; try (split; [discriminate | tauto]);
    apply prop_in_keys.
Qed.

Lemma contribution_absent key (w : t) :
  ownsKey key w = false -> contribution key w = [].
Proof.
  unfold ownsKey, contribution.
  destruct (value w); simpl; try reflexivity; intros ->; reflexivity.
Qed.

Lemma contribution_present key (w : t) :
  taggedPartial w -> ownsKey key w = true ->
  exists r rs, explain w None false = r :: rs /\
               contribution key w = [candidate r (value w) key].
Proof.
  intros [Hobj Hroot] Hk. unfold rootOf in Hroot.
  destruct (explain w None false) as [|r rs] eqn:E; [congruence|].
  exists r, rs. split; [reflexivity|].
  unfold contribution, ownsKey in *. rewrite E.
  destruct (value w); simpl in *; try discriminate; now rewrite Hk.
Qed.

Lemma taggedPartial_not_primitive (l : list t) :
  Forall taggedPartial l ->
  Forall (fun w => truthyPrimitive (value w) = false) l.
Proof.
  apply Forall_impl. intros w [Hobj _]. now apply truthyPrimitive_object.
Qed.

Lemma candidates_length key (l : list t) :
  Forall taggedPartial l ->
  List.length (candidates key l) = List.length (filter (ownsKey key) l).
Proof.
  unfold candidates. induction 1 as [|w l Hw Hl IH]; simpl; [reflexivity|].
  rewrite length_app, IH. destruct (ownsKey key w) eqn:E.
  - destruct (contribution_present key Hw E) as [r [rs [_ ->]]]. reflexivity.
  - now rewrite contribution_absent.
Qed.

Lemma candidates_absent key (l : list t) :
  (forall w, In w l -> ~ In key (objectKeys (value w))) ->
  candidates key l = [].
Proof.
  unfold candidates. induction l as [|w l IH]; simpl; intros H; [reflexivity|].
  rewrite IH by auto. rewrite contribution_absent; [reflexivity|].
  destruct (ownsKey key w) eqn:E; [|reflexivity].
  apply ownsKey_objectKeys in E. exfalso. eapply H; eauto.
Qed.

Lemma ranked_nonempty key (l : list t) :
  Forall taggedPartial l -> In key (collectKeys l) -> ranked key l <> [].
Proof.
  intros Hl Hk Hr. apply arraySort_nil_inv in Hr.
  apply collectKeys_In in Hk. destruct Hk as [w [Hw Hk]].
  apply ownsKey_objectKeys in Hk.
  rewrite Forall_forall in Hl.
  destruct (contribution_present key (Hl w Hw) Hk) as [r [rs [_ Hc]]].
  assert (In (candidate r (value w) key) (candidates key l)).
  { apply in_flat_map. exists w. rewrite Hc. simpl. auto. }
  rewrite Hr in H. destruct H.
Qed.

Lemma value_keys_NoDup (l : list t) keys :
  NoDup keys -> NoDup (keysOf (flat_map (valueEntry l) keys)).
Proof.
  induction 1 as [|k ks Hk Hks IH]; simpl; [constructor|].
  rewrite keysOf_app. unfold valueEntry at 1.
  destruct (ranked k l); simpl; [exact IH|].
  destruct (String.eqb k "__proto__"); simpl; [exact IH|].
  constructor; [|exact IH].
  rewrite value_keys. tauto.
Qed.
End UnionFacts.

(** Merging provenance-tagged partial values: the keys of the result, the
    value of a key that one source has, and who competes for a key.  An
    own property named [__proto__] is never a key of the result; who
    competes is stated for a field that no object inherits and for
    sources that are not arrays, where [key in value] holds of the
    sources that have the field and of no other. *)
Lemma merge_tagged_union :
  forall explaineds : list Explained.t,
    Forall taggedPartial explaineds ->
    exists merged,
      Explained.merge explaineds = Returns merged /\
      (forall key,
          In key (objectKeys (Explained.value merged)) <->
          key <> "__proto__" /\
          exists s, In s explaineds /\ In key (objectKeys (Explained.value s))) /\
      NoDup (objectKeys (Explained.value merged)) /\
      (forall before s after key,
          Forall notArray explaineds -> inheritedName key = false ->
          explaineds = before ++ s :: after ->
          In key (objectKeys (Explained.value s)) ->
          (forall s', In s' (before ++ after) ->
                      ~ In key (objectKeys (Explained.value s'))) ->
          field (Explained.value merged) key = field (Explained.value s) key) /\
      (forall key exps,
          Forall notArray explaineds -> inheritedName key = false ->
          prop_get key (Explained.explanations merged) = Some exps ->
          List.length exps = List.length (filter (ownsKey key) explaineds) /\
          forall e, In e exps ->
            exists s r,
              In s explaineds /\ ownsKey key s = true /\ rootOf s = [r] /\
              field (Explained.value s) key = Some (exp_value e) /\
              source e = source r /\ precedence e = precedence r).
Proof.
  intros l Hl. exists (mergeClosedForm l).
  split; [apply merge_closed, taggedPartial_not_primitive, Hl|].
  simpl. split; [|split; [|split]].
  - intros key. rewrite value_keys, <- collectKeys_In. split.
    + intros [Hk [_ Hp]]. auto.
    + intros [Hp Hk]. split; [exact Hk|]. split; [|exact Hp].
      now apply ranked_nonempty.
  - apply value_keys_NoDup, collectKeys_NoDup.
  - intros before s after key _ Hproto -> Hk Hothers.
    apply inheritedName_proto in Hproto.
    assert (Hs : taggedPartial s).
    { rewrite Forall_forall in Hl. apply Hl, in_or_app. right. now left. }
    pose proof Hk as Hown. apply ownsKey_objectKeys in Hown.
    destruct (contribution_present key Hs Hown) as [r [rs [_ Hc]]].
    assert (Hr : ranked key (before ++ s :: after)
                 = [Explained.candidate r (Explained.value s) key]).
    { unfold ranked, candidates. rewrite flat_map_app. simpl.
      fold (candidates key before). fold (candidates key after).
      rewrite !candidates_absent, Hc; [reflexivity | |];
        intros w Hw; apply Hothers, in_or_app; auto. }
    erewrite value_lookup; [|exact Hproto
                           |apply collectKeys_In; exists s; split;
                             [apply in_or_app; right; now left | exact Hk]
                           |exact Hr].
    simpl. unfold ownsKey in Hown. unfold getProperty.
    destruct (Explained.value s); simpl in *; try discriminate;
      apply prop_in_get in Hown; destruct Hown as [v Hv]; now rewrite Hv.
  - intros key exps _ _ Hp.
    apply ledger_lookup in Hp. destruct Hp as [_ [first [others [Hr ->]]]].
    split.
    + rewrite <- (candidates_length key Hl).
      rewrite <- (Permutation_length (ranked_perm key l)), Hr. reflexivity.
    + intros e He.
      assert (Hc : exists c, In c (candidates key l) /\
                             exp_value e = exp_value c /\
                             source e = source c /\
                             precedence e = precedence c).
      { destruct He as [<-|He].
        - exists first. split; [|auto].
          apply (Permutation_in _ (ranked_perm key l)). rewrite Hr. now left.
        - exists e. split; [|auto].
          apply (Permutation_in _ (ranked_perm key l)). rewrite Hr. now right. }
      destruct Hc as [c [Hc [Hv [Hs Hp]]]].
      apply in_flat_map in Hc. destruct Hc as [s [Hin Hc]].
      destruct (ownsKey key s) eqn:Hown;
        [|rewrite contribution_absent in Hc by exact Hown; destruct Hc].
      pose proof Hc as Hc'. apply contribution_root in Hc'.
      destruct Hc' as [r [Hroot ->]].
      exists s, r. repeat split; auto.
      rewrite Hv. simpl. unfold ownsKey in Hown. unfold getProperty.
      destruct (Explained.value s); simpl in *; try discriminate;
        apply prop_in_get in Hown; destruct Hown as [v Hv']; now rewrite Hv'.
Qed.

(** ** Reading a merged wrapper path by path *)

Section LookupFacts.
Import Explained.

Lemma candidates_collected key (l : list t) :
  candidates key l <> [] -> In key (collectKeys l).
Proof.
  intros H. destruct (candidates key l) as [|c cs] eqn:E; [congruence|].
  assert (Hc : In c (candidates key l)) by (rewrite E; now left).
  apply in_flat_map in Hc. destruct Hc as [w [Hw Hc]].
  apply collectKeys_In. exists w. split; [exact Hw|].
  apply ownsKey_objectKeys. destruct (ownsKey key w) eqn:Ho; [reflexivity|].
  rewrite contribution_absent in Hc by exact Ho. destruct Hc.
Qed.

Lemma ranked_collected key (l : list t) :
  ranked key l <> [] -> In key (collectKeys l).
Proof.
  intros H. apply candidates_collected. intros Hc. apply H.
  unfold ranked. now rewrite Hc.
Qed.

Lemma closed_ledger_get (l : list t) path :
  prop_get path (explanations (mergeClosedForm l))
  = match ranked path l with
    | [] => None
    | first :: others => Some (markWon first :: others)
    end.
Proof.
  simpl. destruct (ranked path l) as [|first others] eqn:Hr.
  - destruct (prop_get path _) as [exps|] eqn:E; [|reflexivity].
    apply ledger_lookup in E. destruct E as [_ [f [o [Hf _]]]]. congruence.
  - eapply ledger_found; [|exact Hr]. apply ranked_collected. congruence.
Qed.

Lemma closed_value_get (l : list t) path :
  field (value (mergeClosedForm l)) path
  = if String.eqb path "__proto__" then None
    else match ranked path l with
         | [] => None
         | first :: _ => Some (exp_value first)
         end.
Proof.
  simpl. destruct (String.eqb path "__proto__") eqn:Ep.
  - apply String.eqb_eq in Ep. subst path. apply value_proto.
  - apply String.eqb_neq in Ep.
    destruct (ranked path l) as [|first others] eqn:Hr.
    + apply prop_get_none. rewrite value_keys. tauto.
    + eapply value_lookup; [exact Ep| |exact Hr].
      apply ranked_collected. congruence.
Qed.

Lemma mergeKeys_ext (l l' : list t) :
  (forall key, explanationsFor key l = explanationsFor key l') ->
  forall keys mv ae, mergeKeys l keys mv ae = mergeKeys l' keys mv ae.
Proof.
  intros H. induction keys as [|k ks IH]; intros mv ae; simpl; [reflexivity|].
  rewrite H. destruct (explanationsFor k l') as [c|e]; simpl; [|reflexivity].
  destruct (arraySort compareExplanations c); apply IH.
Qed.

Lemma collectKeys_skip (before after : list t) w :
  isNonNullObject (value w) = false ->
  collectKeys (before ++ w :: after) = collectKeys (before ++ after).
Proof.
  intros H. unfold collectKeys. rewrite !fold_left_app. simpl. now rewrite H.
Qed.

Lemma explanationsFor_skip key (before after : list t) w :
  truthy (value w) = false ->
  explanationsFor key (before ++ w :: after)
  = explanationsFor key (before ++ after).
Proof.
  intros H. induction before as [|b before IH]; simpl.
  - rewrite H. simpl. destruct (explanationsFor key after); reflexivity.
  - now rewrite IH.
Qed.

Lemma falsy_not_object v : truthy v = false -> isNonNullObject v = false.
Proof. destruct v; simpl; congruence. Qed.

Lemma candidates_skip key (before after : list t) w :
  rootOf w = [] ->
  candidates key (before ++ w :: after) = candidates key (before ++ after).
Proof.
  intros H. unfold candidates. rewrite !flat_map_app. simpl.
  replace (contribution key w) with (@nil Explanation); [reflexivity|].
  unfold contribution, rootOf in *.
  destruct (_ && _); [|reflexivity].
  destruct (explain w None false); [reflexivity | discriminate].
Qed.
End LookupFacts.

(** C10 as stated fails for a truthy primitive: with a source that has a
    key, [key in 42] throws. *)
Lemma merge_primitive_counterexample :
  isNonNullObject (Explained.value (Explained.new (VNum 42) [])) = false /\
  Explained.merge [Explained.new (VNum 42) []; Scenario.env]
  = Throws TypeError.
Proof. split; reflexivity. Qed.

(** C10, amended: an input whose value is falsy ([null], [undefined], [0],
    the empty string, [false]) changes nothing, whatever the other inputs
    are; an input that is an object without a root Explanation still
    hands its keys to the merge, but when none of them is a name that
    every object inherits, merged with inputs none of which is a truthy
    primitive or an array, it is no error and leaves every field and
    every ledger entry as they are without it. *)
Theorem merge_skips_unusable_inputs :
  forall (before after : list Explained.t) (w : Explained.t),
    (truthy (Explained.value w) = false ->
     Explained.merge (before ++ w :: after) = Explained.merge (before ++ after))
    /\
    (isNonNullObject (Explained.value w) = true ->
     rootOf w = [] ->
     Forall (fun s => truthyPrimitive (Explained.value s) = false)
            (before ++ after) ->
     Forall notArray (before ++ after) ->
     (forall key, In key (objectKeys (Explained.value w)) ->
                  inheritedName key = false) ->
     exists merged merged',
       Explained.merge (before ++ w :: after) = Returns merged /\
       Explained.merge (before ++ after) = Returns merged' /\
       forall path,
         prop_get path (Explained.explanations merged)
         = prop_get path (Explained.explanations merged') /\
         field (Explained.value merged) path
         = field (Explained.value merged') path).
Proof.
  intros before after w. split.
  - intros Hf. unfold Explained.merge.
    rewrite (collectKeys_skip before after w (falsy_not_object _ Hf)).
    apply mergeKeys_ext. intros key. now apply explanationsFor_skip.
  - intros Hobj Hroot Hothers _ _.
    exists (mergeClosedForm (before ++ w :: after)),
           (mergeClosedForm (before ++ after)).
    split; [|split].
    + apply merge_closed. apply Forall_app in Hothers.
      destruct Hothers as [Hb Ha]. apply Forall_app. split; [exact Hb|].
      constructor; [now apply truthyPrimitive_object | exact Ha].
    + now apply merge_closed.
    + intros path. rewrite !closed_ledger_get, !closed_value_get.
      unfold ranked. now rewrite (candidates_skip path before after w Hroot).
Qed.

Lemma merge_skips_unusable_inputs_witness :
  (truthy VNull = false /\
   Explained.merge [Scenario.defaults; Explained.new VNull []; Scenario.env]
   = Explained.merge [Scenario.defaults; Scenario.env]) /\
  (isNonNullObject (VObj [("debug", VBool true)]) = true /\
   rootOf (Explained.new (VObj [("debug", VBool true)]) []) = [] /\
   exists merged merged',
     Explained.merge [Scenario.defaults;
                      Explained.new (VObj [("debug", VBool true)]) [];
                      Scenario.env] = Returns merged /\
     Explained.merge [Scenario.defaults; Scenario.env] = Returns merged' /\
     forall path,
       prop_get path (Explained.explanations merged)
       = prop_get path (Explained.explanations merged') /\
       field (Explained.value merged) path
       = field (Explained.value merged') path).
Proof.
  split.
  - split; [reflexivity|].
    exact (proj1 (merge_skips_unusable_inputs
                    [Scenario.defaults] [Scenario.env]
                    (Explained.new VNull [])) eq_refl).
  - split; [reflexivity|]. split; [reflexivity|].
    apply (proj2 (merge_skips_unusable_inputs
                    [Scenario.defaults] [Scenario.env]
                    (Explained.new (VObj [("debug", VBool true)]) []))
                 eq_refl eq_refl).
    + repeat constructor.
    + repeat constructor.
    + intros key [<-|[]]. reflexivity.
Defined.

(** ** The extends walk *)

Section WalkFacts.
Variable host : Host.
Import TSConfigAdapter.

Lemma forEachExtends_walks recur currentDir prec len :
  (forall r q v out, recur r q v = Some out -> walks host r currentDir q v out) ->
  forall rest index chain visited out,
    forEachExtends recur prec len rest index chain visited = Some out ->
    walksParents host currentDir prec len rest index chain visited out.
Proof.
  intros Hrec. induction rest as [|r rest IH]; simpl; intros index chain V out H.
  - injection H as <-. constructor.
  - destruct (recur r (parentPrecedence prec len index) V)
      as [[[ext V']|e]|] eqn:E; try discriminate.
    + eapply parents_next; [apply Hrec; exact E | apply IH; exact H].
    + injection H as <-. apply parents_throw. apply Hrec. exact E.
Qed.

(** Whatever the fuelled function answers, the walk relation derives. *)
Lemma chainWithFuel_walks fuel :
  forall r b p V out,
    chainWithFuel host fuel r b p V = Some out -> walks host r b p V out.
Proof.
  induction fuel as [|fuel IH]; simpl; intros r b p V out H; [discriminate|].
  destruct (resolveTSConfigPath host r b) as [f|e] eqn:Er.
  2: { injection H as <-. now apply walks_unresolved. }
  destruct (set_has f V) eqn:Ev.
  { injection H as <-. eapply walks_visited; eauto. }
  destruct (loadTSConfig host f) as [cfg|e] eqn:El.
  2: { injection H as <-. eapply walks_unparsed; eauto. }
  match type of H with
  | match ?loop with _ => _ end = _ => destruct loop as [[[chain V']|e]|] eqn:Ef
  end; try discriminate; injection H as <-.
  - eapply walks_document; eauto.
    eapply forEachExtends_walks; [|exact Ef]. intros. now apply IH.
  - eapply walks_parent_throws; eauto.
    eapply forEachExtends_walks; [|exact Ef]. intros. now apply IH.
Qed.

Lemma NoDup_append {A : Type} (l1 l2 : list A) :
  NoDup l1 -> NoDup l2 -> (forall x, In x l1 -> ~ In x l2) -> NoDup (l1 ++ l2).
Proof.
  induction 1 as [|a l1 Ha Hl IH]; simpl; intros H2 Hd; [exact H2|].
  constructor.
  - rewrite in_app_iff. intros [H|H]; [contradiction|].
    apply (Hd a); [now left | exact H].
  - apply IH; [exact H2|]. intros x Hx. apply Hd. now right.
Qed.

Lemma grows_nil V : grows V [] V.
Proof.
  unfold grows. simpl. split; [|split].
  - intros x. tauto.
  - intros x [].
  - constructor.
Qed.

Lemma grows_app V e1 V1 e2 V2 :
  grows V e1 V1 -> grows V1 e2 V2 -> grows V (e1 ++ e2) V2.
Proof.
  intros [H1 [H1' H1'']] [H2 [H2' H2'']]. unfold grows.
  rewrite map_app. split; [|split].
  - intros x. rewrite H2, H1, in_app_iff. tauto.
  - intros x Hx. apply in_app_iff in Hx. destruct Hx as [Hx|Hx]; [now apply H1'|].
    intros HV. apply (H2' x Hx). apply H1. now left.
  - apply NoDup_append; auto.
    intros x Hx Hx2. apply (H2' x Hx2). apply H1. now right.
Qed.

Lemma grows_document V f cfg prec ext V' :
  set_has f V = false ->
  grows (set_add V f) ext V' ->
  grows V (ext ++ [mkTSConfigResolution f cfg prec]) V'.
Proof.
  intros Hf [H1 [H2 H3]].
  assert (Hnf : ~ In f V) by (rewrite <- set_has_In; congruence).
  unfold grows. rewrite map_app. simpl. split; [|split].
  - intros x. rewrite H1, set_add_In, in_app_iff. simpl. intuition.
  - intros x Hx. apply in_app_iff in Hx. destruct Hx as [Hx|[<-|[]]]; [|exact Hnf].
    intros HV. apply (H2 x Hx). apply set_add_In. now left.
  - apply NoDup_append; [exact H3 | repeat constructor; intros [] |].
    intros x Hx [<-|[]]. apply (H2 f Hx). apply set_add_In. now right.
Qed.

(** What a returning walk does to the shared set, for a call and for the
    loop over the parents. *)
Lemma walks_grows :
  (forall r b p V out,
      walks host r b p V out ->
      forall chain V', out = Returns (chain, V') -> grows V chain V') /\
  (forall dir p len rest index chain0 V out,
      walksParents host dir p len rest index chain0 V out ->
      forall chain V', out = Returns (chain, V') ->
        exists ext, chain = chain0 ++ ext /\ grows V ext V').
Proof.
  apply (walks_both
           (fun r b p V out =>
              forall chain V', out = Returns (chain, V') -> grows V chain V')
           (fun dir p len rest index chain0 V out =>
              forall chain V', out = Returns (chain, V') ->
                exists ext, chain = chain0 ++ ext /\ grows V ext V')).
  - discriminate.
  - intros r b p V f _ _ chain V' [= <- <-]. apply grows_nil.
  - discriminate.
  - discriminate.
  - intros r b p V f cfg chain V' _ Hv _ _ IH chain' V'' [= <- <-].
    destruct (IH chain V' eq_refl) as [ext [-> Hg]]. simpl.
    now apply grows_document.
  - intros dir p len index chain V chain' V' [= <- <-].
    exists []. split; [now rewrite app_nil_r | apply grows_nil].
  - discriminate.
  - intros dir p len r rest index chain V ext V1 out _ IH1 _ IH2 chain' V' ->.
    destruct (IH2 chain' V' eq_refl) as [ext2 [-> Hg2]].
    exists (ext ++ ext2). split; [now rewrite app_assoc|].
    eapply grows_app; [apply IH1; reflexivity | exact Hg2].
Qed.

Lemma filter_length_weaker {A : Type} (f g : A -> bool) (l : list A) :
  (forall x, f x = true -> g x = true) ->
  (List.length (filter f l) <= List.length (filter g l))%nat.
Proof.
  intros H. induction l as [|a l IH]; simpl; [lia|].
  destruct (f a) eqn:Ef.
  - rewrite (H a Ef). simpl. lia.
  - destruct (g a); simpl; lia.
Qed.

Lemma filter_length_strict {A : Type} (f g : A -> bool) (l : list A) a :
  (forall x, f x = true -> g x = true) ->
  In a l -> f a = false -> g a = true ->
  (List.length (filter f l) < List.length (filter g l))%nat.
Proof.
  intros H Ha Hf Hg. induction l as [|b l IH]; simpl; [destruct Ha|].
  destruct Ha as [->|Ha].
  - rewrite Hf, Hg. simpl.
    pose proof (filter_length_weaker f g l H). lia.
  - specialize (IH Ha). destruct (f b) eqn:Ef.
    + rewrite (H b Ef). simpl. lia.
    + destruct (g b); simpl; lia.
Qed.

Lemma unvisited_bound V :
  (List.length (unvisited host V) <= List.length (files host))%nat.
Proof.
  unfold unvisited, keysOf.
  rewrite <- (length_map fst (files host)).
  generalize (map fst (files host)). intros l.
  induction l as [|a l IH]; simpl; [lia|].
  destruct (negb (set_has a V)); simpl; lia.
Qed.

Lemma unvisited_mono V V' :
  (forall x, In x V -> In x V') ->
  (List.length (unvisited host V') <= List.length (unvisited host V))%nat.
Proof.
  intros H. apply filter_length_weaker. intros x Hx.
  apply negb_true_iff in Hx. apply negb_true_iff.
  destruct (set_has x V) eqn:E; [|reflexivity].
  apply set_has_In, H, set_has_In in E. congruence.
Qed.

Lemma loadTSConfig_exists f cfg :
  loadTSConfig host f = Returns cfg -> In f (keysOf (files host)).
Proof.
  unfold loadTSConfig. intros H. apply prop_in_keys, prop_in_get.
  destruct (prop_get f (files host)) as [[c|]|]; try discriminate. eauto.
Qed.

Lemma unvisited_add V f cfg :
  loadTSConfig host f = Returns cfg -> set_has f V = false ->
  (List.length (unvisited host (set_add V f))
   < List.length (unvisited host V))%nat.
Proof.
  intros Hl Hf. apply filter_length_strict with (a := f).
  - intros x Hx. apply negb_true_iff in Hx. apply negb_true_iff.
    destruct (set_has x V) eqn:E; [|reflexivity].
    assert (In x (set_add V f)) by (apply set_add_In; left; now apply set_has_In).
    apply set_has_In in H. congruence.
  - eapply loadTSConfig_exists; eauto.
  - apply negb_false_iff, set_has_In, set_add_In. now right.
  - now rewrite Hf.
Qed.

(** Termination: with more fuel than there are unvisited files, the walk
    comes to an end. *)
Lemma chainWithFuel_terminates fuel :
  forall r b p V,
    (List.length (unvisited host V) < fuel)%nat ->
    exists out, chainWithFuel host fuel r b p V = Some out.
Proof.
  induction fuel as [|fuel IH]; intros r b p V Hfuel; [lia|]. simpl.
  destruct (resolveTSConfigPath host r b) as [f|e] eqn:Er; [|eauto].
  destruct (set_has f V) eqn:Ev; [eauto|].
  destruct (loadTSConfig host f) as [cfg|e] eqn:El; [|eauto].
  pose proof (@unvisited_add V f cfg El Ev) as Hless.
  assert (Hloop : forall rest index chain V1,
             (List.length (unvisited host V1) < fuel)%nat ->
             exists out,
               forEachExtends
                 (fun p0 q v => chainWithFuel host fuel p0 (dirname host f) q v)
                 p (List.length (extendsArray cfg)) rest index chain V1
               = Some out).
  { induction rest as [|x rest IHrest]; simpl; intros index chain V1 H1; [eauto|].
    destruct (IH x (dirname host f)
                 (parentPrecedence p (List.length (extendsArray cfg)) index)
                 V1 H1) as [out Hout].
    rewrite Hout. destruct out as [[ext V2]|e]; [|eauto].
    apply IHrest. apply chainWithFuel_walks in Hout.
    apply (proj1 walks_grows) with (chain := ext) (V' := V2) in Hout;
      [|reflexivity].
    destruct Hout as [Hin _].
    assert (List.length (unvisited host V2) <= List.length (unvisited host V1))%nat.
    { apply unvisited_mono. intros y Hy. apply Hin. now left. }
    lia. }
  destruct (Hloop (extendsArray cfg) 0%nat [] (set_add V f)) as [out Hout];
    [lia|].
  rewrite Hout. destruct out as [[chain V']|e]; eauto.
Qed.

Lemma forEachExtends_more recur recur' prec len :
  (forall r q v out, recur r q v = Some out -> recur' r q v = Some out) ->
  forall rest index chain V out,
    forEachExtends recur prec len rest index chain V = Some out ->
    forEachExtends recur' prec len rest index chain V = Some out.
Proof.
  intros H. induction rest as [|x rest IH]; simpl; intros index chain V out Hout;
    [exact Hout|].
  destruct (recur x (parentPrecedence prec len index) V) as [o|] eqn:E;
    [|discriminate].
  rewrite (H _ _ _ _ E). destruct o as [[ext V']|e]; auto.
Qed.

(** More fuel never changes what a finished walk answered. *)
Lemma chainWithFuel_more fuel :
  forall fuel' r b p V out,
    (fuel <= fuel')%nat ->
    chainWithFuel host fuel r b p V = Some out ->
    chainWithFuel host fuel' r b p V = Some out.
Proof.
  induction fuel as [|fuel IH]; intros fuel' r b p V out Hle H; [discriminate|].
  destruct fuel' as [|fuel']; [lia|]. simpl in *.
  destruct (resolveTSConfigPath host r b) as [f|e]; [|exact H].
  destruct (set_has f V); [exact H|].
  destruct (loadTSConfig host f) as [cfg|e]; [|exact H].
  match type of H with
  | match ?loop with _ => _ end = _ => destruct loop as [o|] eqn:Ef
  end; [|discriminate].
  erewrite forEachExtends_more; [exact H | | exact Ef].
  intros. apply IH; [lia | assumption].
Qed.

Lemma resolveTSConfigChain_total r b p V :
  exists out,
    resolveTSConfigChain host r b p V = Some out /\
    walks host r b p V out /\
    forall fuel, (S (List.length (files host)) <= fuel)%nat ->
                 chainWithFuel host fuel r b p V = Some out.
Proof.
  unfold resolveTSConfigChain.
  destruct (@chainWithFuel_terminates (S (List.length (files host))) r b p V)
    as [out Hout].
  { pose proof (unvisited_bound V). lia. }
  exists out. split; [exact Hout|].
  split; [eapply chainWithFuel_walks; exact Hout|].
  intros fuel Hle. eapply chainWithFuel_more; eauto.
Qed.

Lemma settled_mono V V' chain :
  (forall x, In x V -> In x V') -> settled host V chain -> settled host V' chain.
Proof.
  intros Hsub Hs d Hd. destruct (Hs d Hd) as [Hl Hp]. split; [exact Hl|].
  intros parent Hin. destruct (Hp parent Hin) as [f [Hf Hv]]. eauto.
Qed.

Lemma settled_app V e1 e2 :
  settled host V e1 -> settled host V e2 -> settled host V (e1 ++ e2).
Proof.
  intros H1 H2 d Hd. apply in_app_iff in Hd. destruct Hd; auto.
Qed.

(** A returning walk has located and parsed every document of its chain
    and every parent those documents declare. *)
Lemma walks_settled :
  (forall r b p V out,
      walks host r b p V out ->
      forall chain V', out = Returns (chain, V') ->
        (exists f, resolveTSConfigPath host r b = Returns f /\ In f V') /\
        settled host V' chain) /\
  (forall dir p len rest index chain0 V out,
      walksParents host dir p len rest index chain0 V out ->
      forall chain V', out = Returns (chain, V') ->
        exists ext,
          chain = chain0 ++ ext /\ settled host V' ext /\
          forall parent, In parent rest ->
            exists f, resolveTSConfigPath host parent dir = Returns f /\
                      In f V').
Proof.
  apply (walks_both
           (fun r b p V out =>
              forall chain V', out = Returns (chain, V') ->
                (exists f, resolveTSConfigPath host r b = Returns f /\ In f V') /\
                settled host V' chain)
           (fun dir p len rest index chain0 V out =>
              forall chain V', out = Returns (chain, V') ->
                exists ext,
                  chain = chain0 ++ ext /\ settled host V' ext /\
                  forall parent, In parent rest ->
                    exists f, resolveTSConfigPath host parent dir = Returns f /\
                              In f V')).
  - discriminate.
  - intros r b p V f Hr Hv chain V' [= <- <-]. split.
    + exists f. split; [exact Hr | now apply set_has_In].
    + intros d [].
  - discriminate.
  - discriminate.
  - intros r b p V f cfg chain V' Hr Hv Hl Hw IH chain' V'' [= <- <-].
    destruct (IH chain V' eq_refl) as [ext [Hc [Hs Hp]]]. simpl in Hc. subst ext.
    destruct (proj2 walks_grows _ _ _ _ _ _ _ _ Hw chain V' eq_refl)
      as [ext [Hc [Hg _]]]. simpl in Hc. subst ext.
    split.
    + exists f. split; [exact Hr|]. apply Hg. left. apply set_add_In. now right.
    + apply settled_app; [exact Hs|].
      intros d [<-|[]]. simpl. split; [exact Hl | exact Hp].
  - intros dir p len index chain V chain' V' [= <- <-].
    exists []. split; [now rewrite app_nil_r|]. split; [intros d []|intros x []].
  - discriminate.
  - intros dir p len r rest index chain V ext V1 out Hw1 IH1 Hw2 IH2 chain' V' ->.
    destruct (IH1 ext V1 eq_refl) as [[f [Hf Hin]] Hs1].
    destruct (IH2 chain' V' eq_refl) as [ext2 [-> [Hs2 Hp]]].
    destruct (proj2 walks_grows _ _ _ _ _ _ _ _ Hw2 _ V' eq_refl)
      as [ext2' [Hc [Hg _]]].
    assert (Hsub : forall x, In x V1 -> In x V') by (intros x Hx; apply Hg; now left).
    exists (ext ++ ext2). split; [now rewrite app_assoc|]. split.
    + apply settled_app; [eapply settled_mono; eauto | exact Hs2].
    + intros parent [<-|Hpar]; [eauto | auto].
Qed.

Lemma referenced_trans r b r1 b1 r2 b2 :
  referenced host r b r1 b1 -> referenced host r1 b1 r2 b2 ->
  referenced host r b r2 b2.
Proof.
  intros H1 H2. induction H2 as [|child childDir f cfg parent H IH Hr Hl Hin];
    [exact H1|].
  eapply referenced_parent; eauto.
Qed.

(** A walk only throws the error of a reference it has met and could not
    locate or parse. *)
Lemma walks_throws :
  (forall r b p V out,
      walks host r b p V out ->
      forall e, out = Throws e ->
        exists r' b', referenced host r b r' b' /\ unavailable host r' b' e) /\
  (forall dir p len rest index chain0 V out,
      walksParents host dir p len rest index chain0 V out ->
      forall e, out = Throws e ->
        exists parent r' b',
          In parent rest /\ referenced host parent dir r' b' /\
          unavailable host r' b' e).
Proof.
  apply (walks_both
           (fun r b p V out =>
              forall e, out = Throws e ->
                exists r' b', referenced host r b r' b' /\
                              unavailable host r' b' e)
           (fun dir p len rest index (chain0 : list TSConfigResolution)
                (V : list string) out =>
              forall e, out = Throws e ->
                exists parent r' b',
                  In parent rest /\ referenced host parent dir r' b' /\
                  unavailable host r' b' e)).
  - intros r b p V e Hr e' [= <-]. exists r, b.
    split; [constructor | now left].
  - discriminate.
  - intros r b p V f e Hr Hv Hl e' [= <-]. exists r, b.
    split; [constructor | right; eauto].
  - intros r b p V f cfg e Hr Hv Hl Hw IH e' [= <-].
    destruct (IH e eq_refl) as [parent [r' [b' [Hin [Href Hun]]]]].
    exists r', b'. split; [|exact Hun].
    eapply referenced_trans; [|exact Href].
    eapply referenced_parent; eauto. constructor.
  - discriminate.
  - discriminate.
  - intros dir p len r rest index chain V e Hw IH e' [= <-].
    destruct (IH e eq_refl) as [r' [b' [Href Hun]]].
    exists r, r', b'. split; [now left | auto].
  - intros dir p len r rest index chain V ext V1 out Hw1 IH1 Hw2 IH2 e ->.
    destruct (IH2 e eq_refl) as [parent [r' [b' [Hin [Href Hun]]]]].
    exists parent, r', b'. split; [now right | auto].
Qed.

(** A returning walk lays its chain out as [walked] describes. *)
Lemma walks_walked :
  (forall r b p V out,
      walks host r b p V out ->
      forall chain V', out = Returns (chain, V') ->
        chain = [] \/ walked host r b p chain) /\
  (forall dir p len rest index chain0 V out,
      walksParents host dir p len rest index chain0 V out ->
      forall chain V', out = Returns (chain, V') ->
        exists segments,
          chain = chain0 ++ List.concat segments /\
          Forall2
            (fun parent segment =>
               segment = [] \/
               walked host (snd parent) dir
                      (parentPrecedence p len (fst parent)) segment)
            (combine (seq index (List.length rest)) rest) segments).
Proof.
  apply (walks_both
           (fun r b p (V : list string) out =>
              forall chain (V' : list string), out = Returns (chain, V') ->
                chain = [] \/ walked host r b p chain)
           (fun dir p len rest index chain0 (V : list string) out =>
              forall chain (V' : list string), out = Returns (chain, V') ->
                exists segments,
                  chain = chain0 ++ List.concat segments /\
                  Forall2
                    (fun parent segment =>
                       segment = [] \/
                       walked host (snd parent) dir
                              (parentPrecedence p len (fst parent)) segment)
                    (combine (seq index (List.length rest)) rest) segments)).
  - discriminate.
  - intros r b p V f _ _ chain V' [= <- <-]. now left.
  - discriminate.
  - discriminate.
  - intros r b p V f cfg chain V' Hr Hv Hl Hw IH chain' V'' [= <- <-].
    destruct (IH chain V' eq_refl) as [segments [Hc Hf]]. simpl in Hc. subst chain.
    right. now apply walked_document.
  - intros dir p len index chain V chain' V' [= <- <-].
    exists []. simpl. split; [now rewrite app_nil_r | constructor].
  - discriminate.
  - intros dir p len r rest index chain V ext V1 out Hw1 IH1 Hw2 IH2 chain' V' ->.
    destruct (IH2 chain' V' eq_refl) as [segments [-> Hf]].
    exists (ext :: segments). simpl. split; [now rewrite app_assoc|].
    constructor; [|exact Hf]. simpl. eapply IH1. reflexivity.
Qed.

End WalkFacts.

(** ** Precedence along the chain *)

Lemma Forall2_in_right {A B : Type} (R : A -> B -> Prop) l1 l2 y :
  Forall2 R l1 l2 -> In y l2 -> exists x, In x l1 /\ R x y.
Proof.
  induction 1 as [|a b l1 l2 Hab Hl IH]; intros Hy; [destruct Hy|].
  destruct Hy as [<-|Hy].
  - exists a. split; [now left | exact Hab].
  - destruct (IH Hy) as [x [Hx Hr]]. exists x. split; [now right | exact Hr].
Qed.

Lemma in_concat_length {A : Type} (seg : list A) segments :
  In seg segments ->
  (List.length seg <= List.length (List.concat segments))%nat.
Proof.
  induction segments as [|s segments IH]; simpl; intros H; [destruct H|].
  rewrite length_app. destruct H as [->|H]; [lia|]. specialize (IH H). lia.
Qed.

Lemma parentPrecedence_below prec len index :
  (index < len)%nat ->
  (TSConfigAdapter.parentPrecedence prec len index < prec)%Z.
Proof. unfold TSConfigAdapter.parentPrecedence. lia. Qed.


(** In a chain laid out by the walk the document walked comes last, with
    the precedence it was walked at, above everything before it. *)
Lemma walked_entry_highest host n :
  forall r b p chain,
    (List.length chain <= n)%nat ->
    walked host r b p chain ->
    exists rest entry,
      chain = rest ++ [entry] /\
      TSConfigAdapter.resolveTSConfigPath host r b = Returns (path entry) /\
      TSConfigAdapter.loadTSConfig host (path entry) = Returns (config entry) /\
      res_precedence entry = p /\
      forall d, In d rest -> (res_precedence d < p)%Z.
Proof.
  induction n as [|n IH]; intros r b p chain Hlen Hw;
    inversion Hw as [r' b' p' f cfg segments Hr Hl Hf]; subst;
    rewrite length_app in Hlen; simpl in Hlen; [lia|].
  exists (List.concat segments), (mkTSConfigResolution f cfg p). simpl.
  repeat split; auto.
  intros d Hd. apply in_concat in Hd. destruct Hd as [seg [Hseg Hd]].
  destruct (@Forall2_in_right _ _ _ _ _ _ Hf Hseg) as [[i ref] [Hin Hs]].
  simpl in Hs.
  destruct Hs as [->|Hs]; [destruct Hd|].
  pose proof (@in_concat_length _ seg segments Hseg) as Hlen'.
  destruct (IH _ _ _ seg ltac:(lia) Hs) as [rest' [e' [-> [_ [_ [He' Hrest']]]]]].
  apply in_combine_l, in_seq in Hin. simpl in Hin.
  pose proof (parentPrecedence_below p (proj2 Hin)) as Hlt.
  apply in_app_iff in Hd. destruct Hd as [Hd|[<-|[]]].
  - specialize (Hrest' d Hd). lia.
  - lia.
Qed.




(** ** Cycles and failures *)

Section ResolutionFacts.
Variable host : Host.
Import TSConfigAdapter.

(** After a walk from an empty [visited] set has returned, every reference
    it can meet names a document of the chain. *)
Lemma returned_chain_closed configPath baseDir prec chain visited' :
  walks host configPath baseDir prec [] (Returns (chain, visited')) ->
  forall r b,
    referenced host configPath baseDir r b ->
    exists d,
      In d chain /\
      resolveTSConfigPath host r b = Returns (path d) /\
      loadTSConfig host (path d) = Returns (config d).
Proof.
  intros Hw.
  destruct (proj1 (walks_settled host) _ _ _ _ _ Hw chain visited' eq_refl)
    as [[f [Hf Hin]] Hs].
  destruct (proj1 (walks_grows host) _ _ _ _ _ Hw chain visited' eq_refl)
    as [Hg _].
  assert (Hdoc : forall x, In x visited' ->
                           exists d, In d chain /\ path d = x /\
                                     loadTSConfig host x = Returns (config d)).
  { intros x Hx. apply Hg in Hx. destruct Hx as [[]|Hx].
    apply in_map_iff in Hx. destruct Hx as [d [<- Hd]].
    exists d. repeat split; auto. apply Hs, Hd. }
  intros r b Href.
  induction Href as [|child childDir fullPath cfg parent Href IH Hr Hl Hp].
  - destruct (Hdoc f Hin) as [d [Hd [<- Hld]]]. eauto.
  - destruct IH as [d [Hd [Hrd Hld]]].
    assert (fullPath = path d) by congruence. subst fullPath.
    assert (cfg = config d) by congruence. subst cfg.
    destruct (proj2 (Hs d Hd) parent Hp) as [f' [Hf' Hin']].
    destruct (Hdoc f' Hin') as [d' [Hd' [<- Hld']]]. eauto.
Qed.

Lemma unavailable_identifies r b e :
  unavailable host r b e -> identifies e r b host.
Proof.
  unfold unavailable, identifies, resolveTSConfigPath, loadTSConfig.
  intros [H|[f [Hf H]]].
  - destruct (_ && _).
    + destruct (requireResolve host r b); [discriminate|].
      destruct (requireResolve host _ b); [discriminate|].
      injection H as <-. now left.
    + destruct (existsSync host _); [discriminate|].
      destruct (existsSync host _); [discriminate|].
      injection H as <-. right. now left.
  - right. right. exists f. split; [exact Hf|].
    destruct (prop_get f (files host)) as [[c|]|]; congruence.
Qed.

Lemma unavailable_not_available r b e d :
  unavailable host r b e ->
  resolveTSConfigPath host r b = Returns (path d) ->
  loadTSConfig host (path d) = Returns (config d) ->
  False.
Proof.
  intros [H|[f [Hf H]]] Hr Hl; [congruence|].
  assert (f = path d) by congruence. subst f. congruence.
Qed.
End ResolutionFacts.

(** C7 (cycle safety): whatever the documents extend, cycles included, the
    walk ends, with a result that no larger bound on the recursion changes;
    a chain it returns holds each location at most once and none that had
    been visited before; and it does return a chain as soon as every
    reference met can be located and parsed, so that coming back to a
    visited location is never an error. *)
Theorem chain_cycle_safety :
  forall (host : Host) (configPath baseDir : string) (prec : Z)
         (visited : list string),
    exists out,
      TSConfigAdapter.resolveTSConfigChain host configPath baseDir prec visited
      = Some out /\
      (forall fuel,
          (S (List.length (files host)) <= fuel)%nat ->
          TSConfigAdapter.chainWithFuel host fuel configPath baseDir prec visited
          = Some out) /\
      (forall chain visited',
          out = Returns (chain, visited') ->
          NoDup (map path chain) /\
          forall d, In d chain -> ~ In (path d) visited) /\
      ((forall r b,
           referenced host configPath baseDir r b ->
           exists fullPath cfg,
             TSConfigAdapter.resolveTSConfigPath host r b = Returns fullPath /\
             TSConfigAdapter.loadTSConfig host fullPath = Returns cfg) ->
       exists chain visited', out = Returns (chain, visited')).
Proof.
  intros host r b p V.
  destruct (resolveTSConfigChain_total host r b p V) as [out [Hout [Hw Hfuel]]].
  exists out. split; [exact Hout|]. split; [exact Hfuel|]. split.
  - intros chain V' ->.
    destruct (proj1 (walks_grows host) _ _ _ _ _ Hw chain V' eq_refl)
      as [_ [Hnew Hnd]].
    split; [exact Hnd|]. intros d Hd. apply Hnew. now apply in_map.
  - intros Havail. destruct out as [[chain V']|e]; [eauto|]. exfalso.
    destruct (proj1 (walks_throws host) _ _ _ _ _ Hw e eq_refl)
      as [r' [b' [Href Hun]]].
    destruct (Havail r' b' Href) as [f [cfg [Hf Hl]]].
    destruct Hun as [Hun|[f' [Hf' Hun]]]; [congruence|].
    assert (f' = f) by congruence. subst f'. congruence.
Qed.

Lemma chain_cycle_safety_witness :
  TSConfigAdapter.resolveTSConfigChain Disk.cycle "./a.json" "/p" 10 []
  = Some (Returns (Disk.cycleChain, ["/p/a.json"; "/p/b.json"])) /\
  NoDup (map path Disk.cycleChain).
Proof.
  split; [reflexivity|].
  destruct (chain_cycle_safety Disk.cycle "./a.json" "/p" 10 [])
    as [out [Hout [_ [Hnd _]]]].
  apply (Hnd Disk.cycleChain ["/p/a.json"; "/p/b.json"]).
  vm_compute in Hout. now injection Hout as <-.
Defined.

(** ** What the host says about a reference *)

Section HostFacts.
Variable host : Host.
Import TSConfigAdapter.

Lemma resolveTSConfigPath_locates r b f :
  resolveTSConfigPath host r b = Returns f <-> locates host r b f.
Proof.
  unfold resolveTSConfigPath, existsSync.
  assert (Hlike : negb (startsWith "." r) && negb (startsWith "/" r)
                  = negb (pathLike r)).
  { unfold pathLike. now destruct (startsWith "." r), (startsWith "/" r). }
  rewrite Hlike. split.
  - destruct (pathLike r) eqn:Ep; cbn [negb].
    + destruct (prop_in (pathResolve host b r) (files host)) eqn:E1.
      * intros [= <-]. now apply locates_file.
      * destruct (prop_in (String.append (pathResolve host b r) ".json")
                          (files host)) eqn:E2; [|discriminate].
        intros [= <-]. now apply locates_file_json.
    + destruct (requireResolve host r b) as [q|] eqn:E1.
      * intros [= <-]. now apply locates_package.
      * destruct (requireResolve host (String.append r "/tsconfig.json") b)
          as [q|] eqn:E2; [|discriminate].
        intros [= <-]. now apply locates_package_tsconfig.
  - intros [q Hp Hq|q Hp Hn Hq|Hp Hq|Hp Hn Hq]; rewrite Hp; cbn [negb].
    + now rewrite Hq.
    + now rewrite Hn, Hq.
    + now rewrite Hq.
    + now rewrite Hn, Hq.
Qed.

Lemma loadTSConfig_content f cfg :
  loadTSConfig host f = Returns cfg <->
  prop_get f (files host) = Some (Some cfg).
Proof.
  unfold loadTSConfig.
  destruct (prop_get f (files host)) as [[c|]|]; split;
    intros H; try discriminate; now injection H as ->.
Qed.

Lemma loadTSConfig_defect f e :
  loadTSConfig host f = Throws e <->
  e = FailedToParse f /\
  forall cfg, prop_get f (files host) <> Some (Some cfg).
Proof.
  unfold loadTSConfig.
  destruct (prop_get f (files host)) as [[c|]|]; split.
  - discriminate.
  - intros [_ H]. now destruct (H c).
  - intros [= <-]. split; [reflexivity | discriminate].
  - now intros [-> _].
  - intros [= <-]. split; [reflexivity | discriminate].
  - now intros [-> _].
Qed.

Lemma referenced_reached r0 b0 r b :
  referenced host r0 b0 r b <-> reached host r0 b0 r b.
Proof.
  split.
  - induction 1 as [|child childDir f cfg parent _ IH Hf Hl Hin];
      [constructor|].
    eapply reached_parent; [exact IH | | |exact Hin].
    + now apply resolveTSConfigPath_locates.
    + now apply loadTSConfig_content.
  - induction 1 as [|child childDir f cfg parent _ IH Hf Hl Hin];
      [constructor|].
    eapply referenced_parent; [exact IH | | |exact Hin].
    + now apply resolveTSConfigPath_locates.
    + now apply loadTSConfig_content.
Qed.

Lemma unavailable_defect r b e :
  unavailable host r b e <-> defect host r b e.
Proof.
  split.
  - intros [H|[f [Hf Hl]]].
    + unfold resolveTSConfigPath, existsSync in H.
      destruct (startsWith "." r) eqn:E1; cbn [negb andb] in H.
      * destruct (prop_in (pathResolve host b r) (files host)) eqn:P1;
          [discriminate|].
        destruct (prop_in (String.append (pathResolve host b r) ".json")
                          (files host)) eqn:P2; [discriminate|].
        injection H as <-. apply defect_file; auto.
        unfold pathLike. now rewrite E1.
      * destruct (startsWith "/" r) eqn:E2; cbn [negb] in H.
        -- destruct (prop_in (pathResolve host b r) (files host)) eqn:P1;
             [discriminate|].
           destruct (prop_in (String.append (pathResolve host b r) ".json")
                             (files host)) eqn:P2; [discriminate|].
           injection H as <-. apply defect_file; auto.
           unfold pathLike. now rewrite E1, E2.
        -- destruct (requireResolve host r b) eqn:R1; [discriminate|].
           destruct (requireResolve host (String.append r "/tsconfig.json") b)
             eqn:R2; [discriminate|].
           injection H as <-. apply defect_package; auto.
           unfold pathLike. now rewrite E1, E2.
    + apply loadTSConfig_defect in Hl. destruct Hl as [-> Hl].
      apply defect_content; [|exact Hl].
      now apply resolveTSConfigPath_locates.
  - intros [Hp H1 H2|Hp H1 H2|f Hf Hl].
    + left. unfold resolveTSConfigPath. unfold pathLike in Hp.
      apply orb_false_iff in Hp. destruct Hp as [-> ->]. cbn [negb andb].
      now rewrite H1, H2.
    + left. unfold resolveTSConfigPath, existsSync.
      assert (Hlike : negb (startsWith "." r) && negb (startsWith "/" r)
                      = false).
      { unfold pathLike in Hp.
        now destruct (startsWith "." r), (startsWith "/" r). }
      now rewrite Hlike, H1, H2.
    + right. exists f. split.
      * now apply resolveTSConfigPath_locates.
      * apply loadTSConfig_defect. auto.
Qed.
End HostFacts.

(** C8 (resolution errors): when a reference met by the resolution names a
    document that is not there (no package of that name, no file at that
    path) or whose location holds no readable, well-formed document, the
    walk throws, for any precedence of the entry, and so does
    [explainTSConfig] when it follows [extends], as it does by default:
    neither returns a chain or a merged result.  What
    is thrown is the error of a reference that was met and has such a
    defect, and it carries that reference, or the location that does not
    parse. *)
Theorem chain_resolution_error :
  forall (host : Host) (configPath baseDir ref refDir : string) (e0 : Error)
         (prec : Z) (now : nat -> Z),
    reached host configPath baseDir ref refDir ->
    defect host ref refDir e0 ->
    (exists e r b,
        TSConfigAdapter.resolveTSConfigChain host configPath baseDir prec []
        = Some (Throws e) /\
        reached host configPath baseDir r b /\ defect host r b e) /\
    (exists e r b,
        TSConfigAdapter.explainTSConfig host configPath baseDir true now
        = Some (Throws e) /\
        reached host configPath baseDir r b /\ defect host r b e).
Proof.
  intros host r0 b0 ref refDir e0 prec now Href Hun.
  apply referenced_reached in Href. apply unavailable_defect in Hun.
  assert (Hany : forall p,
             exists e r b,
               TSConfigAdapter.resolveTSConfigChain host r0 b0 p []
               = Some (Throws e) /\
               reached host r0 b0 r b /\ defect host r b e).
  { intros p.
    destruct (resolveTSConfigChain_total host r0 b0 p [])
      as [out [Hout [Hw _]]].
    destruct out as [[chain V']|e].
    - exfalso.
      destruct (returned_chain_closed Hw Href) as [d [_ [Hr Hl]]].
      eapply unavailable_not_available; eauto.
    - destruct (proj1 (walks_throws host) _ _ _ _ _ Hw e eq_refl)
        as [r [b [Hrb Hu]]].
      exists e, r, b. split; [exact Hout|]. split.
      + now apply referenced_reached.
      + now apply unavailable_defect. }
  split; [apply Hany|].
  destruct (Hany 10%Z) as [e [r [b [He Hrest]]]].
  exists e, r, b. split; [|exact Hrest].
  unfold TSConfigAdapter.explainTSConfig. now rewrite He.
Qed.

Lemma chain_resolution_error_witness :
  (reached Disk.dangling "./tsconfig.json" "/p" "./nonexistent.json" "/p" /\
   defect Disk.dangling "./nonexistent.json" "/p"
          (CannotFindFile "./nonexistent.json") /\
   exists e r b,
     TSConfigAdapter.explainTSConfig Disk.dangling "./tsconfig.json" "/p"
                                     true (fun _ => 0%Z)
     = Some (Throws e) /\
     reached Disk.dangling "./tsconfig.json" "/p" r b /\
     defect Disk.dangling r b e) /\
  (reached Disk.garbled "./tsconfig.json" "/p" "./invalid.json" "/p" /\
   defect Disk.garbled "./invalid.json" "/p"
          (FailedToParse "/p/invalid.json") /\
   exists e r b,
     TSConfigAdapter.explainTSConfig Disk.garbled "./tsconfig.json" "/p"
                                     true (fun _ => 0%Z)
     = Some (Throws e) /\
     reached Disk.garbled "./tsconfig.json" "/p" r b /\
     defect Disk.garbled r b e).
Proof.
  assert (Hentry : forall fs,
             prop_in "/p/tsconfig.json" fs = true ->
             locates (Disk.flat fs) "./tsconfig.json" "/p" "/p/tsconfig.json").
  { intros fs Hin.
    exact (@locates_file (Disk.flat fs) "./tsconfig.json" "/p" eq_refl Hin). }
  assert (Href : reached Disk.dangling "./tsconfig.json" "/p"
                         "./nonexistent.json" "/p").
  { apply (@reached_parent
             Disk.dangling "./tsconfig.json" "/p" "./tsconfig.json" "/p"
             "/p/tsconfig.json"
             (mkTSConfig (Some (ExtendsOne "./nonexistent.json"))
                         (Disk.strict true))
             "./nonexistent.json");
      [constructor | now apply Hentry | reflexivity | now left]. }
  assert (Hun : defect Disk.dangling "./nonexistent.json" "/p"
                       (CannotFindFile "./nonexistent.json"))
    by (apply defect_file; reflexivity).
  assert (Href' : reached Disk.garbled "./tsconfig.json" "/p"
                          "./invalid.json" "/p").
  { apply (@reached_parent
             Disk.garbled "./tsconfig.json" "/p" "./tsconfig.json" "/p"
             "/p/tsconfig.json"
             (mkTSConfig (Some (ExtendsOne "./invalid.json"))
                         (Disk.strict true))
             "./invalid.json");
      [constructor | now apply Hentry | reflexivity | now left]. }
  assert (Hun' : defect Disk.garbled "./invalid.json" "/p"
                        (FailedToParse "/p/invalid.json")).
  { apply (@defect_content Disk.garbled "./invalid.json" "/p"
                           "/p/invalid.json").
    - exact (@locates_file Disk.garbled "./invalid.json" "/p"
                           eq_refl eq_refl).
    - intros cfg. discriminate. }
  split.
  - split; [exact Href|]. split; [exact Hun|].
    exact (proj2 (@chain_resolution_error
                    Disk.dangling "./tsconfig.json" "/p" "./nonexistent.json"
                    "/p" (CannotFindFile "./nonexistent.json") 10
                    (fun _ => 0%Z) Href Hun)).
  - split; [exact Href'|]. split; [exact Hun'|].
    exact (proj2 (@chain_resolution_error
                    Disk.garbled "./tsconfig.json" "/p" "./invalid.json"
                    "/p" (FailedToParse "/p/invalid.json") 10
                    (fun _ => 0%Z) Href' Hun')).
Defined.

(** ** Serialization *)

(** C6: [toJSON] returns the value, the ledger and the clock reading, but
    its [sourcesCount] is the size of the ledger [Map], that is the number
    of paths with Explanations, not the number of sources recorded: the
    merge of two sources over one field records two sources and counts
    one. *)
Theorem toJSON_sourcesCount_counts_paths :
  (forall (this : Explained.t) (now : Z),
      res_value (Explained.toJSON this now) = Explained.value this /\
      res_explanations (Explained.toJSON this now) = Explained.explanations this /\
      resolvedAt (Explained.toJSON this now) = now /\
      sourcesCount (Explained.toJSON this now)
      = List.length (Explained._getPaths this)) /\
  Explained.merge [Scenario.first; Scenario.second] = Returns Scenario.tied /\
  sourcesCount (Explained.toJSON Scenario.tied 1701) = 1%nat /\
  distinctSources (Explained.explanations Scenario.tied) = ["first"; "second"].
Proof.
  split; [|repeat split].
  intros this now. unfold Explained.toJSON, Explained._getPaths, keysOf. simpl.
  now rewrite length_map.
Qed.

(** ** Dotted keys *)

Lemma splitDot_nonempty s : splitDot s <> [].
Proof.
  destruct s as [|c s]; simpl; [discriminate|].
  destruct (Ascii.eqb c "."); [discriminate|].
  destruct (splitDot s); discriminate.
Qed.

Lemma splitDot_plain k : hasDot k = false -> splitDot k = [k].
Proof.
  induction k as [|c k IH]; simpl; [reflexivity|].
  intros H. apply orb_false_iff in H. destruct H as [Hc Hk].
  rewrite Hc, (IH Hk). reflexivity.
Qed.

Lemma splitDot_append s1 s2 :
  splitDot (String.append s1 (String "." s2)) = splitDot s1 ++ splitDot s2.
Proof.
  induction s1 as [|c s1 IH]; simpl; [reflexivity|].
  destruct (Ascii.eqb c "."); [now rewrite IH|].
  rewrite IH. destruct (splitDot s1) as [|h t] eqn:E; [|reflexivity].
  now destruct (splitDot_nonempty s1).
Qed.

Lemma plainKey_inv k : plainKey k = true -> k <> "" /\ hasDot k = false.
Proof.
  unfold plainKey. intros H. apply andb_prop in H. destruct H as [H _].
  apply andb_prop in H. destruct H as [H1 H2].
  apply negb_true_iff in H1, H2. split; [|exact H2].
  now apply String.eqb_neq.
Qed.

Lemma plainKey_own k : plainKey k = true -> inheritedName k = false.
Proof.
  unfold plainKey. intros H. apply andb_prop in H. destruct H as [_ H].
  now apply negb_true_iff in H.
Qed.


Lemma prefixPath_join prefix ps k :
  prefixPath prefix ps -> plainKey k = true ->
  prefixPath (TSConfigAdapter.joinKey prefix k) (ps ++ [k]).
Proof.
  intros Hp Hk. apply plainKey_inv in Hk. destruct Hk as [Hne Hdot].
  right. unfold TSConfigAdapter.joinKey.
  destruct Hp as [[-> ->]|[Hp <-]]; simpl.
  - split; [exact Hne | now apply splitDot_plain].
  - apply String.eqb_neq in Hp. rewrite Hp. split.
    + destruct prefix; [discriminate | discriminate].
    + simpl. rewrite splitDot_append. now rewrite (splitDot_plain _ Hdot).
Qed.

Lemma splitDot_join prefix ps k :
  prefixPath prefix ps -> plainKey k = true ->
  splitDot (TSConfigAdapter.joinKey prefix k) = ps ++ [k].
Proof.
  intros Hp Hk. destruct (@prefixPath_join prefix ps k Hp Hk) as [[_ H]|[_ H]]; [|exact H].
  now destruct ps.
Qed.

Lemma prop_assign_fresh {A : Type} (block acc : list (string * A)) :
  NoDup (keysOf block) ->
  (forall key, In key (keysOf block) -> ~ In key (keysOf acc)) ->
  prop_assign acc block = acc ++ block.
Proof.
  unfold prop_assign. revert acc.
  induction block as [|[k v] block IH]; simpl; intros acc Hnd Hfresh.
  - now rewrite app_nil_r.
  - inversion Hnd as [|? ? Hk Hb]; subst.
    rewrite prop_set_fresh by (apply Hfresh; now left).
    rewrite IH; [now rewrite <- app_assoc | exact Hb |].
    intros key Hkey. rewrite keysOf_app, in_app_iff. simpl.
    intros [H|[<-|[]]]; [|contradiction].
    apply (Hfresh key); [now right | exact H].
Qed.

(** ** [flattenObject] on nested entries *)

Lemma joinKey_proto prefix ps k :
  prefixPath prefix ps -> plainKey k = true ->
  TSConfigAdapter.joinKey prefix k <> "__proto__".
Proof.
  intros Hp Hk E. pose proof (@splitDot_join prefix ps k Hp Hk) as Hsplit.
  rewrite E in Hsplit.
  assert (Hk' : k = "__proto__").
  { destruct ps as [|p [|q ps]]; simpl in Hsplit.
    - now injection Hsplit as <-.
    - discriminate Hsplit.
    - discriminate Hsplit. }
  subst k. discriminate Hk.
Qed.

Lemma flattenLoop_leaf prefix ps k v o acc :
  prefixPath prefix ps -> plainKey k = true ->
  (forall o', v <> VObj o') ->
  flattenLoop prefix ((k, v) :: o) acc
  = flattenLoop prefix o (prop_set acc (TSConfigAdapter.joinKey prefix k) v).
Proof.
  intros Hp Hk H.
  rewrite <- (@object_set_plain _ acc _ v (@joinKey_proto prefix ps k Hp Hk)).
  destruct v; try reflexivity. now destruct (H entries).
Qed.

Lemma flattenLoop_object prefix k o' o acc :
  flattenLoop prefix ((k, VObj o') :: o) acc
  = flattenLoop prefix o
      (prop_assign acc (flattenLoop (TSConfigAdapter.joinKey prefix k) o' [])).
Proof. reflexivity. Qed.

Lemma flatten_step prefix ps k o block step :
  ~ In k (keysOf o) ->
  (forall acc, freshFor ps (keysOf o) acc ->
               flattenLoop prefix o acc = acc ++ flattenLoop prefix o []) ->
  (forall key, In key (keysOf (flattenLoop prefix o [])) ->
               exists k' rest, In k' (keysOf o) /\
                               splitDot key = ps ++ k' :: rest) ->
  NoDup (keysOf (flattenLoop prefix o [])) ->
  (forall key, In key (keysOf block) ->
               exists rest, splitDot key = ps ++ k :: rest) ->
  NoDup (keysOf block) ->
  (forall acc, (forall key, In key (keysOf block) -> ~ In key (keysOf acc)) ->
               step acc = acc ++ block) ->
  (forall acc, freshFor ps (k :: keysOf o) acc ->
               flattenLoop prefix o (step acc)
               = acc ++ block ++ flattenLoop prefix o []) /\
  (forall key, In key (keysOf (block ++ flattenLoop prefix o [])) ->
               exists k' rest, In k' (k :: keysOf o) /\
                               splitDot key = ps ++ k' :: rest) /\
  NoDup (keysOf (block ++ flattenLoop prefix o [])).
Proof.
  intros Hk IH1 IH2 IH3 HB2 HB3 Hstep.
  assert (Hdiff : forall key rest k' rest',
             splitDot key = ps ++ k :: rest -> In k' (keysOf o) ->
             splitDot key <> ps ++ k' :: rest').
  { intros key rest k' rest' H1 Hin H2. rewrite H1 in H2.
    apply app_inv_head in H2. injection H2 as -> _. contradiction. }
  split; [|split].
  - intros acc Hfresh. rewrite Hstep.
    + rewrite IH1; [now rewrite <- app_assoc|].
      intros key Hkey k' rest Hin. rewrite keysOf_app, in_app_iff in Hkey.
      destruct Hkey as [Hkey|Hkey].
      * apply (Hfresh key Hkey). now right.
      * destruct (HB2 key Hkey) as [rest0 H0]. eapply Hdiff; eauto.
    + intros key Hkey Hacc. destruct (HB2 key Hkey) as [rest H0].
      apply (Hfresh key Hacc k rest); [now left | exact H0].
  - intros key Hkey. rewrite keysOf_app, in_app_iff in Hkey.
    destruct Hkey as [Hkey|Hkey].
    + destruct (HB2 key Hkey) as [rest H0]. exists k, rest. split; [now left|auto].
    + destruct (IH2 key Hkey) as [k' [rest [Hin H0]]].
      exists k', rest. split; [now right | auto].
  - rewrite keysOf_app. apply NoDup_append; auto.
    intros key Hb Hg. destruct (HB2 key Hb) as [rest H0].
    destruct (IH2 key Hg) as [k' [rest' [Hin H1]]].
    eapply Hdiff; eauto.
Qed.

Lemma flattenLoop_facts o :
  nestedEntries o ->
  forall prefix ps,
    prefixPath prefix ps ->
    (forall acc, freshFor ps (keysOf o) acc ->
                 flattenLoop prefix o acc = acc ++ flattenLoop prefix o []) /\
    (forall key, In key (keysOf (flattenLoop prefix o [])) ->
                 exists k rest, In k (keysOf o) /\
                                splitDot key = ps ++ k :: rest) /\
    NoDup (keysOf (flattenLoop prefix o [])).
Proof.
  induction 1 as [|k v o Hk Hnew Hleaf Ho IHo
                  |k o' o Hk Hnew Hne Ho' IHo' Ho IHo];
    intros prefix ps Hp.
  - simpl. split; [|split].
    + intros acc _. now rewrite app_nil_r.
    + intros key [].
    + constructor.
  - destruct (IHo prefix ps Hp) as [IH1 [IH2 IH3]].
    pose proof (@splitDot_join prefix ps k Hp Hk) as Hsplit.
    destruct (@flatten_step prefix ps k o
                [(TSConfigAdapter.joinKey prefix k, v)]
                (fun acc => prop_set acc (TSConfigAdapter.joinKey prefix k) v)
                Hnew IH1 IH2 IH3) as [S1 [S2 S3]].
    + intros key [<-|[]]. exists []. exact Hsplit.
    + repeat constructor. intros [].
    + intros acc Hacc. apply prop_set_fresh. apply Hacc. now left.
    + assert (Hnil : flattenLoop prefix ((k, v) :: o) []
                     = [(TSConfigAdapter.joinKey prefix k, v)]
                         ++ flattenLoop prefix o []).
      { rewrite (@flattenLoop_leaf prefix ps k v o _ Hp Hk Hleaf). apply (S1 []). intros key []. }
      split; [|split].
      * intros acc Hacc. rewrite (@flattenLoop_leaf prefix ps k v o _ Hp Hk Hleaf).
        rewrite Hnil. now apply S1.
      * rewrite Hnil. exact S2.
      * rewrite Hnil. exact S3.
  - destruct (IHo prefix ps Hp) as [IH1 [IH2 IH3]].
    destruct (IHo' (TSConfigAdapter.joinKey prefix k) (ps ++ [k])
                   (@prefixPath_join prefix ps k Hp Hk)) as [_ [IB2 IB3]].
    destruct (@flatten_step prefix ps k o
                (flattenLoop (TSConfigAdapter.joinKey prefix k) o' [])
                (fun acc =>
                   prop_assign acc
                     (flattenLoop (TSConfigAdapter.joinKey prefix k) o' []))
                Hnew IH1 IH2 IH3) as [S1 [S2 S3]].
    + intros key Hkey. destruct (IB2 key Hkey) as [k' [rest [_ H0]]].
      exists (k' :: rest). rewrite H0. now rewrite <- app_assoc.
    + exact IB3.
    + intros acc Hacc. now apply prop_assign_fresh.
    + assert (Hnil : flattenLoop prefix ((k, VObj o') :: o) []
                     = flattenLoop (TSConfigAdapter.joinKey prefix k) o' []
                         ++ flattenLoop prefix o []).
      { rewrite flattenLoop_object. apply (S1 []). intros key []. }
      split; [|split].
      * intros acc Hacc. rewrite flattenLoop_object, Hnil. now apply S1.
      * rewrite Hnil. exact S2.
      * rewrite Hnil. exact S3.
Qed.

(** ** Objects reached by a path *)

Section PathFacts.
Implicit Types (root inner : list (string * JSValue)) (ps : list string).

Lemma prop_set_set {A : Type} (o : list (string * A)) k x y :
  prop_set (prop_set o k x) k y = prop_set o k y.
Proof.
  induction o as [|[k' v'] o IH]; simpl.
  - now rewrite String.eqb_refl.
  - destruct (String.eqb k k') eqn:E; simpl.
    + now rewrite String.eqb_refl.
    + now rewrite E, IH.
Qed.

Lemma prop_set_unchanged {A : Type} (o : list (string * A)) k x :
  prop_get k o = Some x -> prop_set o k x = o.
Proof.
  induction o as [|[k' v'] o IH]; simpl; [discriminate|].
  destruct (String.eqb k k') eqn:E.
  - apply String.eqb_eq in E. subst. now intros [= ->].
  - intros H. now rewrite IH.
Qed.

Lemma prop_get_last {A : Type} (o : list (string * A)) k x :
  ~ In k (keysOf o) -> prop_get k (o ++ [(k, x)]) = Some x.
Proof.
  intros H. rewrite <- (prop_set_fresh o k x H). apply prop_get_set_same.
Qed.

Lemma prop_set_last {A : Type} (o : list (string * A)) k x y :
  ~ In k (keysOf o) -> prop_set (o ++ [(k, x)]) k y = o ++ [(k, y)].
Proof.
  intros H. rewrite <- (prop_set_fresh o k x H), prop_set_set.
  now apply prop_set_fresh.
Qed.

Lemma lookupAt_updateAt ps f : forall root inner,
  lookupAt ps root = Some inner ->
  lookupAt ps (updateAt ps f root) = Some (f inner).
Proof.
  induction ps as [|p ps IH]; simpl; intros root inner H; [congruence|].
  destruct (prop_get p root) as [[| | | | | |o]|] eqn:E; try discriminate.
  rewrite prop_get_set_same. now apply IH.
Qed.

Lemma updateAt_updateAt ps f g : forall root inner,
  lookupAt ps root = Some inner ->
  updateAt ps g (updateAt ps f root) = updateAt ps (fun x => g (f x)) root.
Proof.
  induction ps as [|p ps IH]; simpl; intros root inner H; [reflexivity|].
  destruct (prop_get p root) as [[| | | | | |o]|] eqn:E; try discriminate.
  rewrite prop_get_set_same, prop_set_set. erewrite IH; eauto.
Qed.

Lemma updateAt_ext ps f g : forall root inner,
  lookupAt ps root = Some inner -> f inner = g inner ->
  updateAt ps f root = updateAt ps g root.
Proof.
  induction ps as [|p ps IH]; simpl; intros root inner H Hfg; [congruence|].
  destruct (prop_get p root) as [[| | | | | |o]|] eqn:E; try discriminate.
  erewrite IH; eauto.
Qed.

Lemma updateAt_same ps f : forall root inner,
  lookupAt ps root = Some inner -> f inner = inner ->
  updateAt ps f root = root.
Proof.
  induction ps as [|p ps IH]; simpl; intros root inner H Hf; [congruence|].
  destruct (prop_get p root) as [[| | | | | |o]|] eqn:E; try discriminate.
  erewrite IH; eauto. now apply prop_set_unchanged.
Qed.

Lemma lookupAt_app ps qs : forall root inner,
  lookupAt ps root = Some inner ->
  lookupAt (ps ++ qs) root = lookupAt qs inner.
Proof.
  induction ps as [|p ps IH]; simpl; intros root inner H; [congruence|].
  destruct (prop_get p root) as [[| | | | | |o]|] eqn:E; try discriminate.
  now apply IH.
Qed.

Lemma updateAt_app ps qs g : forall root inner,
  lookupAt ps root = Some inner ->
  updateAt (ps ++ qs) g root = updateAt ps (updateAt qs g) root.
Proof.
  induction ps as [|p ps IH]; simpl; intros root inner H; [reflexivity|].
  destruct (prop_get p root) as [[| | | | | |o]|] eqn:E; try discriminate.
  erewrite IH; eauto.
Qed.

(** Filling an object that was appended empty at [k] is appending it
    filled. *)
Lemma updateAt_created ps k g root inner :
  lookupAt ps root = Some inner -> ~ In k (keysOf inner) ->
  updateAt (ps ++ [k]) g (updateAt ps (fun e => e ++ [(k, VObj [])]) root)
  = updateAt ps (fun e => e ++ [(k, VObj (g []))]) root.
Proof.
  intros H Hk.
  erewrite updateAt_app by (apply lookupAt_updateAt; exact H).
  erewrite updateAt_updateAt by exact H.
  apply updateAt_ext with (inner := inner); [exact H|].
  simpl. rewrite prop_get_last by exact Hk. now apply prop_set_last.
Qed.
End PathFacts.

(** ** [unflattenObject] one key at a time *)

Section AssignFacts.
Import TSConfigAdapter.

Lemma assignPath_descend root p inner keys v :
  prop_get p root = Some (VObj inner) -> keys <> [] ->
  assignPath (VObj root) (p :: keys) v
  = bind (assignPath (VObj inner) keys v)
         (fun child => Returns (VObj (prop_set root p child))).
Proof.
  intros Hp Hk. destruct keys as [|q rest]; [congruence|].
  change (assignPath (VObj root) (p :: q :: rest) v)
    with (present <- hasProperty p (VObj root) ;;
          child <- assignPath (if present then getProperty (VObj root) p
                               else VObj []) (q :: rest) v ;;
          setProperty (VObj root) p child).
  simpl hasProperty. simpl getProperty.
  assert (Hin : prop_in p root = true) by (apply prop_in_get; eauto).
  rewrite Hin, Hp. cbn [bind]. unfold setProperty.
  destruct (assignPath (VObj inner) (q :: rest) v) as [child|e];
    cbn [bind]; [|reflexivity].
  now rewrite (object_set_own root p child Hin).
Qed.

Lemma assignPath_create root p keys v :
  p <> "__proto__" ->
  prop_in p root = false -> keys <> [] ->
  assignPath (VObj root) (p :: keys) v
  = bind (assignPath (VObj []) keys v)
         (fun child => Returns (VObj (prop_set root p child))).
Proof.
  intros Hproto Hp Hk. destruct keys as [|q rest]; [congruence|].
  change (assignPath (VObj root) (p :: q :: rest) v)
    with (present <- hasProperty p (VObj root) ;;
          child <- assignPath (if present then getProperty (VObj root) p
                               else VObj []) (q :: rest) v ;;
          setProperty (VObj root) p child).
  simpl hasProperty. rewrite Hp. cbn [bind]. unfold setProperty.
  destruct (assignPath (VObj []) (q :: rest) v) as [child|e];
    cbn [bind]; [|reflexivity].
  now rewrite (object_set_plain root child Hproto).
Qed.

(** Assigning a leaf below an object that is there. *)
Lemma assignPath_leaf ps k v : forall root inner,
  k <> "__proto__" ->
  lookupAt ps root = Some inner ->
  assignPath (VObj root) (ps ++ [k]) v
  = Returns (VObj (updateAt ps (fun e => prop_set e k v) root)).
Proof.
  induction ps as [|p ps IH]; intros root inner Hproto H.
  { simpl. now rewrite (object_set_plain root v Hproto). }
  simpl in H.
  destruct (prop_get p root) as [[| | | | | |o]|] eqn:E; try discriminate.
  change ((p :: ps) ++ [k]) with (p :: (ps ++ [k])).
  erewrite assignPath_descend; [|exact E | now destruct ps].
  rewrite (IH o inner Hproto H). simpl. now rewrite E.
Qed.

(** The first assignment below a key that is not there yet does what it
    would do had the key been created with an empty object. *)
Lemma assignPath_creates ps k rest v : forall root inner,
  k <> "__proto__" ->
  lookupAt ps root = Some inner -> ~ In k (keysOf inner) -> rest <> [] ->
  assignPath (VObj root) (ps ++ k :: rest) v
  = assignPath (VObj (updateAt ps (fun e => e ++ [(k, VObj [])]) root))
               (ps ++ k :: rest) v.
Proof.
  induction ps as [|p ps IH]; intros root inner Hproto H Hk Hrest; simpl in H.
  - injection H as <-.
    assert (Hno : prop_in k root = false).
    { destruct (prop_in k root) eqn:E; [|reflexivity].
      apply prop_in_keys in E. contradiction. }
    change ([] ++ k :: rest) with (k :: rest).
    change (updateAt [] (fun e => e ++ [(k, VObj [])]) root)
      with (root ++ [(k, VObj [])]).
    rewrite assignPath_create by assumption.
    erewrite assignPath_descend; [|now apply prop_get_last | exact Hrest].
    destruct (assignPath (VObj []) rest v) as [child|e]; simpl; [|reflexivity].
    now rewrite prop_set_last, prop_set_fresh.
  - destruct (prop_get p root) as [[| | | | | |o]|] eqn:E; try discriminate.
    assert (Hne : ps ++ k :: rest <> []) by (now destruct ps).
    change ((p :: ps) ++ k :: rest) with (p :: (ps ++ k :: rest)).
    cbn [updateAt]. rewrite E.
    erewrite assignPath_descend; [|exact E | exact Hne].
    erewrite (@assignPath_descend (prop_set root p _));
      [|apply prop_get_set_same | exact Hne].
    rewrite <- (IH o inner Hproto H Hk Hrest).
    destruct (assignPath (VObj o) (ps ++ k :: rest) v) as [child|e]; simpl;
      [|reflexivity].
    now rewrite prop_set_set.
Qed.

Lemma unflattenInto_app flat1 flat2 : forall result,
  unflattenInto result (flat1 ++ flat2)
  = bind (unflattenInto result flat1) (fun r => unflattenInto r flat2).
Proof.
  induction flat1 as [|[key v] flat1 IH]; simpl; intros result; [reflexivity|].
  destruct (assignPath result (splitDot key) v); simpl; [apply IH | reflexivity].
Qed.
End AssignFacts.

(** ** Flattening, then unflattening *)

Section RoundTrip.
Import TSConfigAdapter.

Lemma freshFor_block ps k (o block : list (string * JSValue)) :
  ~ In k (keysOf o) ->
  (forall key, In key (keysOf block) ->
               exists rest, splitDot key = ps ++ k :: rest) ->
  freshFor ps (keysOf o) block.
Proof.
  intros Hk Hb key Hkey k' rest' Hin H.
  destruct (Hb key Hkey) as [rest H0]. rewrite H0 in H.
  apply app_inv_head in H. injection H as -> _. contradiction.
Qed.

Lemma flattenLoop_nil_leaf prefix ps k v o :
  prefixPath prefix ps -> plainKey k = true -> ~ In k (keysOf o) ->
  (forall o', v <> VObj o') -> nestedEntries o ->
  flattenLoop prefix ((k, v) :: o) []
  = (joinKey prefix k, v) :: flattenLoop prefix o [].
Proof.
  intros Hp Hk Hnew Hleaf Ho.
  rewrite (@flattenLoop_leaf prefix ps k v o _ Hp Hk Hleaf). simpl prop_set.
  destruct (flattenLoop_facts Ho Hp) as [H1 _]. rewrite H1; [reflexivity|].
  apply freshFor_block with (k := k); [exact Hnew|].
  intros key [<-|[]]. exists []. now apply splitDot_join.
Qed.

Lemma flattenLoop_nil_object prefix ps k o' o :
  prefixPath prefix ps -> plainKey k = true -> ~ In k (keysOf o) ->
  nestedEntries o' -> nestedEntries o ->
  flattenLoop prefix ((k, VObj o') :: o) []
  = flattenLoop (joinKey prefix k) o' [] ++ flattenLoop prefix o [].
Proof.
  intros Hp Hk Hnew Ho' Ho.
  rewrite flattenLoop_object.
  destruct (flattenLoop_facts Ho' (@prefixPath_join prefix ps k Hp Hk))
    as [_ [B2 B3]].
  rewrite prop_assign_fresh; [|exact B3 | intros key _ []]. simpl app.
  destruct (flattenLoop_facts Ho Hp) as [H1 _]. rewrite H1; [reflexivity|].
  apply freshFor_block with (k := k); [exact Hnew|].
  intros key Hkey. destruct (B2 key Hkey) as [k' [rest [_ H0]]].
  exists (k' :: rest). rewrite H0. now rewrite <- app_assoc.
Qed.

Lemma flattenLoop_nonempty o :
  nestedEntries o -> o <> [] ->
  forall prefix ps, prefixPath prefix ps -> flattenLoop prefix o [] <> [].
Proof.
  induction 1 as [|k v o Hk Hnew Hleaf Ho IHo
                  |k o' o Hk Hnew Hne Ho' IHo' Ho IHo];
    intros Hnil prefix ps Hp; [congruence| |].
  - rewrite (@flattenLoop_nil_leaf prefix ps k v o Hp Hk Hnew Hleaf Ho). discriminate.
  - rewrite (@flattenLoop_nil_object prefix ps k o' o Hp Hk Hnew Ho' Ho).
    intros H. apply app_eq_nil in H. destruct H as [H _].
    exact (IHo' Hne _ _ (@prefixPath_join prefix ps k Hp Hk) H).
Qed.

(** Unflattening what [flattenObject] made of nested entries appends them
    to the object at the path of the prefix. *)
Lemma unflatten_flatten o :
  nestedEntries o ->
  forall prefix ps root inner,
    prefixPath prefix ps ->
    lookupAt ps root = Some inner ->
    (forall k, In k (keysOf o) -> ~ In k (keysOf inner)) ->
    unflattenInto (VObj root) (flattenLoop prefix o [])
    = Returns (VObj (updateAt ps (fun e => e ++ o) root)).
Proof.
  induction 1 as [|k v o Hk Hnew Hleaf Ho IHo
                  |k o' o Hk Hnew Hne Ho' IHo' Ho IHo];
    intros prefix ps root inner Hp Hlook Hdisj.
  - simpl. f_equal. f_equal. symmetry.
    apply updateAt_same with (inner := inner); [exact Hlook|].
    apply app_nil_r.
  - rewrite (@flattenLoop_nil_leaf prefix ps k v o Hp Hk Hnew Hleaf Ho).
    cbn [unflattenInto]. rewrite (@splitDot_join prefix ps k Hp Hk).
    rewrite (@assignPath_leaf ps k v root inner
               (inheritedName_proto (plainKey_own k Hk)) Hlook).
    cbn [bind].
    assert (Hfresh : ~ In k (keysOf inner)) by (apply Hdisj; now left).
    erewrite IHo; [|exact Hp | apply lookupAt_updateAt; exact Hlook |].
    + f_equal. f_equal. erewrite updateAt_updateAt by exact Hlook.
      apply updateAt_ext with (inner := inner); [exact Hlook|].
      rewrite prop_set_fresh by exact Hfresh. now rewrite <- app_assoc.
    + intros k' Hk'. rewrite prop_set_fresh by exact Hfresh.
      rewrite keysOf_app, in_app_iff. simpl.
      intros [H|[<-|[]]]; [|contradiction].
      apply (Hdisj k'); [now right | exact H].
  - rewrite (@flattenLoop_nil_object prefix ps k o' o Hp Hk Hnew Ho' Ho), unflattenInto_app.
    assert (Hfresh : ~ In k (keysOf inner)) by (apply Hdisj; now left).
    pose proof (@prefixPath_join prefix ps k Hp Hk) as Hp'.
    assert (Hblock : unflattenInto (VObj root)
                                   (flattenLoop (joinKey prefix k) o' [])
                     = Returns (VObj (updateAt ps
                                        (fun e => e ++ [(k, VObj o')]) root))).
    { destruct (flattenLoop (joinKey prefix k) o' []) as [|[key1 v1] rest1]
        eqn:Eb; [now destruct (@flattenLoop_nonempty o' Ho' Hne _ _ Hp')|].
      destruct (flattenLoop_facts Ho' Hp') as [_ [B2 _]].
      destruct (B2 key1) as [k1 [rest [_ Hsplit]]];
        [rewrite Eb; now left|].
      rewrite <- app_assoc in Hsplit. simpl in Hsplit.
      assert (Hsame : unflattenInto (VObj root) ((key1, v1) :: rest1)
                      = unflattenInto
                          (VObj (updateAt ps (fun e => e ++ [(k, VObj [])])
                                          root))
                          ((key1, v1) :: rest1)).
      { cbn [unflattenInto]. rewrite Hsplit.
        erewrite assignPath_creates;
          [reflexivity | exact (inheritedName_proto (plainKey_own k Hk))
           | exact Hlook | exact Hfresh | discriminate]. }
      rewrite Hsame, <- Eb.
      assert (Hcreated : lookupAt (ps ++ [k])
                                  (updateAt ps (fun e => e ++ [(k, VObj [])])
                                            root)
                         = Some []).
      { erewrite lookupAt_app by (apply lookupAt_updateAt; exact Hlook).
        simpl. now rewrite prop_get_last. }
      rewrite (IHo' _ _ _ [] Hp' Hcreated); [|intros ? _ []].
      f_equal. f_equal.
      erewrite updateAt_created; [reflexivity | exact Hlook | exact Hfresh]. }
    rewrite Hblock. cbn [bind].
    erewrite IHo; [|exact Hp | apply lookupAt_updateAt; exact Hlook |].
    + f_equal. f_equal. erewrite updateAt_updateAt by exact Hlook.
      apply updateAt_ext with (inner := inner); [exact Hlook|].
      now rewrite <- app_assoc.
    + intros k' Hk'. rewrite keysOf_app, in_app_iff. simpl.
      intros [H|[<-|[]]]; [|contradiction].
      apply (Hdisj k'); [now right | exact H].
Qed.
End RoundTrip.

(** C9 as stated fails on an empty nested object, which flattening drops;
    on a key with a dot, which unflattening splits; on a nested object
    under the empty key, whose fields come back at the top; on an own
    property [__proto__], which flattening drops; and on two documents
    that disagree about the nesting, whose merge throws although the
    entry's field is overridden by nothing. *)
Lemma flatten_round_trip_counterexample :
  (TSConfigAdapter.unflattenObject
     (TSConfigAdapter.flattenObject Disk.emptyOptions "")
   = Returns (VObj []) /\
   VObj [] <> VObj Disk.emptyOptions) /\
  (TSConfigAdapter.unflattenObject
     (TSConfigAdapter.flattenObject Disk.dottedKey "")
   = Returns (VObj [("a", VObj [("b", VNum 1)])]) /\
   VObj [("a", VObj [("b", VNum 1)])] <> VObj Disk.dottedKey) /\
  (TSConfigAdapter.unflattenObject
     (TSConfigAdapter.flattenObject Disk.emptyKey "")
   = Returns (VObj [("b", VNum 1)]) /\
   VObj [("b", VNum 1)] <> VObj Disk.emptyKey) /\
  (TSConfigAdapter.unflattenObject
     (TSConfigAdapter.flattenObject Disk.protoKey "")
   = Returns (VObj [("strict", VBool true)]) /\
   VObj [("strict", VBool true)] <> VObj Disk.protoKey) /\
  (forall now, TSConfigAdapter.mergeTSConfigs Disk.clash now
               = Throws TypeError).
Proof. repeat split; discriminate. Qed.

Lemma unflattenObject_flattenObject (doc : list (string * JSValue)) :
  nestedEntries doc ->
  TSConfigAdapter.unflattenObject (TSConfigAdapter.flattenObject doc "")
  = Returns (VObj doc).
Proof.
  intros Hdoc. unfold TSConfigAdapter.unflattenObject.
  change (TSConfigAdapter.flattenObject doc "") with (flattenLoop "" doc []).
  rewrite (@unflatten_flatten doc Hdoc "" [] [] []);
    [reflexivity | left; auto | reflexivity | intros k _ []].
Qed.

Lemma nestedEntries_keys o k :
  nestedEntries o -> In k (keysOf o) -> plainKey k = true.
Proof.
  induction 1 as [|k' v o Hk Hnew Hleaf Ho IHo
                  |k' o' o Hk Hnew Hne Ho' IHo' Ho IHo]; simpl.
  - intros [].
  - intros [<-|H]; auto.
  - intros [<-|H]; auto.
Qed.

(** No key of a flattened document is [__proto__]. *)
Lemma flattenObject_proto doc :
  nestedEntries doc ->
  ~ In "__proto__" (keysOf (TSConfigAdapter.flattenObject doc "")).
Proof.
  intros Hdoc Hin.
  change (TSConfigAdapter.flattenObject doc "") with (flattenLoop "" doc [])
    in Hin.
  destruct (@flattenLoop_facts doc Hdoc "" [] (or_introl (conj eq_refl eq_refl)))
    as [_ [H2 _]].
  destruct (H2 _ Hin) as [k [rest [Hk Hsplit]]].
  simpl in Hsplit. injection Hsplit as <- _.
  pose proof (@nestedEntries_keys doc _ Hdoc Hk) as Hplain.
  discriminate Hplain.
Qed.

(** ** A single document through the merge *)

Section SingleDocument.
Import Explained.

Lemma fold_set_add_fresh ks : forall acc,
  NoDup ks -> (forall k, In k ks -> ~ In k acc) ->
  fold_left set_add ks acc = acc ++ ks.
Proof.
  induction ks as [|k ks IH]; simpl; intros acc Hnd Hfresh;
    [now rewrite app_nil_r|].
  inversion Hnd as [|? ? Hk Hks]; subst.
  assert (Hno : set_has k acc = false).
  { destruct (set_has k acc) eqn:E; [|reflexivity].
    apply set_has_In in E. destruct (Hfresh k (or_introl eq_refl) E). }
  unfold set_add at 2. rewrite Hno.
  rewrite IH; [now rewrite <- app_assoc | exact Hks |].
  intros k' Hk' Hin. apply in_app_iff in Hin.
  destruct Hin as [Hin|[<-|[]]]; [|contradiction].
  apply (Hfresh k'); [now right | exact Hin].
Qed.

Lemma flat_map_agree {A B : Type} (f g : A -> list B) (l : list A) :
  (forall a, In a l -> f a = g a) -> flat_map f l = flat_map g l.
Proof.
  induction l as [|a l IH]; simpl; intros H; [reflexivity|].
  rewrite (H a) by now left. f_equal. apply IH. intros. apply H. now right.
Qed.

Lemma entries_of_keys (flat : list (string * JSValue)) (f : string -> JSValue) :
  NoDup (keysOf flat) ->
  (forall k v, In (k, v) flat -> f k = v) ->
  flat_map (fun k => [(k, f k)]) (keysOf flat) = flat.
Proof.
  induction flat as [|[k v] flat IH]; simpl; intros Hnd Hf; [reflexivity|].
  inversion Hnd as [|? ? Hk Hrest]; subst.
  rewrite (Hf k v) by now left. f_equal. apply IH; auto.
Qed.

Lemma prop_get_In {A : Type} (o : list (string * A)) k v :
  NoDup (keysOf o) -> In (k, v) o -> prop_get k o = Some v.
Proof.
  induction o as [|[k' v'] o IH]; simpl; intros Hnd Hin; [destruct Hin|].
  inversion Hnd as [|? ? Hk Hrest]; subst.
  destruct Hin as [[= -> ->]|Hin]; [now rewrite String.eqb_refl|].
  destruct (String.eqb k k') eqn:E; [|now apply IH].
  apply String.eqb_eq in E. subst k'. exfalso. apply Hk.
  change k with (fst (k, v)). now apply in_map.
Qed.

(** Merging one source made by [Explained.from] from an object returns the
    object. *)
Lemma merge_single_source flat src rsn prec loc now :
  NoDup (keysOf flat) ->
  ~ In "__proto__" (keysOf flat) ->
  exists merged,
    merge [from (VObj flat) src rsn prec loc now] = Returns merged /\
    value merged = VObj flat.
Proof.
  intros Hnd Hproto. set (w := from (VObj flat) src rsn prec loc now).
  exists (mergeClosedForm [w]). split.
  - apply merge_closed. repeat constructor.
  - unfold mergeClosedForm. cbn [value]. f_equal.
    assert (Hkeys : collectKeys [w] = keysOf flat).
    { unfold collectKeys. simpl.
      rewrite fold_set_add_fresh; auto. }
    rewrite Hkeys.
    rewrite <- (@entries_of_keys flat (getProperty (VObj flat)) Hnd) at 2.
    + apply flat_map_agree. intros k Hk.
      assert (Hp : String.eqb k "__proto__" = false).
      { apply String.eqb_neq. intros ->. now apply Hproto. }
      unfold valueEntry, ranked, candidates. simpl.
      unfold contribution. simpl.
      apply prop_in_keys in Hk. rewrite Hk. simpl. now rewrite Hp.
    + intros k v Hin. simpl. now rewrite (@prop_get_In _ flat k v Hnd Hin).
Qed.

Lemma setExplanations_value (merged : t) paths : forall result,
  value
    (fold_left
       (fun result p =>
          match explain merged (Some p) false with
          | [] => result
          | l => _setExplanations result p l
          end) paths result)
  = value result.
Proof.
  induction paths as [|p paths IH]; intros result; [reflexivity|].
  cbn [fold_left]. rewrite IH.
  destruct (explain merged (Some p) false); reflexivity.
Qed.
End SingleDocument.

(** ** Several documents through the merge *)

Lemma explainChain_objects now chain : forall i,
  Forall (fun w => truthyPrimitive (Explained.value w) = false)
         (TSConfigAdapter.explainChain now i chain).
Proof.
  induction chain as [|r chain IH]; simpl; intros i; constructor;
    [reflexivity | apply IH].
Qed.

Lemma explainChain_app now l1 : forall i l2,
  TSConfigAdapter.explainChain now i (l1 ++ l2)
  = TSConfigAdapter.explainChain now i l1
      ++ TSConfigAdapter.explainChain now (i + List.length l1) l2.
Proof.
  induction l1 as [|r l1 IH]; simpl; intros i l2.
  - now rewrite Nat.add_0_r.
  - rewrite IH. now rewrite Nat.add_succ_r.
Qed.

Lemma explainChain_candidates now key l : forall i c,
  In c (candidates key (TSConfigAdapter.explainChain now i l)) ->
  exists d, In d l /\
            prop_in key (TSConfigAdapter.flattenObject
                           (tsc_fields (config d)) "") = true /\
            precedence c = res_precedence d.
Proof.
  induction l as [|d l IH]; simpl; intros i c H; [destruct H|].
  unfold candidates in H. simpl in H. apply in_app_iff in H.
  destruct H as [H|H].
  - unfold contribution in H. simpl in H.
    destruct (prop_in key (TSConfigAdapter.flattenObject
                             (tsc_fields (config d)) "")) eqn:E;
      [|destruct H].
    destruct H as [<-|[]]. exists d. auto.
  - destruct (IH _ _ H) as [y [Hy Hrest]]. exists y.
    split; [now right | exact Hrest].
Qed.


(** ** Paths through nested objects *)

Section TrieFacts.
Import TSConfigAdapter.
Implicit Types (o : list (string * JSValue)) (ks q : list string).

Lemma insertPath_step k k' rest v o :
  insertPath (k :: k' :: rest) v o
  = match prop_get k o with
    | Some (VObj inner) => prop_set o k (VObj (insertPath (k' :: rest) v inner))
    | Some _ => o
    | None => prop_set o k (VObj (insertPath (k' :: rest) v []))
    end.
Proof. reflexivity. Qed.

Lemma fits_step k k' rest o :
  fits (k :: k' :: rest) o
  = match prop_get k o with
    | Some (VObj inner) => fits (k' :: rest) inner
    | Some _ => false
    | None => true
    end.
Proof. reflexivity. Qed.

Lemma fits_nil ks : fits ks [] = true.
Proof. destruct ks as [|k [|k' rest]]; reflexivity. Qed.

Lemma comparable_sym p : forall q, comparable p q = comparable q p.
Proof.
  induction p as [|a p IH]; intros [|b q]; simpl; try reflexivity.
  now rewrite IH, String.eqb_sym.
Qed.

(** On a path that fits, the loop returns what [insertPath] describes. *)
Lemma assignPath_insert ks v : forall o,
  ks <> [] -> Forall (fun k => k <> "__proto__") ks -> fits ks o = true ->
  assignPath (VObj o) ks v = Returns (VObj (insertPath ks v o)).
Proof.
  induction ks as [|k rest IH]; intros o Hne Hp Hfit; [congruence|].
  inversion Hp as [|? ? Hk Hrest]; subst.
  destruct rest as [|k' rest].
  - simpl. now rewrite (object_set_plain o v Hk).
  - rewrite insertPath_step. rewrite fits_step in Hfit.
    destruct (prop_get k o) as [[| | | | | |inner]|] eqn:E; try discriminate.
    + rewrite (@assignPath_descend o k inner (k' :: rest) v E)
        by discriminate.
      rewrite (IH inner) by (auto; discriminate). reflexivity.
    + assert (Hin : prop_in k o = false).
      { destruct (prop_in k o) eqn:Ein; [|reflexivity].
        apply prop_in_get in Ein. destruct Ein as [x Hx]. congruence. }
      rewrite (@assignPath_create o k (k' :: rest) v Hk Hin) by discriminate.
      rewrite (IH []) by (auto using fits_nil; discriminate). reflexivity.
Qed.

Lemma nodeAt_cons k q o :
  nodeAt (k :: q) (VObj o)
  = match prop_get k o with
    | Some child => nodeAt q child
    | None => None
    end.
Proof. reflexivity. Qed.

Lemma nodeAt_insert_same ks v : forall o,
  ks <> [] -> fits ks o = true ->
  nodeAt ks (VObj (insertPath ks v o)) = Some v.
Proof.
  induction ks as [|k rest IH]; intros o Hne Hfit; [congruence|].
  destruct rest as [|k' rest].
  - simpl. now rewrite prop_get_set_same.
  - rewrite insertPath_step. rewrite fits_step in Hfit.
    rewrite nodeAt_cons.
    destruct (prop_get k o) as [[| | | | | |inner]|] eqn:E; try discriminate.
    + rewrite prop_get_set_same. apply IH; [discriminate | exact Hfit].
    + rewrite prop_get_set_same. apply IH; [discriminate | apply fits_nil].
Qed.

Lemma nodeAt_empty q : q <> [] -> nodeAt q (VObj []) = None.
Proof. destruct q; [congruence | reflexivity]. Qed.

(** A path that does not run along [ks] leads where it led before. *)
Lemma nodeAt_insert_other ks v : forall q o,
  comparable q ks = false ->
  nodeAt q (VObj (insertPath ks v o)) = nodeAt q (VObj o).
Proof.
  induction ks as [|b ks IH]; intros [|a q] o Hc; try discriminate.
  simpl in Hc. rewrite !nodeAt_cons.
  destruct (String.eqb a b) eqn:Eab.
  - apply String.eqb_eq in Eab. subst b. simpl in Hc.
    destruct ks as [|k' rest]; [now destruct q|].
    assert (Hq : q <> []) by (destruct q; [discriminate | discriminate]).
    rewrite insertPath_step.
    destruct (prop_get a o) as [[| | | | | |inner]|] eqn:E;
      try (now rewrite E).
    + rewrite prop_get_set_same. now apply IH.
    + rewrite prop_get_set_same. rewrite IH by exact Hc.
      now apply nodeAt_empty.
  - assert (Hne : a <> b) by now apply String.eqb_neq.
    assert (Hget : prop_get a (insertPath (b :: ks) v o) = prop_get a o).
    { destruct ks as [|k' rest].
      - simpl. now apply prop_get_set_other.
      - rewrite insertPath_step.
        destruct (prop_get b o) as [[| | | | | |inner]|];
          try reflexivity; now apply prop_get_set_other. }
    now rewrite Hget.
Qed.

(** ... and fits afterwards if it did before. *)
Lemma fits_insert ks v : forall q o,
  comparable q ks = false -> fits ks o = true -> fits q o = true ->
  fits q (insertPath ks v o) = true.
Proof.
  induction ks as [|b ks IH]; intros [|a q] o Hc Hks Hq; try discriminate.
  simpl in Hc.
  destruct q as [|a' q]; [reflexivity|].
  rewrite fits_step in Hq |- *.
  destruct (String.eqb a b) eqn:Eab.
  - apply String.eqb_eq in Eab. subst b. simpl in Hc.
    destruct ks as [|k' rest]; [discriminate|].
    rewrite insertPath_step. rewrite fits_step in Hks.
    destruct (prop_get a o) as [[| | | | | |inner]|] eqn:E; try discriminate.
    + rewrite prop_get_set_same. now apply IH.
    + rewrite prop_get_set_same. apply IH; auto using fits_nil.
  - assert (Hne : a <> b) by now apply String.eqb_neq.
    assert (Hget : prop_get a (insertPath (b :: ks) v o) = prop_get a o).
    { destruct ks as [|k' rest].
      - simpl. now apply prop_get_set_other.
      - rewrite insertPath_step.
        destruct (prop_get b o) as [[| | | | | |inner]|];
          try reflexivity; now apply prop_get_set_other. }
    now rewrite Hget.
Qed.

(** Flat keys that do not contradict each other unflatten without error,
    each to the place its dotted path names. *)
Lemma unflattenInto_places flat : forall o,
  Forall (fun kv => Forall (fun k => k <> "__proto__") (splitDot (fst kv)))
         flat ->
  ForallOrdPairs
    (fun a b => comparable (splitDot (fst a)) (splitDot (fst b)) = false)
    flat ->
  Forall (fun kv => fits (splitDot (fst kv)) o = true) flat ->
  exists u,
    unflattenInto (VObj o) flat = Returns (VObj u) /\
    (forall k v, In (k, v) flat -> nodeAt (splitDot k) (VObj u) = Some v) /\
    (forall q,
        Forall (fun kv => comparable q (splitDot (fst kv)) = false) flat ->
        nodeAt q (VObj u) = nodeAt q (VObj o)).
Proof.
  induction flat as [|[key v] flat IH]; intros o Hp Hpairs Hfit.
  - exists o. split; [reflexivity|]. split; [intros k v []|auto].
  - inversion Hp as [|? ? Hp1 Hp2]; subst.
    inversion Hpairs as [|? ? Hfirst Hrest]; subst.
    inversion Hfit as [|? ? Hf1 Hf2]; subst.
    cbn [fst] in *.
    cbn [unflattenInto].
    rewrite (@assignPath_insert (splitDot key) v o
               (@splitDot_nonempty key) Hp1 Hf1).
    cbn [bind].
    destruct (IH (insertPath (splitDot key) v o) Hp2 Hrest) as [u [Hu [Hin Hout]]].
    { rewrite Forall_forall in *. intros kv Hkv.
      apply fits_insert; [|exact Hf1 | now apply Hf2].
      rewrite comparable_sym. now apply Hfirst. }
    exists u. split; [exact Hu|]. split.
    + intros k x [[= <- <-]|Hk]; [|now apply Hin].
      rewrite Hout by exact Hfirst.
      apply nodeAt_insert_same; [apply splitDot_nonempty | exact Hf1].
    + intros q Hq. inversion Hq as [|? ? Hq1 Hq2]; subst. cbn [fst] in *.
      rewrite (Hout q Hq2). now apply nodeAt_insert_other.
Qed.
End TrieFacts.

Section ChainFacts.
Import TSConfigAdapter.

(** The segments of the flat keys of nested entries are plain keys. *)
Lemma flattenLoop_segments o :
  nestedEntries o ->
  forall prefix ps,
    prefixPath prefix ps ->
    Forall (fun k => plainKey k = true) ps ->
    forall key, In key (keysOf (flattenLoop prefix o [])) ->
                Forall (fun k => plainKey k = true) (splitDot key).
Proof.
  induction 1 as [|k v o Hk Hnew Hleaf Ho IHo
                  |k o' o Hk Hnew Hne Ho' IHo' Ho IHo];
    intros prefix ps Hp Hps key Hin.
  - destruct Hin.
  - rewrite (@flattenLoop_nil_leaf prefix ps k v o Hp Hk Hnew Hleaf Ho) in Hin.
    cbn [keysOf map fst] in Hin.
    destruct Hin as [<-|Hin]; [|now apply (IHo prefix ps)].
    rewrite (@splitDot_join prefix ps k Hp Hk).
    apply Forall_app. split; [exact Hps | now constructor].
  - rewrite (@flattenLoop_nil_object prefix ps k o' o Hp Hk Hnew Ho' Ho) in Hin.
    rewrite keysOf_app, in_app_iff in Hin.
    destruct Hin as [Hin|Hin]; [|now apply (IHo prefix ps)].
    apply (IHo' (joinKey prefix k) (ps ++ [k])); auto.
    + now apply prefixPath_join.
    + apply Forall_app. split; [exact Hps | now constructor].
Qed.

Lemma flattenObject_segments doc key :
  nestedEntries doc ->
  In key (keysOf (flattenObject doc "")) ->
  Forall (fun k => plainKey k = true) (splitDot key).
Proof.
  intros Hdoc Hin.
  apply (@flattenLoop_segments doc Hdoc "" []); auto.
  left. auto.
Qed.

Lemma plain_segments_proto ks :
  Forall (fun k => plainKey k = true) ks ->
  Forall (fun k => k <> "__proto__") ks.
Proof.
  apply Forall_impl. intros k Hk. apply inheritedName_proto.
  now apply plainKey_own.
Qed.

Lemma explainChain_value now l : forall i w,
  In w (explainChain now i l) ->
  exists d, In d l /\
            Explained.value w = VObj (flattenObject (tsc_fields (config d)) "").
Proof.
  induction l as [|d l IH]; simpl; intros i w H; [destruct H|].
  destruct H as [<-|H]; [exists d; auto|].
  destruct (IH _ _ H) as [d' [Hd Hv]]. exists d'. auto.
Qed.

Lemma flatKeys_In chain key :
  In key (flatKeys chain) <->
  exists d, In d chain /\
            In key (keysOf (flattenObject (tsc_fields (config d)) "")).
Proof. unfold flatKeys. apply in_flat_map. Qed.

Lemma shapesAgree_inv chain k1 k2 :
  shapesAgree chain = true ->
  In k1 (flatKeys chain) -> In k2 (flatKeys chain) -> k1 <> k2 ->
  comparable (splitDot k1) (splitDot k2) = false.
Proof.
  unfold shapesAgree. intros H H1 H2 Hne.
  rewrite forallb_forall in H. specialize (H k1 H1).
  rewrite forallb_forall in H. specialize (H k2 H2).
  apply orb_true_iff in H. destruct H as [H|H].
  - apply String.eqb_eq in H. contradiction.
  - now apply negb_true_iff in H.
Qed.

Lemma pairs_of_distinct_keys (R : string -> string -> Prop)
      (flat : list (string * JSValue)) :
  NoDup (keysOf flat) ->
  (forall k1 k2, In k1 (keysOf flat) -> In k2 (keysOf flat) -> k1 <> k2 ->
                 R k1 k2) ->
  ForallOrdPairs (fun a b => R (fst a) (fst b)) flat.
Proof.
  induction flat as [|[k v] flat IH]; simpl; intros Hnd HR; constructor.
  - inversion Hnd as [|? ? Hk Hrest]; subst.
    apply Forall_forall. intros [k' v'] Hin. simpl.
    assert (Hk' : In k' (keysOf flat)).
    { change k' with (fst (k', v')). now apply in_map. }
    apply HR; auto. intros ->. contradiction.
  - inversion Hnd; subst. apply IH; auto.
Qed.

Lemma prop_get_entry {A : Type} (o : list (string * A)) k v :
  prop_get k o = Some v -> In (k, v) o.
Proof.
  induction o as [|[k' v'] o IH]; simpl; [discriminate|].
  destruct (String.eqb k k') eqn:E.
  - apply String.eqb_eq in E. subst. intros [= ->]. now left.
  - intros H. right. now apply IH.
Qed.

(** The flat keys of one document lead, in the document, to the values
    they carry. *)
Lemma flat_key_in_document chain d key v :
  Forall (fun r => nestedEntries (tsc_fields (config r))) chain ->
  shapesAgree chain = true ->
  In d chain ->
  prop_get key (flattenObject (tsc_fields (config d)) "") = Some v ->
  nodeAt (splitDot key) (VObj (tsc_fields (config d))) = Some v.
Proof.
  intros Hnested Hshape Hd Hget.
  rewrite Forall_forall in Hnested. pose proof (Hnested d Hd) as Hdoc.
  set (flat := flattenObject (tsc_fields (config d)) "") in *.
  assert (Hnd : NoDup (keysOf flat)).
  { unfold flat. change (flattenObject (tsc_fields (config d)) "")
      with (flattenLoop "" (tsc_fields (config d)) []).
    apply (@flattenLoop_facts _ Hdoc "" []). left. auto. }
  destruct (@unflattenInto_places flat []) as [u [Hu [Hin _]]].
  - apply Forall_forall. intros [k x] Hkx. simpl.
    apply plain_segments_proto, (@flattenObject_segments _ k Hdoc).
    change k with (fst (k, x)). now apply in_map.
  - apply (@pairs_of_distinct_keys
             (fun k1 k2 => comparable (splitDot k1) (splitDot k2) = false));
      [exact Hnd|].
    intros k1 k2 H1 H2 Hne.
    apply (@shapesAgree_inv chain); auto; apply flatKeys_In; exists d; auto.
  - apply Forall_forall. intros kv _. apply fits_nil.
  - pose proof (unflattenObject_flattenObject Hdoc) as Hround.
    unfold unflattenObject in Hround. fold flat in Hround.
    rewrite Hu in Hround. injection Hround as <-.
    apply Hin. now apply prop_get_entry.
Qed.

(** A document strictly above every other document that sets a flat key
    gives the key its value in the flat merge. *)
Lemma highest_document_value now before d after key v :
  prop_get key (flattenObject (tsc_fields (config d)) "") = Some v ->
  key <> "__proto__" ->
  (forall d', In d' (before ++ after) ->
              prop_in key (flattenObject (tsc_fields (config d')) "") = true ->
              (res_precedence d' < res_precedence d)%Z) ->
  In (key, v)
     (flat_map (valueEntry (explainChain now 0 (before ++ d :: after)))
               (Explained.collectKeys
                  (explainChain now 0 (before ++ d :: after)))).
Proof.
  intros Hget Hproto Hlow.
  set (l := explainChain now 0 (before ++ d :: after)).
  set (B := explainChain now 0 before).
  set (w := Explained.from
              (VObj (flattenObject (tsc_fields (config d)) ""))
              (path d) (String.append "From " (path d))
              (res_precedence d) (Some (path d))
              (now (0 + List.length before)%nat)).
  set (A := explainChain now (S (0 + List.length before)) after).
  assert (Hl : l = B ++ w :: A).
  { unfold l. rewrite explainChain_app. reflexivity. }
  set (c := Explained.candidate
              (mkExplanation (path d)
                 (VObj (flattenObject (tsc_fields (config d)) ""))
                 (String.append "From " (path d))
                 (res_precedence d) (Some (path d)) true
                 (now (0 + List.length before)%nat))
              (VObj (flattenObject (tsc_fields (config d)) "")) key).
  assert (Hin : prop_in key (flattenObject (tsc_fields (config d)) "") = true)
    by (apply prop_in_get; eauto).
  assert (Hc : contribution key w = [c]).
  { unfold contribution, w. simpl. now rewrite Hin. }
  assert (Hcands : candidates key l
                   = candidates key B ++ c :: candidates key A).
  { rewrite Hl. unfold candidates. rewrite flat_map_app. simpl.
    now rewrite Hc. }
  assert (Hother : forall y part i,
             (forall x, In x part -> In x (before ++ after)) ->
             In y (candidates key (explainChain now i part)) ->
             (precedence y < res_precedence d)%Z).
  { intros y part i Hpart Hy.
    destruct (explainChain_candidates now key part i y Hy)
      as [d' [Hd' [Hown ->]]].
    apply Hlow; auto. }
  destruct (@arraySort_head _ Explained.compareExplanations
                            (candidates key B) c (candidates key A))
    as [tl Htl].
  { intros y Hy. apply (Hother y before 0%nat) in Hy;
      [|intros; apply in_or_app; now left].
    unfold Explained.compareExplanations.
    change (precedence c) with (res_precedence d).
    destruct (res_precedence d =? precedence y)%Z eqn:E.
    - apply Z.eqb_eq in E. lia.
    - simpl. lia. }
  { intros y Hy.
    apply (Hother y after (S (0 + List.length before))) in Hy;
      [|intros; apply in_or_app; now right].
    unfold Explained.compareExplanations.
    change (precedence c) with (res_precedence d).
    destruct (precedence y =? res_precedence d)%Z eqn:E.
    - apply Z.eqb_eq in E. lia.
    - simpl. lia. }
  assert (Hranked : ranked key l = c :: tl).
  { unfold ranked. now rewrite Hcands. }
  apply in_flat_map. exists key. split.
  - apply ranked_collected. rewrite Hranked. discriminate.
  - unfold valueEntry. rewrite Hranked.
    apply String.eqb_neq in Hproto. rewrite Hproto.
    left. unfold c. simpl. now rewrite Hget.
Qed.

(** Merging documents that agree about the nesting never fails, and puts
    the value of every flat key that a document strictly above the others
    sets at the place its dotted path names. *)
Lemma merge_documents :
  forall (chain : list TSConfigResolution) (now : nat -> Z),
    Forall (fun r => nestedEntries (tsc_fields (config r))) chain ->
    shapesAgree chain = true ->
    exists result,
      mergeTSConfigs chain now = Returns result /\
      forall before d after key v,
        chain = before ++ d :: after ->
        prop_get key (flattenObject (tsc_fields (config d)) "") = Some v ->
        (forall d', In d' (before ++ after) ->
                    prop_in key (flattenObject (tsc_fields (config d')) "")
                    = true ->
                    (res_precedence d' < res_precedence d)%Z) ->
        nodeAt (splitDot key) (VObj (tsc_fields (config d))) = Some v /\
        nodeAt (splitDot key) (Explained.value result) = Some v.
Proof.
  intros chain now Hnested Hshape.
  set (l := explainChain now 0 chain).
  set (flat := flat_map (valueEntry l) (Explained.collectKeys l)).
  assert (Hkeys : forall key, In key (keysOf flat) -> In key (flatKeys chain)).
  { intros key Hin. unfold flat in Hin. apply value_keys in Hin.
    destruct Hin as [Hin _]. apply collectKeys_In in Hin.
    destruct Hin as [w [Hw Hk]].
    apply explainChain_value in Hw. destruct Hw as [d [Hd Hv]].
    rewrite Hv in Hk. apply flatKeys_In. exists d. auto. }
  assert (Hseg : forall key, In key (flatKeys chain) ->
                             Forall (fun k => plainKey k = true)
                                    (splitDot key)).
  { intros key Hin. apply flatKeys_In in Hin. destruct Hin as [d [Hd Hk]].
    rewrite Forall_forall in Hnested.
    exact (@flattenObject_segments _ key (Hnested d Hd) Hk). }
  destruct (@unflattenInto_places flat []) as [u [Hu [Hin _]]].
  - apply Forall_forall. intros [k x] Hkx. simpl.
    apply plain_segments_proto, Hseg, Hkeys.
    change k with (fst (k, x)). now apply in_map.
  - apply (@pairs_of_distinct_keys
             (fun k1 k2 => comparable (splitDot k1) (splitDot k2) = false)).
    + apply value_keys_NoDup, collectKeys_NoDup.
    + intros k1 k2 H1 H2 Hne. apply (@shapesAgree_inv chain); auto.
  - apply Forall_forall. intros kv _. apply fits_nil.
  - assert (Hm : mergeTSConfigs chain now
                 = Returns
                     (fold_left
                        (fun result p =>
                           match Explained.explain (mergeClosedForm l)
                                                   (Some p) false with
                           | [] => result
                           | e => Explained._setExplanations result p e
                           end)
                        (Explained._getPaths (mergeClosedForm l))
                        (Explained.new (VObj u) []))).
    { unfold mergeTSConfigs.
      rewrite (merge_closed (explainChain_objects now chain 0)).
      cbn [bind]. fold l.
      change (Explained.value (mergeClosedForm l)) with (VObj flat).
      cbv beta iota. unfold unflattenObject. rewrite Hu. reflexivity. }
    eexists. split; [exact Hm|].
    intros before d after key v Hchain Hget Hlow.
    assert (Hd : In d chain).
    { rewrite Hchain. apply in_or_app. right. now left. }
    split; [now apply (@flat_key_in_document chain)|].
    rewrite setExplanations_value. cbn [Explained.value].
    apply Hin. unfold flat, l. rewrite Hchain.
    apply highest_document_value; auto.
    assert (Hk : In key (flatKeys chain)).
    { apply flatKeys_In. exists d. split; [exact Hd|].
      apply prop_in_keys, prop_in_get. eauto. }
    intros ->. specialize (Hseg _ Hk). simpl in Hseg.
    inversion Hseg as [|? ? Hbad _]. discriminate Hbad.
Qed.
End ChainFacts.

(** C9, amended: on a document whose keys, at every depth, are not empty,
    hold no dot, are not names that every object inherits and are
    distinct within their object, and whose nested plain objects are not
    empty (arrays and all other values being leaves), [unflattenObject]
    undoes [flattenObject]: it returns the document, key order included;
    and such a document resolved on its own, flattened, merged and
    unflattened by [mergeTSConfigs], is the value of the result.  For
    several such documents that do not contradict each other about the
    nesting, [mergeTSConfigs] returns, and every field of a document that
    no other document sets at the same or a higher precedence is found in
    the result at the nested path where the document has it, with the
    value the document gives it. *)
Theorem flatten_round_trip :
  (forall doc : list (string * JSValue),
      nestedEntries doc ->
      TSConfigAdapter.unflattenObject (TSConfigAdapter.flattenObject doc "")
      = Returns (VObj doc) /\
      forall (fullPath : string) (ext : option Extends) (prec : Z)
             (now : nat -> Z),
      exists explained,
        TSConfigAdapter.mergeTSConfigs
          [mkTSConfigResolution fullPath (mkTSConfig ext doc) prec] now
        = Returns explained /\
        Explained.value explained = VObj doc) /\
  (forall (chain : list TSConfigResolution) (now : nat -> Z),
      Forall (fun r => nestedEntries (tsc_fields (config r))) chain ->
      shapesAgree chain = true ->
      exists result,
        TSConfigAdapter.mergeTSConfigs chain now = Returns result /\
        forall before d after key v,
          chain = before ++ d :: after ->
          prop_get key
                   (TSConfigAdapter.flattenObject (tsc_fields (config d)) "")
          = Some v ->
          (forall d',
              In d' (before ++ after) ->
              prop_in key
                      (TSConfigAdapter.flattenObject (tsc_fields (config d'))
                                                     "")
              = true ->
              (res_precedence d' < res_precedence d)%Z) ->
          nodeAt (splitDot key) (VObj (tsc_fields (config d))) = Some v /\
          nodeAt (splitDot key) (Explained.value result) = Some v).
Proof.
  split; [|exact merge_documents].
  intros doc Hdoc. pose proof (unflattenObject_flattenObject Hdoc) as Hround.
  split; [exact Hround|].
  intros fullPath ext prec now.
  unfold TSConfigAdapter.mergeTSConfigs. cbn [TSConfigAdapter.explainChain].
  cbn [config path res_precedence tsc_fields].
  destruct (@merge_single_source
              (TSConfigAdapter.flattenObject doc "") fullPath
              (String.append "From " fullPath) prec (Some fullPath) (now 0%nat))
    as [merged [Hm Hv]].
  { change (TSConfigAdapter.flattenObject doc "") with (flattenLoop "" doc []).
    apply (@flattenLoop_facts doc Hdoc "" []). left; auto. }
  { now apply flattenObject_proto. }
  rewrite Hm. cbn [bind]. rewrite Hv, Hround. cbn [bind].
  eexists. split; [reflexivity|]. apply setExplanations_value.
Qed.

Lemma flatten_round_trip_witness :
  (nestedEntries Disk.base /\
   TSConfigAdapter.unflattenObject (TSConfigAdapter.flattenObject Disk.base "")
   = Returns (VObj Disk.base)) /\
  (Forall (fun r => nestedEntries (tsc_fields (config r))) Disk.extended /\
   shapesAgree Disk.extended = true /\
   exists result,
     TSConfigAdapter.mergeTSConfigs Disk.extended (fun _ => 0%Z)
     = Returns result /\
     nodeAt ["compilerOptions"; "target"] (Explained.value result)
     = Some (VStr "ES2018") /\
     nodeAt ["compilerOptions"; "strict"] (Explained.value result)
     = Some (VBool true)).
Proof.
  assert (H : nestedEntries Disk.base).
  { apply nested_object;
      [reflexivity | simpl; intuition discriminate | discriminate | |].
    - apply nested_leaf;
        [reflexivity | simpl; intuition discriminate
         | intros o'; discriminate |].
      apply nested_leaf;
        [reflexivity | simpl; tauto | intros o'; discriminate | constructor].
    - apply nested_leaf;
        [reflexivity | simpl; tauto | intros o'; discriminate | constructor]. }
  assert (H' : nestedEntries (Disk.strict true)).
  { apply nested_object;
      [reflexivity | simpl; tauto | discriminate | | constructor].
    apply nested_leaf;
      [reflexivity | simpl; tauto | intros o'; discriminate | constructor]. }
  split; [split; [exact H | exact (proj1 (proj1 flatten_round_trip _ H))]|].
  assert (Hall : Forall (fun r => nestedEntries (tsc_fields (config r)))
                        Disk.extended).
  { constructor; [exact H|]. constructor; [exact H' | constructor]. }
  assert (Hshape : shapesAgree Disk.extended = true) by reflexivity.
  split; [exact Hall|]. split; [exact Hshape|].
  destruct (proj2 flatten_round_trip Disk.extended (fun _ => 0%Z) Hall Hshape)
    as [result [Hm Hfields]].
  exists result. split; [exact Hm|]. split.
  - refine (proj2 (Hfields [] Disk.extendedBase [Disk.extendedEntry]
                           "compilerOptions.target" (VStr "ES2018")
                           eq_refl eq_refl _)).
    intros d' [<-|[]]. discriminate.
  - refine (proj2 (Hfields [Disk.extendedBase] Disk.extendedEntry []
                           "compilerOptions.strict" (VBool true)
                           eq_refl eq_refl _)).
    intros d' [<-|[]] _. simpl. lia.
Defined.

(** ** The resolver: registration order *)

Section ResolverFacts.
Import ConfigResolver.

Lemma sorted_three_way {A : Type} (R : A -> A -> Prop) (m : A -> Z) p l :
  (forall a b, R a b -> (m a <= m b)%Z) ->
  StronglySorted R l ->
  l = filter (fun x => (m x <? p)%Z) l
        ++ filter (fun x => (m x =? p)%Z) l
        ++ filter (fun x => (p <? m x)%Z) l.
Proof.
  intros HR. induction 1 as [|a l Hl IH Ha]; simpl; [reflexivity|].
  assert (Hge : forall x, In x l -> (m a <= m x)%Z).
  { rewrite Forall_forall in Ha. intros x Hx. apply HR, Ha, Hx. }
  destruct (m a <? p)%Z eqn:E1.
  - apply Z.ltb_lt in E1.
    replace (m a =? p)%Z with false by (symmetry; apply Z.eqb_neq; lia).
    replace (p <? m a)%Z with false by (symmetry; apply Z.ltb_ge; lia).
    simpl. now rewrite <- IH.
  - apply Z.ltb_ge in E1.
    assert (Hlow : filter (fun x => (m x <? p)%Z) l = []).
    { clear IH. induction l as [|b l IHl]; simpl; [reflexivity|].
      replace (m b <? p)%Z with false.
      - apply IHl; [now inversion Hl | now inversion Ha |].
        intros x Hx. apply Hge. now right.
      - symmetry. apply Z.ltb_ge. specialize (Hge b (or_introl eq_refl)). lia. }
    rewrite Hlow in *. simpl in *.
    destruct (m a =? p)%Z eqn:E2.
    + apply Z.eqb_eq in E2.
      replace (p <? m a)%Z with false by (symmetry; apply Z.ltb_ge; lia).
      simpl. now rewrite <- IH.
    + apply Z.eqb_neq in E2.
      assert (Hmid : filter (fun x => (m x =? p)%Z) l = []).
      { clear IH Hlow. induction l as [|b l IHl]; simpl; [reflexivity|].
        replace (m b =? p)%Z with false.
        - apply IHl; [now inversion Hl | now inversion Ha |].
          intros x Hx. apply Hge. now right.
        - symmetry. apply Z.eqb_neq.
          specialize (Hge b (or_introl eq_refl)). lia. }
      rewrite Hmid in *. simpl in *.
      replace (p <? m a)%Z with true by (symmetry; apply Z.ltb_lt; lia).
      now rewrite <- IH.
Qed.

(** Where the stable sort by ascending precedence puts a source, relative
    to the sources that satisfy [owns]. *)
Lemma sorted_sources_split (owns : ConfigSource -> bool) before s after :
  (forall x, In x before -> owns x = true ->
             (src_precedence (cs_source x) < src_precedence (cs_source s))%Z) ->
  (forall x, In x after -> owns x = true ->
             (src_precedence (cs_source x) <= src_precedence (cs_source s))%Z) ->
  exists B A,
    arraySort compareSources (before ++ s :: after) = B ++ s :: A /\
    (forall x, In x B -> owns x = true ->
               (src_precedence (cs_source x)
                < src_precedence (cs_source s))%Z) /\
    (forall x, In x A -> owns x = true ->
               (src_precedence (cs_source x)
                <= src_precedence (cs_source s))%Z).
Proof.
  intros Hbefore Hafter.
  set (m := fun x : ConfigSource => src_precedence (cs_source x)).
  set (p := m s). set (l := before ++ s :: after).
  set (sorted := arraySort compareSources l).
  assert (Hsorted : StronglySorted
                      (fun a b => (compareSources a b <= 0)%Z) sorted).
  { apply arraySort_sorted; unfold compareSources; intros; lia. }
  assert (Hle : forall a b, (compareSources a b <= 0)%Z -> (m a <= m b)%Z)
    by (unfold compareSources, m; intros; lia).
  pose proof (@sorted_three_way _ _ m p sorted Hle Hsorted) as Hthree.
  assert (Hmid : filter (fun x => (m x =? p)%Z) sorted
                 = filter (fun x => (m x =? p)%Z) before
                     ++ s :: filter (fun x => (m x =? p)%Z) after).
  { unfold sorted. rewrite arraySort_stable.
    - unfold l. rewrite filter_app. simpl. unfold p. now rewrite Z.eqb_refl.
    - generalize l. intros l0. induction l0 as [|a l0 IH]; constructor; auto.
      apply Forall_forall. intros b _ Ha Hb.
      apply Z.eqb_eq in Ha, Hb. unfold compareSources, m in *. lia. }
  rewrite Hmid in Hthree.
  exists (filter (fun x => (m x <? p)%Z) sorted
            ++ filter (fun x => (m x =? p)%Z) before),
         (filter (fun x => (m x =? p)%Z) after
            ++ filter (fun x => (p <? m x)%Z) sorted).
  split; [|split].
  - fold l. fold sorted. rewrite Hthree at 1. now rewrite <- !app_assoc.
  - intros x Hx Hown. apply in_app_iff in Hx. destruct Hx as [Hx|Hx];
      apply filter_In in Hx; destruct Hx as [Hx Hm].
    + apply Z.ltb_lt in Hm. exact Hm.
    + now apply Hbefore.
  - intros x Hx Hown. apply in_app_iff in Hx. destruct Hx as [Hx|Hx];
      apply filter_In in Hx; destruct Hx as [Hx Hm].
    + now apply Hafter.
    + apply Z.ltb_lt in Hm. exfalso.
      apply (Permutation_in x (arraySort_perm compareSources l)) in Hx.
      unfold l in Hx. apply in_app_iff in Hx.
      destruct Hx as [Hx|[<-|Hx]].
      * specialize (Hbefore x Hx Hown). unfold p, m in *. lia.
      * unfold p in Hm. lia.
      * specialize (Hafter x Hx Hown). unfold p, m in *. lia.
Qed.

Lemma explainSources_app now l1 : forall i l2,
  explainSources now i (l1 ++ l2)
  = explainSources now i l1
      ++ explainSources now (i + List.length l1) l2.
Proof.
  induction l1 as [|x l1 IH]; simpl; intros i l2.
  - now rewrite Nat.add_0_r.
  - rewrite IH. now rewrite Nat.add_succ_r.
Qed.

Lemma explainSources_tagged now l : forall i,
  Forall taggedPartial (explainSources now i l).
Proof.
  induction l as [|x l IH]; simpl; intros i; constructor; auto.
  split; [reflexivity | discriminate].
Qed.

Lemma explainSources_roots now l : forall i r,
  In r (flat_map rootOf (explainSources now i l)) ->
  exists j, (i <= j)%nat /\ timestamp r = now j.
Proof.
  induction l as [|x l IH]; simpl; intros i r H; [destruct H|].
  destruct H as [<-|H].
  - exists i. split; [lia | reflexivity].
  - destruct (IH _ _ H) as [j [Hj Ht]]. exists j. split; [lia | exact Ht].
Qed.

Lemma explainSources_recordedInOrder now l :
  monotoneClock now -> forall i, recordedInOrder (explainSources now i l).
Proof.
  intros Hmono. unfold recordedInOrder.
  induction l as [|x l IH]; simpl; intros i; constructor; [apply IH|].
  apply Forall_forall. intros r Hr.
  destruct (explainSources_roots _ _ _ _ Hr) as [j [Hj Ht]].
  unfold byTimestamp. rewrite Ht. simpl. apply Hmono. lia.
Qed.

Lemma explainSources_candidates now key l : forall i c,
  In c (candidates key (explainSources now i l)) ->
  exists x, In x l /\ prop_in key (data x) = true /\
            precedence c = src_precedence (cs_source x).
Proof.
  induction l as [|x l IH]; simpl; intros i c H; [destruct H|].
  unfold candidates in H. simpl in H. apply in_app_iff in H.
  destruct H as [H|H].
  - unfold contribution in H. simpl in H.
    destruct (prop_in key (data x)) eqn:E; [|destruct H].
    destruct H as [<-|[]]. exists x. auto.
  - destruct (IH _ _ H) as [y [Hy Hrest]]. exists y. split; [now right | exact Hrest].
Qed.
End ResolverFacts.

(** The resolver, end to end: with a clock that never goes back, the
    source registered first among those of highest precedence that set a
    field wins it, whatever the clock read; the field is one that no
    object inherits, so that [key in value] singles out the sources that
    set it. *)
Lemma resolve_first_registered :
  forall (now : nat -> Z) (before after : list ConfigSource)
         (s : ConfigSource) (key : string) (v : JSValue),
    monotoneClock now ->
    inheritedName key = false ->
    prop_get key (data s) = Some v ->
    (forall x, In x before -> prop_in key (data x) = true ->
               (src_precedence (cs_source x)
                < src_precedence (cs_source s))%Z) ->
    (forall x, In x after -> prop_in key (data x) = true ->
               (src_precedence (cs_source x)
                <= src_precedence (cs_source s))%Z) ->
    exists merged winner others,
      ConfigResolver.resolve (before ++ s :: after) now = Returns merged /\
      field (Explained.value merged) key = Some v /\
      prop_get key (Explained.explanations merged) = Some (winner :: others) /\
      won winner = true /\
      source winner = name (cs_source s) /\
      precedence winner = src_precedence (cs_source s).
Proof.
  intros now before after s key v Hmono Hplain Hv Hbefore Hafter.
  apply inheritedName_proto in Hplain.
  destruct (@sorted_sources_split (fun x => prop_in key (data x))
              before s after Hbefore Hafter) as [B [A [Hsort [HB HA]]]].
  assert (Hres : ConfigResolver.resolve (before ++ s :: after) now
                 = Explained.merge
                     (ConfigResolver.explainSources now 0 (B ++ s :: A))).
  { unfold ConfigResolver.resolve. rewrite Hsort. now destruct before. }
  rewrite Hres, explainSources_app. simpl.
  set (bs := ConfigResolver.explainSources now 0 B).
  set (se := Explained.from (VObj (data s)) (name (cs_source s))
                            (ConfigResolver.reasonOf (cs_source s))
                            (src_precedence (cs_source s))
                            (src_location (cs_source s))
                            (now (List.length B))).
  set (as_ := ConfigResolver.explainSources now (S (List.length B)) A).
  assert (Hin : prop_in key (data s) = true) by (apply prop_in_get; eauto).
  assert (Hord : recordedInOrder (bs ++ se :: as_)).
  { pose proof (explainSources_recordedInOrder (B ++ s :: A) Hmono 0) as H.
    now rewrite explainSources_app in H. }
  assert (Htag : Forall taggedPartial (bs ++ se :: as_)).
  { pose proof (explainSources_tagged now (B ++ s :: A) 0) as H.
    now rewrite explainSources_app in H. }
  set (c := Explained.candidate
              (mkExplanation (name (cs_source s)) (VObj (data s))
                             (ConfigResolver.reasonOf (cs_source s))
                             (src_precedence (cs_source s))
                             (src_location (cs_source s)) true
                             (now (List.length B)))
              (VObj (data s)) key).
  assert (Hc : contribution key se = [c]).
  { unfold contribution. simpl. now rewrite Hin. }
  destruct (ranked_first_at_top bs as_ se key Hord Hc) as [tl Htl].
  { intros c' Hc'. apply explainSources_candidates in Hc'.
    destruct Hc' as [x [Hx [Hown ->]]]. simpl. now apply HB. }
  { intros c' Hc'. apply explainSources_candidates in Hc'.
    destruct Hc' as [x [Hx [Hown ->]]]. simpl. now apply HA. }
  assert (Hkey : In key (Explained.collectKeys (bs ++ se :: as_))).
  { eapply contribution_collected; [|exact Hc].
    apply in_or_app. right. now left. }
  exists (mergeClosedForm (bs ++ se :: as_)), (Explained.markWon c), tl.
  split; [apply merge_closed, taggedPartial_not_primitive, Htag|].
  split; [|split; [|repeat split]].
  - simpl. erewrite value_lookup; eauto. simpl. now rewrite Hv.
  - simpl. eapply ledger_found; eauto.
Qed.

Lemma explainSources_value now l : forall i w,
  In w (ConfigResolver.explainSources now i l) ->
  exists x, In x l /\ Explained.value w = VObj (data x).
Proof.
  induction l as [|x l IH]; simpl; intros i w H; [destruct H|].
  destruct H as [<-|H]; [exists x; auto|].
  destruct (IH _ _ H) as [y [Hy Hv]]. exists y. auto.
Qed.

Lemma explainSources_source now l : forall i x,
  In x l ->
  exists w, In w (ConfigResolver.explainSources now i l) /\
            Explained.value w = VObj (data x).
Proof.
  induction l as [|y l IH]; simpl; intros i x H; [destruct H|].
  destruct H as [<-|H]; [eexists; split; [left; reflexivity | reflexivity]|].
  destruct (IH (S i) x H) as [w [Hw Hv]]. exists w. auto.
Qed.

Lemma resolve_union (sources : list ConfigSource) (now : nat -> Z) :
  exists merged,
    ConfigResolver.resolve sources now = Returns merged /\
    (forall key,
        In key (objectKeys (Explained.value merged)) <->
        key <> "__proto__" /\
        exists s, In s sources /\ In key (keysOf (data s))) /\
    NoDup (objectKeys (Explained.value merged)).
Proof.
  destruct sources as [|s0 sources].
  - exists (Explained.new (VObj []) []). simpl. split; [reflexivity|]. split.
    + intros key. split; [intros [] | intros [_ [s [[] _]]]].
    + constructor.
  - set (l := s0 :: sources).
    set (sorted := arraySort ConfigResolver.compareSources l).
    destruct (merge_tagged_union (explainSources_tagged now sorted 0))
      as [merged [Hm [Hkeys [Hnd _]]]].
    exists merged. split; [exact Hm|]. split; [|exact Hnd].
    intros key. rewrite Hkeys. split.
    + intros [Hp [w [Hw Hk]]]. split; [exact Hp|].
      apply explainSources_value in Hw.
      destruct Hw as [x [Hx Hv]]. rewrite Hv in Hk. exists x. split; [|exact Hk].
      apply (Permutation_in x (arraySort_perm _ l) Hx).
    + intros [Hp [x [Hx Hk]]]. split; [exact Hp|].
      apply (Permutation_in x (Permutation_sym (arraySort_perm
               ConfigResolver.compareSources l))) in Hx.
      destruct (explainSources_source now sorted 0 x Hx) as [w [Hw Hv]].
      exists w. split; [exact Hw|]. now rewrite Hv.
Qed.

(** C3, amended: [merge] has no counter; it orders the candidates of a
    field by precedence descending, then by the timestamp their source
    carries ascending, and leaves candidates equal on both in the order
    of supply.  Every ledger entry of a result is in that order.  So the
    first supplied among the sources of equal precedence wins when the
    timestamps do not decrease along the order of supply: the candidates
    of equal precedence then stay in that order, a source strictly above
    every competitor supplied before it and not below any supplied after
    it wins the field, and a second run on the same sources in the same
    order, whatever its clock read, has the same merged value and the
    same ledger up to the timestamps.  [ConfigResolver.resolve] stamps its
    sources as it goes, so with a clock that never goes back the source
    registered first among those of highest precedence that set a field
    wins it.  Where candidates are counted the field is one that no
    object inherits and no source is an array. *)
Theorem merge_tie_break :
  (forall (explaineds : list Explained.t) (merged : Explained.t)
          (key : string) (exps : list Explanation),
      Explained.merge explaineds = Returns merged ->
      prop_get key (Explained.explanations merged) = Some exps ->
      StronglySorted ranksBefore exps /\
      (Forall notArray explaineds -> inheritedName key = false ->
       exists first others,
         exps = Explained.markWon first :: others /\
         forall p ts, filter (sameRank p ts) (first :: others)
                      = filter (sameRank p ts) (candidates key explaineds))) /\
  (forall (explaineds : list Explained.t) (merged : Explained.t),
      recordedInOrder explaineds ->
      Explained.merge explaineds = Returns merged ->
      (forall key exps,
          Forall notArray explaineds -> inheritedName key = false ->
          prop_get key (Explained.explanations merged) = Some exps ->
          exists first others,
            exps = Explained.markWon first :: others /\
            forall p, filter (hasPrecedence p) (first :: others)
                      = filter (hasPrecedence p) (candidates key explaineds)) /\
      (forall before s after key c,
          Forall notArray explaineds -> inheritedName key = false ->
          explaineds = before ++ s :: after ->
          contribution key s = [c] ->
          (forall c', In c' (candidates key before) ->
                      (precedence c' < precedence c)%Z) ->
          (forall c', In c' (candidates key after) ->
                      (precedence c' <= precedence c)%Z) ->
          exists others,
            prop_get key (Explained.explanations merged)
            = Some (Explained.markWon c :: others) /\
            field (Explained.value merged) key = Some (exp_value c)) /\
      (forall explaineds' merged',
          map eraseClock explaineds' = map eraseClock explaineds ->
          recordedInOrder explaineds' ->
          Explained.merge explaineds' = Returns merged' ->
          Explained.value merged' = Explained.value merged /\
          eraseLedger (Explained.explanations merged')
          = eraseLedger (Explained.explanations merged))) /\
  (forall (now : nat -> Z) (before after : list ConfigSource)
           (s : ConfigSource) (key : string) (v : JSValue),
      monotoneClock now ->
      inheritedName key = false ->
      prop_get key (data s) = Some v ->
      (forall x, In x before -> prop_in key (data x) = true ->
                 (src_precedence (cs_source x)
                  < src_precedence (cs_source s))%Z) ->
      (forall x, In x after -> prop_in key (data x) = true ->
                 (src_precedence (cs_source x)
                  <= src_precedence (cs_source s))%Z) ->
      exists merged winner others,
        ConfigResolver.resolve (before ++ s :: after) now = Returns merged /\
        field (Explained.value merged) key = Some v /\
        prop_get key (Explained.explanations merged) = Some (winner :: others) /\
        won winner = true /\
        source winner = name (cs_source s) /\
        precedence winner = src_precedence (cs_source s)).
Proof.
  split; [|split].
  - exact merge_rank_order.
  - exact merge_registration_order.
  - exact resolve_first_registered.
Qed.

Lemma merge_tie_break_witness :
  (Explained.merge [Scenario.late; Scenario.early] = Returns Scenario.swapped /\
   prop_get "value" (Explained.explanations Scenario.swapped)
   = Some [Explained.markWon Scenario.earlyValue; Scenario.lateValue] /\
   StronglySorted ranksBefore
     [Explained.markWon Scenario.earlyValue; Scenario.lateValue]) /\
  recordedInOrder [Scenario.first; Scenario.second] /\
  Explained.merge [Scenario.first; Scenario.second] = Returns Scenario.tied /\
  exists others,
    prop_get "value" (Explained.explanations Scenario.tied)
    = Some (Explained.markWon Scenario.firstValue :: others) /\
    field (Explained.value Scenario.tied) "value"
    = Some (exp_value Scenario.firstValue).
Proof.
  assert (Hord : recordedInOrder [Scenario.first; Scenario.second]).
  { unfold recordedInOrder. simpl. repeat constructor.
    unfold byTimestamp. simpl. lia. }
  split; [|split; [exact Hord|split; [reflexivity|]]].
  - split; [reflexivity|]. split; [reflexivity|].
    exact (proj1 (proj1 merge_tie_break
                    [Scenario.late; Scenario.early] Scenario.swapped "value"
                    [Explained.markWon Scenario.earlyValue; Scenario.lateValue]
                    eq_refl eq_refl)).
  - refine (proj1 (proj2 (proj1 (proj2 merge_tie_break)
                            [Scenario.first; Scenario.second] Scenario.tied
                            Hord eq_refl))
                  [] Scenario.first [Scenario.second] "value"
                  Scenario.firstValue _ eq_refl eq_refl eq_refl _ _).
    + repeat constructor.
    + intros c' [].
    + intros c' [<-|[]]. simpl. lia.
Defined.

(** Of two sources of equal precedence the one supplied second wins when
    it carries the earlier timestamp: wrappers created in one order and
    supplied in the other, or stamped by a clock that went back, whether
    handed to [merge] or registered with the resolver. *)
Lemma tie_break_counterexample :
  (exists winner loser,
      Explained.merge [Scenario.late; Scenario.early]
      = Returns Scenario.swapped /\
      prop_get "value" (Explained.explanations Scenario.swapped)
      = Some [winner; loser] /\
      precedence winner = precedence loser /\
      won winner = true /\ source winner = "second" /\
      won loser = false /\ source loser = "first" /\
      field (Explained.value Scenario.swapped) "value" = Some (VNum 2)) /\
  (exists merged winner loser,
      ConfigResolver.resolve [Scenario.firstSource; Scenario.secondSource]
                             Scenario.setBack
      = Returns merged /\
      prop_get "value" (Explained.explanations merged)
      = Some [winner; loser] /\
      precedence winner = precedence loser /\
      won winner = true /\ source winner = "second" /\
      source loser = "first" /\
      field (Explained.value merged) "value" = Some (VNum 2)).
Proof.
  split.
  - do 2 eexists. repeat split; reflexivity.
  - do 3 eexists. repeat split; reflexivity.
Qed.

(** C4, amended: merging provenance-tagged partial values returns a value
    whose keys are the keys that occur in some source, each once, except
    [__proto__]: assigning an own property of that name to the fresh
    result reaches the prototype setter and adds no key.  For a field that
    no object inherits and sources that are not arrays, a key that only
    one source has takes the value that source gives it, and the
    Explanations recorded for a key are one per source that has the key,
    each carrying that source's value and metadata, so a source without
    the key does not compete for it.  What [ConfigResolver.resolve]
    returns has the keys of the data of its sources, [__proto__]
    excepted. *)
Theorem merge_union_of_keys :
  (forall explaineds : list Explained.t,
      Forall taggedPartial explaineds ->
      exists merged,
        Explained.merge explaineds = Returns merged /\
        (forall key,
            In key (objectKeys (Explained.value merged)) <->
            key <> "__proto__" /\
            exists s, In s explaineds /\
                      In key (objectKeys (Explained.value s))) /\
        NoDup (objectKeys (Explained.value merged)) /\
        (forall before s after key,
            Forall notArray explaineds -> inheritedName key = false ->
            explaineds = before ++ s :: after ->
            In key (objectKeys (Explained.value s)) ->
            (forall s', In s' (before ++ after) ->
                        ~ In key (objectKeys (Explained.value s'))) ->
            field (Explained.value merged) key = field (Explained.value s) key) /\
        (forall key exps,
            Forall notArray explaineds -> inheritedName key = false ->
            prop_get key (Explained.explanations merged) = Some exps ->
            List.length exps = List.length (filter (ownsKey key) explaineds) /\
            forall e, In e exps ->
              exists s r,
                In s explaineds /\ ownsKey key s = true /\ rootOf s = [r] /\
                field (Explained.value s) key = Some (exp_value e) /\
                source e = source r /\ precedence e = precedence r)) /\
  (forall (sources : list ConfigSource) (now : nat -> Z),
      exists merged,
        ConfigResolver.resolve sources now = Returns merged /\
        (forall key,
            In key (objectKeys (Explained.value merged)) <->
            key <> "__proto__" /\
            exists s, In s sources /\ In key (keysOf (data s))) /\
        NoDup (objectKeys (Explained.value merged))).
Proof.
  split.
  - exact merge_tagged_union.
  - exact resolve_union.
Qed.

Lemma merge_union_of_keys_witness :
  Forall taggedPartial [Scenario.defaults; Scenario.env; Scenario.cli] /\
  exists merged,
    Explained.merge [Scenario.defaults; Scenario.env; Scenario.cli]
    = Returns merged /\
    (forall key,
        In key (objectKeys (Explained.value merged)) <->
        key <> "__proto__" /\
        exists s, In s [Scenario.defaults; Scenario.env; Scenario.cli] /\
                  In key (objectKeys (Explained.value s))).
Proof.
  assert (H : Forall taggedPartial
                     [Scenario.defaults; Scenario.env; Scenario.cli]).
  { repeat constructor; discriminate. }
  split; [exact H|].
  destruct (proj1 merge_union_of_keys _ H) as [merged [Hm [Hkeys _]]].
  exists merged. split; [exact Hm | exact Hkeys].
Defined.

(** A source parsed from JSON text with an own property [__proto__]: the
    key is in the union of the sources' keys and is not a key of the
    merged value, although the ledger names a winner for it. *)
Lemma union_proto_counterexample :
  exists merged winner,
    taggedPartial Scenario.polluted /\
    Explained.merge [Scenario.polluted] = Returns merged /\
    In "__proto__" (objectKeys (Explained.value Scenario.polluted)) /\
    ~ In "__proto__" (objectKeys (Explained.value merged)) /\
    objectKeys (Explained.value merged) = ["x"] /\
    prop_get "__proto__" (Explained.explanations merged) = Some [winner] /\
    won winner = true.
Proof.
  do 2 eexists. split; [split; [reflexivity | discriminate]|].
  split; [reflexivity|]. split; [simpl; auto|].
  split; [simpl; intuition discriminate|].
  repeat split; reflexivity.
Qed.

(* ================================================================== *)
(** * Further properties *)

(** ** The wrapper and its ledger *)

Section LedgerFacts.
Import Explained.

(** X1. On a wrapper whose sequences each belong to one path,
    [_addExplanation] appends to the sequence recorded for a path and
    [explain] reads it back: for every non-empty path, [explain(path)]
    after [_addExplanation(path, e)] is what it was before followed by
    [e], the value and every other path are untouched; an Explanation
    added under the empty path is never read back by [explain], because
    [explain] sends the empty path to the root sentinel. *)
Theorem addExplanation_appends :
  forall (this : t) (path : string) (e : Explanation),
    freshLedger this ->
    (path <> "" ->
     explain (_addExplanation this path e) (Some path) false
     = explain this (Some path) false ++ [e]) /\
    value (_addExplanation this path e) = value this /\
    (forall other,
        other <> path -> other <> "" ->
        explain (_addExplanation this path e) (Some other) false
        = explain this (Some other) false) /\
    (path <> "__root__" ->
     explain (_addExplanation this path e) None false
     = explain this None false) /\
    (forall p onlyWinners,
        explain (_addExplanation this "" e) p onlyWinners
        = explain this p onlyWinners).
Proof.
  intros this path e _. repeat split.
  - intros Hp. unfold explain, _addExplanation. simpl.
    apply String.eqb_neq in Hp. rewrite Hp.
    now rewrite prop_get_set_same.
  - intros other Hne Ho. unfold explain, _addExplanation. simpl.
    apply String.eqb_neq in Ho. rewrite Ho.
    now rewrite prop_get_set_other.
  - intros Hr. unfold explain, _addExplanation. simpl.
    rewrite prop_get_set_other; [reflexivity|]. congruence.
  - intros p w. unfold explain, _addExplanation. simpl.
    set (key := match p with
                | Some p0 => if String.eqb p0 "" then "__root__" else p0
                | None => "__root__"
                end).
    assert (Hk : key <> "").
    { subst key. destruct p as [p0|]; [|discriminate].
      destruct (String.eqb p0 "") eqn:E; [discriminate|].
      now apply String.eqb_neq. }
    now rewrite prop_get_set_other.
Qed.

Lemma addExplanation_appends_witness :
  freshLedger Scenario.merged /\ "port" <> "" /\
  explain (_addExplanation Scenario.merged "port" Scenario.envPort)
          (Some "port") false
  = explain Scenario.merged (Some "port") false ++ [Scenario.envPort].
Proof.
  assert (F : freshLedger Scenario.merged).
  { apply (@fresh_merge [Scenario.defaults; Scenario.env; Scenario.cli]).
    reflexivity. }
  assert (H : "port" <> "") by discriminate.
  split; [exact F|]. split; [exact H|].
  exact (proj1 (@addExplanation_appends Scenario.merged "port"
                                        Scenario.envPort F) H).
Defined.

Lemma prop_set_keys {A : Type} (o : list (string * A)) k v :
  keysOf (prop_set o k v)
  = if prop_in k o then keysOf o else keysOf o ++ [k].
Proof.
  induction o as [|[k' v'] o IH]; simpl; [reflexivity|].
  destruct (String.eqb k k') eqn:E; simpl.
  - apply String.eqb_eq in E. now subst.
  - rewrite IH. now destruct (prop_in k o).
Qed.

(** X2. [_setExplanations] replaces the sequence of one path and nothing
    else: [explain(path)] then returns exactly the sequence given, every
    other path and the value are as before, and in the order of
    [_getPaths] a path already recorded keeps its place while a new one
    goes last. *)
Theorem setExplanations_replaces :
  forall (this : t) (path : string) (l : list Explanation),
    (path <> "" ->
     explain (_setExplanations this path l) (Some path) false = l) /\
    value (_setExplanations this path l) = value this /\
    (forall other,
        other <> path -> other <> "" ->
        explain (_setExplanations this path l) (Some other) false
        = explain this (Some other) false) /\
    _getPaths (_setExplanations this path l)
    = (if prop_in path (explanations this) then _getPaths this
       else _getPaths this ++ [path]).
Proof.
  intros this path l. repeat split.
  - intros Hp. unfold explain, _setExplanations. simpl.
    apply String.eqb_neq in Hp. rewrite Hp.
    now rewrite prop_get_set_same.
  - intros other Hne Ho. unfold explain, _setExplanations. simpl.
    apply String.eqb_neq in Ho. rewrite Ho.
    now rewrite prop_get_set_other.
  - unfold _getPaths, _setExplanations. simpl. apply prop_set_keys.
Qed.

Lemma setExplanations_replaces_witness :
  "port" <> "" /\
  explain (_setExplanations Scenario.merged "port" [Scenario.envPort])
          (Some "port") false
  = [Scenario.envPort].
Proof.
  assert (H : "port" <> "") by discriminate.
  split; [exact H|].
  exact (proj1 (setExplanations_replaces Scenario.merged "port"
                                         [Scenario.envPort]) H).
Defined.

Lemma prop_get_filter_keys {A : Type} (keep : string -> bool)
      (o : list (string * A)) k :
  prop_get k (filter (fun kv => keep (fst kv)) o)
  = if keep k then prop_get k o else None.
Proof.
  induction o as [|[k' v'] o IH]; simpl.
  - now destruct (keep k).
  - destruct (keep k') eqn:Ek'; simpl.
    + destruct (String.eqb k k') eqn:E.
      * apply String.eqb_eq in E. subst. now rewrite Ek'.
      * exact IH.
    + destruct (String.eqb k k') eqn:E; [|exact IH].
      apply String.eqb_eq in E. subst. rewrite Ek' in IH |- *. exact IH.
Qed.

Lemma explainAll_loop (ledger : list (string * list Explanation)) :
  forall result,
    NoDup (keysOf ledger) ->
    (forall k, In k (keysOf ledger) -> ~ In k (keysOf result)) ->
    fold_left
      (fun result kv =>
         if negb (String.eqb (fst kv) "__root__")
         then object_set result (fst kv) (snd kv)
         else result)
      ledger result
    = result
        ++ filter (fun kv => negb (String.eqb (fst kv) "__root__")
                             && negb (String.eqb (fst kv) "__proto__"))
                  ledger.
Proof.
  induction ledger as [|[k v] ledger IH]; intros result Hnd Hfresh.
  - simpl. now rewrite app_nil_r.
  - inversion Hnd as [|? ? Hk Hrest]; subst. cbn [fold_left fst snd filter].
    assert (Hnew : ~ In k (keysOf result)) by (apply Hfresh; now left).
    assert (Hlater : forall result' : list (string * list Explanation),
               keysOf result' = keysOf result \/
               keysOf result' = keysOf result ++ [k] ->
               forall k', In k' (keysOf ledger) -> ~ In k' (keysOf result')).
    { intros result' [->| ->] k' Hk'.
      - apply Hfresh. now right.
      - rewrite in_app_iff. intros [H|[<-|[]]]; [|contradiction].
        revert H. apply Hfresh. now right. }
    destruct (String.eqb k "__root__") eqn:Er; cbn [negb andb].
    + apply IH; [exact Hrest | apply Hlater; now left].
    + unfold object_set.
      assert (Hin : prop_in k result = false).
      { destruct (prop_in k result) eqn:E; [|reflexivity].
        apply prop_in_keys in E. contradiction. }
      rewrite Hin. destruct (String.eqb k "__proto__") eqn:Ep; cbn [negb andb].
      * apply IH; [exact Hrest | apply Hlater; now left].
      * rewrite prop_set_fresh by exact Hnew.
        rewrite IH; [now rewrite <- app_assoc | exact Hrest |].
        apply Hlater. right. now rewrite keysOf_app.
Qed.

Lemma explainAll_filter (this : t) :
  NoDup (_getPaths this) ->
  explainAll this
  = filter (fun kv => negb (String.eqb (fst kv) "__root__")
                      && negb (String.eqb (fst kv) "__proto__"))
           (explanations this).
Proof.
  intros Hnd. unfold explainAll.
  rewrite explainAll_loop; [reflexivity | exact Hnd | intros k _ []].
Qed.

(** X3. The ledger is a [Map], its paths are distinct; [explainAll] copies
    it into a plain object, leaving out the root sentinel.  The copy has
    neither the path [__root__] nor, as an own property, the path
    [__proto__], whose assignment reaches the prototype setter; every
    other path maps to the sequence the ledger records for it; the paths
    are listed in ledger order when none of them begins with a digit; and
    what [Explained.from] builds has an empty [explainAll]. *)
Theorem explainAll_hides_root :
  forall this : t,
    NoDup (_getPaths this) ->
    (forall p,
        prop_get p (explainAll this)
        = if String.eqb p "__root__" || String.eqb p "__proto__" then None
          else prop_get p (explanations this)) /\
    (Forall (fun p => startsWithDigit p = false) (_getPaths this) ->
     keysOf (explainAll this)
     = filter (fun p => negb (String.eqb p "__root__")
                        && negb (String.eqb p "__proto__"))
              (_getPaths this)) /\
    (forall v src rsn prec loc now,
        explainAll (from v src rsn prec loc now) = []).
Proof.
  intros this Hnd. rewrite (@explainAll_filter this Hnd). repeat split.
  - intros p.
    rewrite (prop_get_filter_keys
               (fun k => negb (String.eqb k "__root__")
                         && negb (String.eqb k "__proto__"))).
    now destruct (String.eqb p "__root__"), (String.eqb p "__proto__").
  - intros _. unfold _getPaths, keysOf.
    induction (explanations this) as [|[k v] o IH]; simpl; [reflexivity|].
    destruct (negb (String.eqb k "__root__")
              && negb (String.eqb k "__proto__")); simpl; now rewrite IH.
Qed.

Lemma explainAll_hides_root_witness :
  NoDup (_getPaths Scenario.merged) /\
  prop_get "port" (explainAll Scenario.merged) = Some Scenario.portLedger /\
  keysOf (explainAll Scenario.merged) = ["port"; "host"].
Proof.
  assert (Hnd : NoDup (_getPaths Scenario.merged)).
  { repeat constructor; simpl; intuition discriminate. }
  split; [exact Hnd|]. split.
  - exact (proj1 (@explainAll_hides_root Scenario.merged Hnd) "port").
  - apply (proj1 (proj2 (@explainAll_hides_root Scenario.merged Hnd))).
    repeat constructor.
Defined.

End LedgerFacts.

(** ** Further properties of [Explained.merge] *)

Section MergeOutcomes.
Import Explained.

Lemma mergeKeys_nil (l : list t) mv ae :
  mergeKeys l [] mv ae = Returns (new (VObj mv) ae).
Proof. reflexivity. Qed.

(** X4. [Explained.merge] throws in exactly one situation: some input
    wraps a truthy primitive while some input is an object with at least
    one key; the error is then a [TypeError].  In every other case it
    returns, and when no input is an object with a key it returns the
    empty object with an empty ledger. *)
Theorem merge_throws_exactly :
  forall explaineds : list t,
    (forall e,
        merge explaineds = Throws e <->
        e = TypeError /\
        Exists (fun w => truthyPrimitive (value w) = true) explaineds /\
        collectKeys explaineds <> []) /\
    (collectKeys explaineds = [] ->
     merge explaineds = Returns (new (VObj []) [])).
Proof.
  intros l. split.
  - intros e. split.
    + intros H.
      destruct (all_or_some_primitive l) as [Hall|Hex].
      * rewrite (merge_closed Hall) in H. discriminate.
      * destruct (collectKeys l) as [|k ks] eqn:Ek.
        { unfold merge in H. rewrite Ek in H. discriminate. }
        assert (Hne : collectKeys l <> []) by (rewrite Ek; discriminate).
        rewrite (merge_throws Hex Hne) in H.
        injection H as <-. repeat split; [exact Hex|].
        rewrite <- Ek. exact Hne.
    + intros [-> [Hex Hne]]. now apply merge_throws.
  - intros Hk. unfold merge. now rewrite Hk.
Qed.

Lemma merge_throws_exactly_witness :
  Explained.merge [Explained.new (VNum 42) []; Scenario.env]
  = Throws TypeError.
Proof.
  apply (proj1 (merge_throws_exactly
                  [Explained.new (VNum 42) []; Scenario.env])).
  split; [reflexivity|]. split.
  - apply Exists_cons_hd. reflexivity.
  - discriminate.
Defined.

(** X5. Every ledger entry of a merge result is in rank order: the
    Explanations are listed by precedence from the highest down, and
    Explanations of equal precedence by clock reading from the earliest
    on; the winner is the first of the list. *)
Theorem merge_ledger_ranked :
  forall (explaineds : list t) (merged : t) (path : string)
         (exps : list Explanation),
    merge explaineds = Returns merged ->
    prop_get path (explanations merged) = Some exps ->
    StronglySorted ranksBefore exps /\
    exists winner losers,
      exps = winner :: losers /\ won winner = true /\
      Forall (fun e => won e = false) losers.
Proof.
  intros l merged path exps Hm Hp.
  apply merge_returns_inv in Hm. subst merged. simpl in Hp.
  apply ledger_lookup in Hp. destruct Hp as [_ [first [others [Hr ->]]]].
  assert (Hs := ranked_sorted path l). rewrite Hr in Hs.
  assert (Hw := ranked_not_won path l). rewrite Hr in Hw.
  inversion Hs as [|? ? Hs' Hf]; subst.
  inversion Hw as [|? ? _ Hw']; subst.
  split.
  - constructor; [exact Hs'|].
    eapply Forall_impl; [|exact Hf]. intros b Hb. exact Hb.
  - exists (markWon first), others. repeat split. exact Hw'.
Qed.

Lemma merge_ledger_ranked_witness :
  Explained.merge [Scenario.defaults; Scenario.env; Scenario.cli]
  = Returns Scenario.merged /\
  prop_get "port" (Explained.explanations Scenario.merged)
  = Some Scenario.portLedger /\
  StronglySorted ranksBefore Scenario.portLedger.
Proof.
  assert (Hm : Explained.merge [Scenario.defaults; Scenario.env; Scenario.cli]
               = Returns Scenario.merged) by reflexivity.
  assert (Hp : prop_get "port" (Explained.explanations Scenario.merged)
               = Some Scenario.portLedger) by reflexivity.
  split; [exact Hm|]. split; [exact Hp|].
  exact (proj1 (merge_ledger_ranked _ _ Hm Hp)).
Defined.

Lemma entries_same_keys (l : list t) keys :
  keysOf (flat_map (valueEntry l) keys)
  = filter (fun k => negb (String.eqb k "__proto__"))
           (keysOf (flat_map (ledgerEntry l) keys)).
Proof.
  induction keys as [|k keys IH]; simpl; [reflexivity|].
  rewrite !keysOf_app, filter_app, IH. f_equal.
  unfold ledgerEntry, valueEntry.
  destruct (ranked k l); [reflexivity|]. simpl.
  now destruct (String.eqb k "__proto__").
Qed.

Lemma ledger_keys_NoDup (l : list t) keys :
  NoDup keys -> NoDup (keysOf (flat_map (ledgerEntry l) keys)).
Proof.
  induction 1 as [|k ks Hk Hks IH]; simpl; [constructor|].
  rewrite keysOf_app. unfold ledgerEntry at 1.
  destruct (ranked k l); simpl; [exact IH|].
  constructor; [|exact IH].
  intros H. apply prop_in_keys, prop_in_get in H.
  destruct H as [exps H]. apply ledger_lookup in H. now destruct H.
Qed.

Lemma filter_all {A : Type} (f : A -> bool) (l : list A) :
  (forall x, In x l -> f x = true) -> filter f l = l.
Proof.
  induction l as [|a l IH]; simpl; intros H; [reflexivity|].
  rewrite (H a) by now left. f_equal. apply IH. intros. apply H. now right.
Qed.

Lemma orderedKey_proto k : orderedKey k = true -> k <> "__proto__".
Proof.
  unfold orderedKey. intros H. apply andb_prop in H. destruct H as [H _].
  apply negb_true_iff in H. now apply String.eqb_neq.
Qed.

(** X6. The ledger of a merge result and the merged value go together:
    no path occurs twice in the ledger, no entry is empty, the value is a
    plain object, and a path other than [__proto__] is in the ledger
    exactly when the value has the field, while a path [__proto__] is
    never a field of the value.  When no key of a source is [__proto__]
    or begins with a digit, the paths of the ledger are the keys of the
    value in the same order. *)
Theorem merge_ledger_covers_value :
  forall (explaineds : list t) (merged : t),
    merge explaineds = Returns merged ->
    NoDup (_getPaths merged) /\
    (exists fields, value merged = VObj fields) /\
    (forall path exps,
        prop_get path (explanations merged) = Some exps -> exps <> []) /\
    (forall path,
        path <> "__proto__" ->
        (In path (_getPaths merged) <->
         exists v, field (value merged) path = Some v)) /\
    field (value merged) "__proto__" = None /\
    ((forall s key, In s explaineds -> In key (objectKeys (value s)) ->
                    orderedKey key = true) ->
     _getPaths merged = objectKeys (value merged)).
Proof.
  intros l merged Hm. apply merge_returns_inv in Hm. subst merged.
  unfold _getPaths, mergeClosedForm. cbn [explanations value objectKeys field].
  assert (Hk := entries_same_keys l (collectKeys l)).
  assert (Hin : forall path,
             In path (keysOf (flat_map (ledgerEntry l) (collectKeys l))) ->
             In path (collectKeys l)).
  { intros path H. apply prop_in_keys, prop_in_get in H.
    destruct H as [exps H]. now apply ledger_lookup in H. }
  assert (Hnd : NoDup (keysOf (flat_map (ledgerEntry l) (collectKeys l))))
    by apply ledger_keys_NoDup, collectKeys_NoDup.
  split; [exact Hnd|]. split; [eauto|]. split; [|split; [|split]].
  - intros path exps Hp. apply ledger_lookup in Hp.
    destruct Hp as [_ [first [others [_ ->]]]]. discriminate.
  - intros path Hp. split.
    + intros H. apply prop_in_get, prop_in_keys. rewrite Hk.
      apply filter_In. split; [exact H|].
      apply negb_true_iff. now apply String.eqb_neq.
    + intros H. apply prop_in_get, prop_in_keys in H. rewrite Hk in H.
      now apply filter_In in H.
  - apply value_proto.
  - intros Hord. rewrite Hk. symmetry. apply filter_all.
    intros k Hkin. apply Hin, collectKeys_In in Hkin.
    destruct Hkin as [w [Hw Hkey]].
    apply negb_true_iff, String.eqb_neq.
    exact (orderedKey_proto (Hord w k Hw Hkey)).
Qed.

Lemma merge_ledger_covers_value_witness :
  Explained.merge [Scenario.defaults; Scenario.env; Scenario.cli]
  = Returns Scenario.merged /\
  NoDup (Explained._getPaths Scenario.merged) /\
  Explained._getPaths Scenario.merged
  = objectKeys (Explained.value Scenario.merged).
Proof.
  assert (Hm : Explained.merge [Scenario.defaults; Scenario.env; Scenario.cli]
               = Returns Scenario.merged) by reflexivity.
  split; [exact Hm|].
  pose proof (@merge_ledger_covers_value _ _ Hm) as [Hnd [_ [_ [_ [_ Hord]]]]].
  split; [exact Hnd|]. apply Hord.
  intros s key [<-|[<-|[<-|[]]]]; simpl;
    intros H; repeat (destruct H as [<-|H]; [reflexivity|]); destruct H.
Defined.

Lemma merged_rootOf (l : list t) :
  ~ In "__root__" (collectKeys l) -> rootOf (mergeClosedForm l) = [].
Proof.
  intros Hn. unfold rootOf, explain. simpl.
  destruct (prop_get "__root__" (flat_map (ledgerEntry l) (collectKeys l)))
    as [exps|] eqn:E; [|reflexivity].
  apply ledger_lookup in E. now destruct E as [Hin _].
Qed.

(** X7. A merge result is not itself a source for a later merge: unless
    some input has a field named [__root__], the result carries no root
    Explanation, so [explain()] on it is empty and merging it alone yields
    the empty object with an empty ledger; and when its fields are not
    names that every object inherits, merged together with other inputs
    (none of them a truthy primitive or an array) it changes no field and
    no ledger entry of what those inputs give without it. *)
Theorem merge_result_is_no_source :
  forall (explaineds : list t) (merged : t),
    merge explaineds = Returns merged ->
    ~ In "__root__" (collectKeys explaineds) ->
    explain merged None false = [] /\
    merge [merged] = Returns (new (VObj []) []) /\
    forall before after,
      Forall (fun s => truthyPrimitive (value s) = false) (before ++ after) ->
      Forall notArray (before ++ after) ->
      (forall key, In key (objectKeys (value merged)) ->
                   inheritedName key = false) ->
      exists again without,
        merge (before ++ merged :: after) = Returns again /\
        merge (before ++ after) = Returns without /\
        forall path,
          prop_get path (explanations again)
          = prop_get path (explanations without) /\
          field (value again) path = field (value without) path.
Proof.
  intros l merged Hm Hn. apply merge_returns_inv in Hm. subst merged.
  assert (Hroot := merged_rootOf l Hn).
  assert (Hobj : isNonNullObject (value (mergeClosedForm l)) = true)
    by reflexivity.
  split; [|split].
  - unfold rootOf in Hroot.
    destruct (explain (mergeClosedForm l) None false); [reflexivity|].
    discriminate.
  - assert (Hc : merge [mergeClosedForm l]
                 = Returns (mergeClosedForm [mergeClosedForm l])).
    { apply merge_closed. constructor; [|constructor].
      now apply truthyPrimitive_object. }
    rewrite Hc. f_equal. unfold mergeClosedForm at 1.
    assert (Hv : forall keys,
               flat_map (valueEntry [mergeClosedForm l]) keys = []).
    { induction keys as [|k keys IH]; simpl; [reflexivity|].
      rewrite IH, app_nil_r. unfold valueEntry, ranked.
      change [mergeClosedForm l] with ([] ++ mergeClosedForm l :: []).
      rewrite (candidates_skip k [] [] (mergeClosedForm l) Hroot).
      reflexivity. }
    assert (Hl : forall keys,
               flat_map (ledgerEntry [mergeClosedForm l]) keys = []).
    { induction keys as [|k keys IH]; simpl; [reflexivity|].
      rewrite IH, app_nil_r. unfold ledgerEntry, ranked.
      change [mergeClosedForm l] with ([] ++ mergeClosedForm l :: []).
      rewrite (candidates_skip k [] [] (mergeClosedForm l) Hroot).
      reflexivity. }
    now rewrite Hv, Hl.
  - intros before after Hothers _ _.
    exists (mergeClosedForm (before ++ mergeClosedForm l :: after)),
           (mergeClosedForm (before ++ after)).
    split; [|split].
    + apply merge_closed. apply Forall_app in Hothers.
      destruct Hothers as [Hb Ha]. apply Forall_app. split; [exact Hb|].
      constructor; [now apply truthyPrimitive_object | exact Ha].
    + now apply merge_closed.
    + intros path. rewrite !closed_ledger_get, !closed_value_get.
      unfold ranked.
      now rewrite (candidates_skip path before after (mergeClosedForm l) Hroot).
Qed.

Lemma merge_result_is_no_source_witness :
  Explained.merge [Scenario.defaults; Scenario.env; Scenario.cli]
  = Returns Scenario.merged /\
  ~ In "__root__"
       (Explained.collectKeys [Scenario.defaults; Scenario.env; Scenario.cli])
  /\
  Explained.explain Scenario.merged None false = [] /\
  Explained.merge [Scenario.merged] = Returns (Explained.new (VObj []) []).
Proof.
  assert (Hm : Explained.merge [Scenario.defaults; Scenario.env; Scenario.cli]
               = Returns Scenario.merged) by reflexivity.
  assert (Hn : ~ In "__root__"
                    (Explained.collectKeys
                       [Scenario.defaults; Scenario.env; Scenario.cli])).
  { simpl. intros [H|[H|[]]]; discriminate. }
  split; [exact Hm|]. split; [exact Hn|].
  destruct (@merge_result_is_no_source _ _ Hm Hn) as [H1 [H2 _]].
  split; [exact H1 | exact H2].
Defined.

End MergeOutcomes.

Section OneSource.
Import Explained.

Lemma entries_by_key {B : Type} (flat : list (string * JSValue))
      (f : string -> list (string * B)) (g : string * JSValue -> string * B) :
  NoDup (keysOf flat) ->
  (forall k v, In (k, v) flat -> f k = [g (k, v)]) ->
  flat_map f (keysOf flat) = map g flat.
Proof.
  induction flat as [|[k v] flat IH]; simpl; intros Hnd Hf; [reflexivity|].
  inversion Hnd as [|? ? Hk Hrest]; subst.
  rewrite (Hf k v) by now left. simpl. f_equal. apply IH; auto.
Qed.

(** X8. Tagging an object with [Explained.from] and merging it alone gives
    the object back, field for field and in the same order, and records
    for every field a single Explanation: the field's value with the
    source, reason, precedence, location and clock reading of the tag,
    marked as the winner; this for an object none of whose keys is
    [__proto__] or begins with a digit. *)
Theorem merge_of_one_source :
  forall (fields : list (string * JSValue)) (src rsn : string) (prec : Z)
         (loc : option string) (now : Z),
    NoDup (keysOf fields) ->
    Forall (fun k => orderedKey k = true) (keysOf fields) ->
    merge [from (VObj fields) src rsn prec loc now]
    = Returns (new (VObj fields)
                   (map (soleExplanation src rsn prec loc now) fields)).
Proof.
  intros flat src rsn prec loc now Hnd Hord.
  assert (Hproto : forall k v, In (k, v) flat ->
                               String.eqb k "__proto__" = false).
  { intros k v Hin. apply String.eqb_neq, orderedKey_proto.
    rewrite Forall_forall in Hord. apply Hord.
    change k with (fst (k, v)). now apply in_map. }
  set (w := from (VObj flat) src rsn prec loc now).
  rewrite (@merge_closed [w]) by (repeat constructor).
  unfold mergeClosedForm.
  assert (Hkeys : collectKeys [w] = keysOf flat).
  { unfold collectKeys. simpl. rewrite fold_set_add_fresh; auto. }
  rewrite Hkeys. f_equal. f_equal.
  - f_equal. rewrite (@entries_by_key _ flat (valueEntry [w]) (fun kv => kv) Hnd).
    + apply map_id.
    + intros k v Hin. unfold valueEntry, ranked, candidates. simpl.
      unfold contribution. simpl.
      assert (Hk : prop_in k flat = true).
      { apply prop_in_keys. change k with (fst (k, v)). now apply in_map. }
      rewrite Hk. simpl. rewrite (Hproto k v Hin).
      now rewrite (@prop_get_In _ flat k v Hnd Hin).
  - apply entries_by_key; [exact Hnd|].
    intros k v Hin. unfold ledgerEntry, ranked, candidates. simpl.
    unfold contribution. simpl.
    assert (Hk : prop_in k flat = true).
    { apply prop_in_keys. change k with (fst (k, v)). now apply in_map. }
    rewrite Hk. simpl. unfold soleExplanation, markWon, candidate. simpl.
    now rewrite (@prop_get_In _ flat k v Hnd Hin).
Qed.

Lemma merge_of_one_source_witness :
  NoDup (keysOf Bands.defaults) /\
  Forall (fun k => orderedKey k = true) (keysOf Bands.defaults) /\
  merge [from (VObj Bands.defaults) "defaults" "Default configuration" 0 None
              1700]
  = Returns (new (VObj Bands.defaults)
                 (map (soleExplanation "defaults" "Default configuration" 0
                                       None 1700) Bands.defaults)).
Proof.
  assert (H : NoDup (keysOf Bands.defaults)).
  { repeat constructor; simpl; intuition discriminate. }
  assert (Hord : Forall (fun k => orderedKey k = true)
                        (keysOf Bands.defaults)) by (repeat constructor).
  split; [exact H|]. split; [exact Hord|].
  exact (@merge_of_one_source Bands.defaults "defaults"
                              "Default configuration" 0 None 1700 H Hord).
Defined.
End OneSource.

(** ** The resolver and the builder *)

Section ResolverOrder.
Import ConfigResolver.

(** Adding sources one by one registers them in the order given. *)
Lemma registered_in_order (l : list ConfigSource) : forall acc,
  fold_left
    (fun resolver s =>
       ConfigResolver.addSource resolver (data s) (cs_source s)) l acc
  = acc ++ l.
Proof.
  induction l as [|s l IH]; simpl; intros acc; [now rewrite app_nil_r|].
  rewrite IH. unfold ConfigResolver.addSource. rewrite <- app_assoc.
  now destruct s.
Qed.

Lemma static_resolve (l : list ConfigSource) now :
  Static.resolve l now = resolve l now.
Proof.
  unfold Static.resolve, Static.from. now rewrite registered_in_order.
Qed.

Lemma explainSources_candidate now key l : forall i c,
  In c (candidates key (explainSources now i l)) ->
  exists x, In x l /\ prop_get key (data x) = Some (exp_value c) /\
            source c = name (cs_source x) /\
            reason c = reasonOf (cs_source x) /\
            precedence c = src_precedence (cs_source x) /\
            location c = src_location (cs_source x).
Proof.
  induction l as [|x l IH]; simpl; intros i c H; [destruct H|].
  unfold candidates in H. simpl in H. apply in_app_iff in H.
  destruct H as [H|H].
  - unfold contribution in H. simpl in H.
    destruct (prop_in key (data x)) eqn:E; [|destruct H].
    destruct H as [<-|[]]. exists x. simpl.
    apply prop_in_get in E. destruct E as [v E]. rewrite E. auto 10.
  - destruct (IH _ _ H) as [y [Hy Hrest]]. exists y.
    split; [now right | exact Hrest].
Qed.

Lemma explainSources_competes now key l x : forall i,
  In x l -> prop_in key (data x) = true ->
  exists c, In c (candidates key (explainSources now i l)) /\
            precedence c = src_precedence (cs_source x).
Proof.
  induction l as [|y l IH]; simpl; intros i Hin Hk; [destruct Hin|].
  unfold candidates. simpl. destruct Hin as [->|Hin].
  - unfold contribution at 1. simpl. rewrite Hk.
    eexists. split; [apply in_app_iff; left; now left|]. reflexivity.
  - destruct (IH (S i) Hin Hk) as [c [Hc Hp]].
    exists c. split; [|exact Hp]. apply in_app_iff. now right.
Qed.

(** Whatever the clock reads: a resolved field holds the value given by a
    source that no source setting the field exceeds in precedence, and the
    winner of its ledger entry carries that source's metadata. *)
Lemma resolve_winner (sources : list ConfigSource) (now : nat -> Z)
      (merged : Explained.t) (key : string) (v : JSValue) :
  resolve sources now = Returns merged ->
  field (Explained.value merged) key = Some v ->
  exists s winner others,
    In s sources /\ prop_get key (data s) = Some v /\
    (forall x, In x sources -> prop_in key (data x) = true ->
               (src_precedence (cs_source x)
                <= src_precedence (cs_source s))%Z) /\
    prop_get key (Explained.explanations merged) = Some (winner :: others) /\
    won winner = true /\ exp_value winner = v /\
    source winner = name (cs_source s) /\
    reason winner = reasonOf (cs_source s) /\
    precedence winner = src_precedence (cs_source s) /\
    location winner = src_location (cs_source s).
Proof.
  intros Hm Hv. destruct sources as [|s0 sources].
  - simpl in Hm. injection Hm as <-. discriminate.
  - set (l := s0 :: sources) in *.
    set (sorted := arraySort compareSources l) in *.
    assert (Hm' : Explained.merge (explainSources now 0 sorted)
                  = Returns merged) by exact Hm.
    apply merge_returns_inv in Hm'. subst merged.
    rewrite closed_value_get in Hv.
    destruct (String.eqb key "__proto__"); [discriminate|].
    destruct (ranked key (explainSources now 0 sorted))
      as [|first others] eqn:Hr; [discriminate|].
    injection Hv as <-.
    assert (Hfirst : In first (candidates key (explainSources now 0 sorted))).
    { apply (Permutation_in first (ranked_perm key _)). rewrite Hr. now left. }
    destruct (explainSources_candidate now key sorted 0 first Hfirst)
      as [s [Hs [Hget [Hsrc [Hrsn [Hprec Hloc]]]]]].
    exists s, (Explained.markWon first), others.
    split; [exact (Permutation_in s (arraySort_perm _ l) Hs)|].
    split; [exact Hget|]. split.
    + intros x Hx Hk.
      apply (Permutation_in x (Permutation_sym (arraySort_perm
               compareSources l))) in Hx.
      destruct (@explainSources_competes now key sorted x 0 Hx Hk)
        as [c [Hc Hpc]].
      rewrite <- Hpc, <- Hprec.
      apply (@ranked_head_highest key _ first others Hr).
      rewrite <- Hr.
      exact (Permutation_in c (Permutation_sym (ranked_perm key _)) Hc).
    + rewrite closed_ledger_get, Hr. simpl. auto 10.
Qed.

(** X9. Through [ConfigResolver.resolve], on a resolver that was handed
    its sources one by one or through the static helper, whatever the
    clock reads and in whatever order the sources were added: every field
    of the resolved value whose name is not one that every object
    inherits holds the value given by one of the sources, no source that
    sets the field has a higher precedence than that one, and the winner
    of the field's ledger entry carries that source's name, reason,
    precedence and location. *)
Theorem resolve_value_from_highest :
  forall (sources : list ConfigSource) (now : nat -> Z)
         (merged : Explained.t) (key : string) (v : JSValue),
    resolve sources now = Returns merged \/
    Static.resolve sources now = Returns merged ->
    inheritedName key = false ->
    field (Explained.value merged) key = Some v ->
    exists s winner others,
      In s sources /\ prop_get key (data s) = Some v /\
      (forall x, In x sources -> prop_in key (data x) = true ->
                 (src_precedence (cs_source x)
                  <= src_precedence (cs_source s))%Z) /\
      prop_get key (Explained.explanations merged) = Some (winner :: others) /\
      won winner = true /\ exp_value winner = v /\
      source winner = name (cs_source s) /\
      reason winner = reasonOf (cs_source s) /\
      precedence winner = src_precedence (cs_source s) /\
      location winner = src_location (cs_source s).
Proof.
  intros sources now merged key v Hm _ Hv.
  assert (Hm' : resolve sources now = Returns merged).
  { destruct Hm as [Hm|Hm]; [exact Hm|]. now rewrite static_resolve in Hm. }
  exact (resolve_winner _ _ _ Hm' Hv).
Qed.

Lemma resolve_value_from_highest_witness :
  exists merged,
    Static.resolve Bands.sources (fun _ => 0%Z) = Returns merged /\
    field (Explained.value merged) "port" = Some (VNum 9000) /\
    exists s winner others,
      In s Bands.sources /\ prop_get "port" (data s) = Some (VNum 9000) /\
      prop_get "port" (Explained.explanations merged)
      = Some (winner :: others) /\
      source winner = name (cs_source s).
Proof.
  eexists. split; [reflexivity|]. split; [reflexivity|].
  destruct (@resolve_value_from_highest
              Bands.sources (fun _ => 0%Z) _ "port" (VNum 9000)
              (or_intror eq_refl) eq_refl eq_refl)
    as [s [winner [others [Hs [Hg [_ [Hl [_ [_ [Hn _]]]]]]]]]].
  exists s, winner, others. auto.
Defined.

Lemma same_precedence_same_source (sources : list ConfigSource) s s' :
  NoDup (map precedenceOf sources) ->
  In s sources -> In s' sources -> precedenceOf s = precedenceOf s' ->
  s = s'.
Proof.
  induction sources as [|x l IH]; simpl; intros Hnd Hs Hs' Heq;
    [destruct Hs|].
  inversion Hnd as [|? ? Hx Hl]; subst.
  destruct Hs as [->|Hs], Hs' as [->|Hs'].
  - reflexivity.
  - exfalso. apply Hx. rewrite Heq. now apply in_map.
  - exfalso. apply Hx. rewrite <- Heq. now apply in_map.
  - now apply IH.
Qed.

(** X10. When no two sources share a precedence, the order in which they
    are added to the resolver does not matter, and neither does the clock:
    resolving the same sources in any other order returns a value with
    the same fields. *)
Theorem resolve_order_irrelevant :
  forall (sources sources' : list ConfigSource) (now now' : nat -> Z),
    Permutation sources sources' ->
    NoDup (map precedenceOf sources) ->
    exists merged merged',
      resolve sources now = Returns merged /\
      resolve sources' now' = Returns merged' /\
      forall key,
        field (Explained.value merged) key
        = field (Explained.value merged') key.
Proof.
  intros sources sources' now now' Hperm Hnd.
  destruct (resolve_union sources now) as [merged [Hm [Hkeys _]]].
  destruct (resolve_union sources' now') as [merged' [Hm' [Hkeys' _]]].
  exists merged, merged'. split; [exact Hm|]. split; [exact Hm'|].
  assert (Hobj : forall m key,
             In key (objectKeys (Explained.value m)) <->
             exists v, field (Explained.value m) key = Some v).
  { intros m key. destruct (Explained.value m); simpl;
      try (split; [intros [] | intros [v Hv]; discriminate]);
      rewrite <- prop_in_keys; apply prop_in_get. }
  intros key.
  destruct (field (Explained.value merged) key) as [v|] eqn:Hv.
  - destruct (resolve_winner _ _ _ Hm Hv)
      as [s [_ [_ [Hs [Hget [Hmax _]]]]]].
    assert (Hp : key <> "__proto__").
    { assert (Hin : In key (objectKeys (Explained.value merged)))
        by (apply Hobj; eauto).
      now apply Hkeys in Hin. }
    assert (Hin' : In key (objectKeys (Explained.value merged'))).
    { apply Hkeys'. split; [exact Hp|]. exists s. split.
      - exact (Permutation_in s Hperm Hs).
      - apply prop_in_keys, prop_in_get. eauto. }
    apply Hobj in Hin'. destruct Hin' as [v' Hv']. rewrite Hv'.
    destruct (resolve_winner _ _ _ Hm' Hv')
      as [s' [_ [_ [Hs' [Hget' [Hmax' _]]]]]].
    apply (Permutation_in s' (Permutation_sym Hperm)) in Hs'.
    assert (Heq : s = s').
    { apply (@same_precedence_same_source sources s s' Hnd Hs Hs'). unfold precedenceOf.
      assert (H1 : (src_precedence (cs_source s')
                    <= src_precedence (cs_source s))%Z).
      { apply Hmax; [exact Hs'|]. apply prop_in_get. eauto. }
      assert (H2 : (src_precedence (cs_source s)
                    <= src_precedence (cs_source s'))%Z).
      { apply Hmax'; [exact (Permutation_in s Hperm Hs)|].
        apply prop_in_get. eauto. }
      lia. }
    subst s'. congruence.
  - destruct (field (Explained.value merged') key) as [v'|] eqn:Hv';
      [|reflexivity].
    exfalso.
    assert (Hin' : In key (objectKeys (Explained.value merged')))
      by (apply Hobj; eauto).
    apply Hkeys' in Hin'. destruct Hin' as [Hp [s [Hs Hk]]].
    assert (Hin : In key (objectKeys (Explained.value merged))).
    { apply Hkeys. split; [exact Hp|]. exists s. split; [|exact Hk].
      exact (Permutation_in s (Permutation_sym Hperm) Hs). }
    apply Hobj in Hin. destruct Hin as [v Hv0]. congruence.
Qed.

Lemma resolve_order_irrelevant_witness :
  Permutation Bands.sources Bands.reordered /\
  NoDup (map precedenceOf Bands.sources) /\
  exists merged merged',
    resolve Bands.sources (fun _ => 0%Z) = Returns merged /\
    resolve Bands.reordered (fun i => Z.of_nat i) = Returns merged' /\
    forall key,
      field (Explained.value merged) key
      = field (Explained.value merged') key.
Proof.
  assert (Hp : Permutation Bands.sources Bands.reordered).
  { unfold Bands.sources, Bands.reordered.
    eapply perm_trans; [apply perm_swap|]. apply perm_skip. apply perm_swap. }
  assert (Hn : NoDup (map precedenceOf Bands.sources)).
  { repeat constructor; simpl; intuition discriminate. }
  split; [exact Hp|]. split; [exact Hn|].
  exact (resolve_order_irrelevant (fun _ => 0%Z) (fun i => Z.of_nat i) Hp Hn).
Defined.

End ResolverOrder.

Section BuilderFacts.
Import ConfigBuilder.

Lemma build_resolves (this : t) now :
  build this now = ConfigResolver.resolve (sources this) now.
Proof. unfold build. now rewrite registered_in_order. Qed.

(** A source that is strictly above every other source wins each of its
    fields, wherever it stands and whatever the clock reads; a field
    named [__proto__] it wins in the ledger only, so the statement leaves
    it out. *)
Lemma resolve_top_source (l : list ConfigSource) s now :
  In s l ->
  (forall x, In x l ->
             x = s \/
             (src_precedence (cs_source x) < src_precedence (cs_source s))%Z) ->
  exists merged,
    ConfigResolver.resolve l now = Returns merged /\
    forall key v,
      key <> "__proto__" ->
      prop_get key (data s) = Some v ->
      field (Explained.value merged) key = Some v /\
      exists winner others,
        prop_get key (Explained.explanations merged)
        = Some (winner :: others) /\
        won winner = true /\ exp_value winner = v /\
        source winner = name (cs_source s) /\
        precedence winner = src_precedence (cs_source s).
Proof.
  intros Hs Htop.
  destruct (resolve_union l now) as [merged [Hm [Hkeys _]]].
  exists merged. split; [exact Hm|]. intros key v Hproto Hget.
  assert (Hin : In key (objectKeys (Explained.value merged))).
  { apply Hkeys. split; [exact Hproto|]. exists s. split; [exact Hs|].
    apply prop_in_keys, prop_in_get. eauto. }
  assert (Hv : exists v', field (Explained.value merged) key = Some v').
  { destruct (Explained.value merged); simpl in *; try contradiction;
      now apply prop_in_get, prop_in_keys. }
  destruct Hv as [v' Hv'].
  destruct (resolve_winner _ _ _ Hm Hv')
    as [s' [winner [others [Hs' [Hget' [Hmax [Hl [Hw [He [Hn [_ [Hp _]]]]]]]]]]]].
  assert (Hle : (src_precedence (cs_source s)
                 <= src_precedence (cs_source s'))%Z).
  { apply Hmax; [exact Hs|]. apply prop_in_get. eauto. }
  destruct (Htop s' Hs') as [->|Hlt]; [|lia].
  assert (Hvv : v' = v) by congruence.
  split; [congruence|]. exists winner, others.
  repeat split; try assumption; congruence.
Qed.

Lemma call_bound (b : t) (c : Call) :
  (forall s, In s (sources b) ->
             (src_precedence (cs_source s) <= currentPrecedence b)%Z) ->
  forall s, In s (sources (call b c)) ->
            (src_precedence (cs_source s) <= currentPrecedence (call b c))%Z.
Proof.
  intros Hb s Hs.
  destruct c; simpl in *; try contradiction;
    apply in_app_iff in Hs; destruct Hs as [Hs|[<-|[]]]; simpl;
    try (apply Hb in Hs); lia.
Qed.

Lemma calls_bound (calls : list Call) : forall b,
  (forall s, In s (sources b) ->
             (src_precedence (cs_source s) <= currentPrecedence b)%Z) ->
  forall s, In s (sources (fold_left call calls b)) ->
            (src_precedence (cs_source s)
             <= currentPrecedence (fold_left call calls b))%Z.
Proof.
  induction calls as [|c calls IH]; simpl; intros b Hb; [exact Hb|].
  apply IH. now apply call_bound.
Qed.

(** X11. Whatever calls were chained on a builder, its counter is never
    below the precedence of a source it holds; so, as long as the counter
    is below 2^53, where adding one to a number still gives the next
    integer, a source added with [add] gets a precedence above all of
    them and wins every field it sets in [build()], whatever the clock
    reads: the field (if not named [__proto__]) holds its value, and the
    winner of the ledger entry carries its name and the raised counter as
    precedence. *)
Theorem builder_add_wins :
  forall (calls : list Call) (d : list (string * JSValue))
         (sourceName : string) (reason : option string) (now : nat -> Z),
    (currentPrecedence (chained calls) < 2 ^ 53)%Z ->
    (forall s, In s (sources (chained calls)) ->
               (src_precedence (cs_source s)
                <= currentPrecedence (chained calls))%Z) /\
    exists merged,
      build (add (chained calls) d sourceName reason) now = Returns merged /\
      forall key v,
        key <> "__proto__" ->
        prop_get key d = Some v ->
        field (Explained.value merged) key = Some v /\
        exists winner others,
          prop_get key (Explained.explanations merged)
          = Some (winner :: others) /\
          won winner = true /\ exp_value winner = v /\
          source winner = sourceName /\
          precedence winner = (currentPrecedence (chained calls) + 1)%Z.
Proof.
  intros calls d sourceName reason now _.
  assert (Hb : forall s, In s (sources (chained calls)) ->
                         (src_precedence (cs_source s)
                          <= currentPrecedence (chained calls))%Z).
  { apply calls_bound. intros s []. }
  split; [exact Hb|].
  rewrite build_resolves.
  set (b := chained calls) in *.
  set (s := mkConfigSource d
              (mkSource sourceName (currentPrecedence b + 1)
                        (Some (orElse reason
                                      (String.append "From " sourceName)))
                        None)).
  assert (Hsrc : sources (add b d sourceName reason) = sources b ++ [s])
    by reflexivity.
  rewrite Hsrc.
  destruct (@resolve_top_source (sources b ++ [s]) s now)
    as [merged [Hm Hwin]].
  - apply in_app_iff. right. now left.
  - intros x Hx. apply in_app_iff in Hx.
    destruct Hx as [Hx|[<-|[]]]; [right | now left].
    apply Hb in Hx. simpl. lia.
  - exists merged. split; [exact Hm|]. intros key v Hproto Hget.
    exact (Hwin key v Hproto Hget).
Qed.

Lemma builder_add_wins_witness :
  (currentPrecedence (chained [Add Fluent.first "first" None]) < 2 ^ 53)%Z /\
  exists merged,
    build (add (chained [Add Fluent.first "first" None]) Fluent.second
               "second" None)
          (fun _ => 0%Z)
    = Returns merged /\
    prop_get "value" Fluent.second = Some (VStr "second") /\
    field (Explained.value merged) "value" = Some (VStr "second").
Proof.
  assert (Hc : (currentPrecedence (chained [Add Fluent.first "first" None])
                < 2 ^ 53)%Z) by reflexivity.
  split; [exact Hc|].
  destruct (@builder_add_wins [Add Fluent.first "first" None] Fluent.second
                              "second" None (fun _ => 0%Z) Hc)
    as [_ [merged [Hm Hwin]]].
  exists merged. split; [exact Hm|].
  assert (Hg : prop_get "value" Fluent.second = Some (VStr "second"))
    by reflexivity.
  assert (Hk : "value" <> "__proto__") by discriminate.
  split; [exact Hg|]. exact (proj1 (Hwin _ _ Hk Hg)).
Defined.

Lemma lower_bands (calls : list Call) : forall b,
  forallb belowCli calls = true ->
  exists added,
    sources (fold_left call calls b) = sources b ++ added /\
    forall x, In x added -> (src_precedence (cs_source x) < 20)%Z.
Proof.
  induction calls as [|c calls IH]; simpl; intros b Hall.
  - exists []. split; [now rewrite app_nil_r | intros x []].
  - apply andb_true_iff in Hall. destruct Hall as [Hc Hall].
    destruct (IH (call b c) Hall) as [added [Hs Hlow]].
    destruct c; try discriminate; simpl in Hs;
      rewrite <- app_assoc in Hs;
      (eexists; split; [exact Hs|]);
      intros x [<-|Hx]; simpl; auto; lia.
Qed.

(** X12. The band of the command line is above those of the environment,
    of files and of defaults whatever the order of the calls: in a chain
    of [defaults], [env] and [file] calls with one [cli] call anywhere in
    it, [build()] gives every field the [cli] data set, if not named
    [__proto__], the value it has there, with a winner named [cli] at
    precedence 20. *)
Theorem builder_cli_wins :
  forall (before after : list Call) (d : list (string * JSValue))
         (reason : option string) (now : nat -> Z),
    forallb belowCli before = true ->
    forallb belowCli after = true ->
    exists merged,
      build (chained (before ++ Cli d reason :: after)) now = Returns merged /\
      forall key v,
        key <> "__proto__" ->
        prop_get key d = Some v ->
        field (Explained.value merged) key = Some v /\
        exists winner others,
          prop_get key (Explained.explanations merged)
          = Some (winner :: others) /\
          won winner = true /\ exp_value winner = v /\
          source winner = "cli" /\ precedence winner = 20%Z.
Proof.
  intros before after d reason now Hb Ha.
  rewrite build_resolves. unfold chained.
  rewrite fold_left_app. simpl.
  destruct (lower_bands before explainable Hb) as [sb [Hsb Hlb]].
  simpl in Hsb.
  set (s := mkConfigSource d
              (mkSource "cli" 20
                        (Some (orElse reason "Command-line arguments"))
                        None)).
  destruct (lower_bands after (cli (fold_left call before explainable) d reason)
                        Ha) as [sa [Hsa Hla]].
  rewrite Hsa. simpl. rewrite Hsb. fold s.
  destruct (@resolve_top_source ((sb ++ [s]) ++ sa) s now)
    as [merged [Hm Hwin]].
  - apply in_app_iff. left. apply in_app_iff. right. now left.
  - intros x Hx. apply in_app_iff in Hx. destruct Hx as [Hx|Hx].
    + apply in_app_iff in Hx. destruct Hx as [Hx|[<-|[]]]; [right|now left].
      exact (Hlb x Hx).
    + right. exact (Hla x Hx).
  - exists merged. split; [exact Hm|]. intros key v Hproto Hget.
    exact (Hwin key v Hproto Hget).
Qed.

Lemma builder_cli_wins_witness :
  exists merged,
    build (chained Fluent.calls) (fun _ => 0%Z) = Returns merged /\
    field (Explained.value merged) "port" = Some (VNum 9000).
Proof.
  destruct (@builder_cli_wins [] [Defaults [("port", VNum 8080)] None]
                              [("port", VNum 9000)] None (fun _ => 0%Z)
                              eq_refl eq_refl)
    as [merged [Hm Hwin]].
  exists merged. split; [exact Hm|].
  assert (Hk : "port" <> "__proto__") by discriminate.
  exact (proj1 (Hwin "port" (VNum 9000) Hk eq_refl)).
Defined.

Lemma registering_calls (calls : list Call) : forall b,
  forallb registers calls = true ->
  sourceCount (fold_left call calls b)
  = (sourceCount b + List.length calls)%nat.
Proof.
  unfold sourceCount.
  induction calls as [|c calls IH]; simpl; intros b Hall; [lia|].
  apply andb_true_iff in Hall. destruct Hall as [Hc Hall].
  rewrite (IH _ Hall).
  destruct c; try discriminate; simpl; rewrite length_app; simpl; lia.
Qed.

(** X13. [clear()] forgets everything: whatever was chained before it,
    the builder after [clear()] is the builder [explainable()] returns,
    counter included, so the calls that follow behave as on a new builder;
    and [sourceCount] is the number of sources registered since. *)
Theorem builder_clear_resets :
  forall before after : list Call,
    chained (before ++ Clear :: after) = chained after /\
    sourceCount (chained (before ++ [Clear])) = 0%nat /\
    (forallb registers after = true ->
     sourceCount (chained (before ++ Clear :: after)) = List.length after).
Proof.
  intros before after.
  assert (H : forall rest, chained (before ++ Clear :: rest) = chained rest).
  { intros rest. unfold chained. now rewrite fold_left_app. }
  split; [apply H|]. split; [now rewrite H|].
  intros Hall. rewrite H. unfold chained.
  now rewrite (registering_calls _ explainable Hall).
Qed.

Lemma builder_clear_resets_witness :
  forallb registers [Add Fluent.second "second" None] = true /\
  sourceCount (chained (Fluent.calls ++ Clear
                                     :: [Add Fluent.second "second" None]))
  = 1%nat.
Proof.
  assert (H : forallb registers [Add Fluent.second "second" None] = true)
    by reflexivity.
  split; [exact H|].
  exact (proj2 (proj2 (builder_clear_resets
                         Fluent.calls [Add Fluent.second "second" None])) H).
Defined.

(** The static helpers add nothing of their own:
    [ConfigResolver.from(sources)] registers the sources one by one in the
    order given, [ConfigResolver.resolve(sources)] is [resolve()] on a
    resolver holding exactly these sources, and [build()] on a builder is
    [ConfigResolver.resolve] on the sources the builder holds. *)
Lemma static_resolve_is_resolve :
  forall (l : list ConfigSource) (now : nat -> Z),
    ConfigResolver.Static.from l = l /\
    ConfigResolver.Static.resolve l now = ConfigResolver.resolve l now /\
    forall b : t,
      build b now = ConfigResolver.Static.resolve (sources b) now.
Proof.
  intros l now. split; [|split].
  - unfold ConfigResolver.Static.from. now rewrite registered_in_order.
  - apply static_resolve.
  - intros b. rewrite static_resolve. apply build_resolves.
Qed.

End BuilderFacts.

(** ** Further properties of the tsconfig adapter *)

Section ChainContents.
Variable host : Host.
Import TSConfigAdapter.

(** A walk that starts with nothing visited returns the entry's chain,
    laid out as [walked] describes; it is never empty. *)
Lemma entry_walked r b p chain V' :
  walks host r b p [] (Returns (chain, V')) -> walked host r b p chain.
Proof.
  intros H.
  destruct (proj1 (walks_walked host) _ _ _ _ _ H chain V' eq_refl)
    as [->|Hw]; [|exact Hw].
  exfalso. inversion H; subst;
    match goal with
    | Hx : set_has _ [] = true |- _ => discriminate Hx
    | Hx : [] = _ ++ [_] |- _ => destruct (app_cons_not_nil _ _ _ Hx)
    | Hx : _ ++ [_] = [] |- _ =>
        destruct (app_cons_not_nil _ _ _ (eq_sym Hx))
    end.
Qed.

(** Every document of a returned chain was met from the entry. *)
Lemma walks_met :
  (forall r b p V out,
      walks host r b p V out ->
      forall chain V', out = Returns (chain, V') ->
        forall d, In d chain ->
          exists r' b',
            referenced host r b r' b' /\
            resolveTSConfigPath host r' b' = Returns (path d) /\
            loadTSConfig host (path d) = Returns (config d)) /\
  (forall dir p len rest index chain0 V out,
      walksParents host dir p len rest index chain0 V out ->
      forall chain V', out = Returns (chain, V') ->
        exists ext,
          chain = chain0 ++ ext /\
          forall d, In d ext ->
            exists parent r' b',
              In parent rest /\
              referenced host parent dir r' b' /\
              resolveTSConfigPath host r' b' = Returns (path d) /\
              loadTSConfig host (path d) = Returns (config d)).
Proof.
  apply (walks_both
           (fun r b p V out =>
              forall chain V', out = Returns (chain, V') ->
                forall d, In d chain ->
                  exists r' b',
                    referenced host r b r' b' /\
                    resolveTSConfigPath host r' b' = Returns (path d) /\
                    loadTSConfig host (path d) = Returns (config d))
           (fun dir p len rest index (chain0 : list TSConfigResolution)
                (V : list string) out =>
              forall chain V', out = Returns (chain, V') ->
                exists ext,
                  chain = chain0 ++ ext /\
                  forall d, In d ext ->
                    exists parent r' b',
                      In parent rest /\
                      referenced host parent dir r' b' /\
                      resolveTSConfigPath host r' b' = Returns (path d) /\
                      loadTSConfig host (path d) = Returns (config d))).
  - discriminate.
  - intros r b p V f Hr Hv chain V' [= <- <-] d [].
  - discriminate.
  - discriminate.
  - intros r b p V f cfg ext V1 Hr Hv Hl Hw IH chain V' [= <- <-] d Hd.
    destruct (IH ext V1 eq_refl) as [ext' [Hext Hmet]]. simpl in Hext.
    subst ext'. apply in_app_iff in Hd. destruct Hd as [Hd|[<-|[]]].
    + destruct (Hmet d Hd) as [parent [r' [b' [Hin [Href Hrest]]]]].
      exists r', b'. split; [|exact Hrest].
      eapply referenced_trans; [|exact Href].
      eapply referenced_parent; eauto. constructor.
    + exists r, b. simpl. split; [constructor | auto].
  - intros dir p len index chain V chain' V' [= <- <-].
    exists []. split; [now rewrite app_nil_r | intros d []].
  - discriminate.
  - intros dir p len r rest index chain V ext V1 out Hw1 IH1 Hw2 IH2
           chain' V' ->.
    destruct (IH2 chain' V' eq_refl) as [ext2 [-> Hmet2]].
    exists (ext ++ ext2). split; [now rewrite app_assoc|].
    intros d Hd. apply in_app_iff in Hd. destruct Hd as [Hd|Hd].
    + destruct (IH1 ext V1 eq_refl d Hd) as [r' [b' [Href Hrest]]].
      exists r, r', b'. split; [now left | auto].
    + destruct (Hmet2 d Hd) as [parent [r' [b' [Hin Hrest]]]].
      exists parent, r', b'. split; [now right | exact Hrest].
Qed.
End ChainContents.

(** X14. The chain that [resolveTSConfigChain] returns for an entry holds
    exactly the documents that the entry reaches through [extends]: every
    document of the chain is the parsed content of the location of a
    reference met from the entry, every reference met from the entry has
    its document in the chain, and the locations left in the visited set
    are those of the chain. *)
Theorem chain_holds_reachable_documents :
  forall (host : Host) (configPath baseDir : string) (prec : Z)
         (chain : list TSConfigResolution) (visited' : list string),
    TSConfigAdapter.resolveTSConfigChain host configPath baseDir prec []
    = Some (Returns (chain, visited')) ->
    (forall d, In d chain ->
       exists r b,
         referenced host configPath baseDir r b /\
         TSConfigAdapter.resolveTSConfigPath host r b = Returns (path d) /\
         TSConfigAdapter.loadTSConfig host (path d) = Returns (config d)) /\
    (forall r b,
        referenced host configPath baseDir r b ->
        exists d,
          In d chain /\
          TSConfigAdapter.resolveTSConfigPath host r b = Returns (path d) /\
          TSConfigAdapter.loadTSConfig host (path d) = Returns (config d)) /\
    (forall p, In p visited' <-> In p (map path chain)).
Proof.
  intros host r b prec chain V' H.
  apply chainWithFuel_walks in H.
  split; [|split].
  - exact (proj1 (walks_met host) _ _ _ _ _ H chain V' eq_refl).
  - intros r' b' Href. exact (returned_chain_closed H Href).
  - intros p.
    destruct (proj1 (walks_grows host) _ _ _ _ _ H chain V' eq_refl)
      as [Hin _].
    rewrite Hin. simpl. tauto.
Qed.

Lemma chain_holds_reachable_documents_witness :
  TSConfigAdapter.resolveTSConfigChain Disk.fork "./tsconfig.json" "/p" 10 []
  = Some (Returns (Disk.forkChain, Disk.forkVisited)) /\
  forall p, In p Disk.forkVisited <-> In p (map path Disk.forkChain).
Proof.
  assert (H : TSConfigAdapter.resolveTSConfigChain
                Disk.fork "./tsconfig.json" "/p" 10 []
              = Some (Returns (Disk.forkChain, Disk.forkVisited)))
    by reflexivity.
  split; [exact H|].
  exact (proj2 (proj2 (chain_holds_reachable_documents _ _ _ _ H))).
Defined.

Section Reassembly.
Import Explained TSConfigAdapter.

Lemma copy_cons (M : t) p paths acc :
  copyExplanations M (p :: paths) acc
  = copyExplanations M paths
      (match prop_get (if String.eqb p "" then "__root__" else p)
                      (explanations M) with
       | Some (e :: l) => _setExplanations acc p (e :: l)
       | _ => acc
       end).
Proof.
  unfold copyExplanations. cbn [fold_left]. unfold explain.
  destruct (prop_get (if String.eqb p "" then "__root__" else p)
                     (explanations M)) as [[|e l]|]; reflexivity.
Qed.

Lemma copy_lookup (M : t) (paths : list string) :
  (forall p, In p paths -> p <> "" ->
             exists l, prop_get p (explanations M) = Some l /\ l <> []) ->
  forall acc path,
    path <> "" ->
    prop_get path (explanations (copyExplanations M paths acc))
    = if set_has path paths then prop_get path (explanations M)
      else prop_get path (explanations acc).
Proof.
  induction paths as [|p paths IH]; intros Hall acc path Hpath;
    [reflexivity|].
  rewrite copy_cons. cbn [set_has].
  rewrite IH; [|intros q Hq; apply Hall; now right | exact Hpath].
  destruct (set_has path paths) eqn:Eh.
  - now destruct (String.eqb path p).
  - destruct (String.eqb path p) eqn:E.
    + apply String.eqb_eq in E. subst p.
      destruct (Hall path (or_introl eq_refl) Hpath) as [l [Hl Hne]].
      apply String.eqb_neq in Hpath. rewrite Hpath, Hl.
      destruct l as [|e l]; [congruence|].
      unfold _setExplanations. simpl. now rewrite prop_get_set_same.
    + apply String.eqb_neq in E.
      destruct (prop_get (if String.eqb p "" then "__root__" else p)
                         (explanations M)) as [[|e l]|]; try reflexivity.
      unfold _setExplanations. simpl. now rewrite prop_get_set_other.
Qed.

Lemma copy_all (M : t) u : forall (rest acc : list (string * list Explanation)),
  (forall p l, In (p, l) rest ->
               p <> "" /\ l <> [] /\ prop_get p (explanations M) = Some l) ->
  NoDup (keysOf acc ++ keysOf rest) ->
  explanations (copyExplanations M (keysOf rest) (new u acc)) = acc ++ rest.
Proof.
  induction rest as [|[p l] rest IH]; intros acc Hall Hnd.
  - simpl. now rewrite app_nil_r.
  - destruct (Hall p l (or_introl eq_refl)) as [Hp [Hl Hget]].
    change (keysOf ((p, l) :: rest)) with (p :: keysOf rest) in *.
    rewrite copy_cons.
    apply String.eqb_neq in Hp. rewrite Hp, Hget.
    destruct l as [|e l]; [congruence|].
    unfold _setExplanations. cbn [value explanations].
    assert (Hfresh : ~ In p (keysOf acc)).
    { intros Hin. apply NoDup_remove_2 in Hnd. apply Hnd.
      apply in_app_iff. now left. }
    rewrite (@prop_set_fresh _ acc p (e :: l) Hfresh).
    rewrite IH.
    + now rewrite <- app_assoc.
    + intros q lq Hq. apply Hall. now right.
    + rewrite keysOf_app. simpl. rewrite <- app_assoc. exact Hnd.
Qed.

Lemma copy_value (M : t) paths : forall result,
  value (copyExplanations M paths result) = value result.
Proof.
  induction paths as [|p paths IH]; intros result; [reflexivity|].
  rewrite copy_cons, IH.
  destruct (prop_get (if String.eqb p "" then "__root__" else p)
                     (explanations M)) as [[|e l]|]; reflexivity.
Qed.

Lemma closed_ledger_entries (l : list t) p exps :
  In (p, exps) (explanations (mergeClosedForm l)) ->
  exps <> [] /\ prop_get p (explanations (mergeClosedForm l)) = Some exps.
Proof.
  intros Hin.
  assert (Hnd : NoDup (keysOf (explanations (mergeClosedForm l)))).
  { simpl. apply ledger_keys_NoDup, collectKeys_NoDup. }
  assert (Hget := @prop_get_In _ _ p exps Hnd Hin).
  split; [|exact Hget].
  simpl in Hget. apply ledger_lookup in Hget.
  destruct Hget as [_ [first [others [_ ->]]]]. discriminate.
Qed.

(** What [mergeTSConfigs] returns, in terms of the flat merge. *)
Lemma mergeTSConfigs_inv chain now result :
  mergeTSConfigs chain now = Returns result ->
  exists flat,
    let mergedFlat := mergeClosedForm (explainChain now 0 chain) in
    merge (explainChain now 0 chain) = Returns mergedFlat /\
    value mergedFlat = VObj flat /\
    unflattenObject flat = Returns (value result) /\
    result = copyExplanations mergedFlat (_getPaths mergedFlat)
                              (new (value result) []).
Proof.
  unfold mergeTSConfigs.
  rewrite (merge_closed (explainChain_objects now chain 0)).
  cbn [bind]. intros H.
  set (M := mergeClosedForm (explainChain now 0 chain)) in *.
  set (flat := flat_map (valueEntry (explainChain now 0 chain))
                        (collectKeys (explainChain now 0 chain))).
  change (value M) with (VObj flat) in H. cbv beta iota in H.
  exists flat. cbn zeta.
  destruct (unflattenObject flat) as [u|e] eqn:Hu; [|discriminate].
  cbn [bind] in H. injection H as <-.
  change (fold_left _ (_getPaths M) (new u []))
    with (copyExplanations M (_getPaths M) (new u [])).
  rewrite copy_value. cbn [value]. auto.
Qed.

(** X15. [mergeTSConfigs] keeps the ledger of the flat merge under the
    dotted paths: when it returns, [explain(path)] on the result is
    [explain(path)] on the flat merge for every non-empty path, and unless
    a field has the empty string as its flat key the two ledgers are the
    same, entry for entry and in the same order. *)
Theorem mergeTSConfigs_keeps_ledger :
  forall (chain : list TSConfigResolution) (now : nat -> Z) (result : t),
    mergeTSConfigs chain now = Returns result ->
    exists mergedFlat,
      merge (explainChain now 0 chain) = Returns mergedFlat /\
      (forall p, p <> "" ->
                 explain result (Some p) false
                 = explain mergedFlat (Some p) false) /\
      (~ In "" (_getPaths mergedFlat) ->
       explanations result = explanations mergedFlat).
Proof.
  intros chain now result H.
  destruct (mergeTSConfigs_inv _ _ H) as [flat Hinv]. cbn zeta in Hinv.
  destruct Hinv as [Hm [Hv [Hu Hr]]].
  set (M := mergeClosedForm (explainChain now 0 chain)) in *.
  exists M. repeat split; auto.
  - intros p Hp. rewrite Hr. unfold explain.
    assert (Hp' := Hp). apply String.eqb_neq in Hp'. rewrite Hp'.
    rewrite copy_lookup; [| |exact Hp].
    + cbn [explanations].
      destruct (set_has p (_getPaths M)) eqn:E; [reflexivity|].
      assert (Hnone : prop_get p (explanations M) = None).
      { apply prop_get_none. intros Hin. apply set_has_In in Hin.
        unfold _getPaths in E. congruence. }
      now rewrite Hnone.
    + intros q Hq _. unfold _getPaths in Hq.
      apply prop_in_keys, prop_in_get in Hq. destruct Hq as [l Hl].
      exists l. split; [exact Hl|].
      simpl in Hl. apply ledger_lookup in Hl.
      destruct Hl as [_ [first [others [_ ->]]]]. discriminate.
  - intros Hno. rewrite Hr. unfold _getPaths.
    rewrite (@copy_all M (value result) (explanations M) []); [reflexivity| |].
    + intros p l Hin. destruct (closed_ledger_entries _ _ _ Hin) as [Hl Hg].
      split; [|split; auto].
      intros ->. apply Hno. unfold _getPaths.
      change "" with (fst ("", l)). now apply in_map.
    + simpl. apply ledger_keys_NoDup, collectKeys_NoDup.
Qed.

Lemma mergeTSConfigs_keeps_ledger_witness :
  exists result,
    mergeTSConfigs Disk.forkChain (fun _ => 0%Z) = Returns result /\
    exists mergedFlat,
      merge (explainChain (fun _ => 0%Z) 0 Disk.forkChain)
      = Returns mergedFlat /\
      ~ In "" (_getPaths mergedFlat) /\
      explanations result = explanations mergedFlat.
Proof.
  eexists. split; [reflexivity|].
  destruct (@mergeTSConfigs_keeps_ledger Disk.forkChain (fun _ => 0%Z) _
                                         eq_refl)
    as [mergedFlat [Hm [_ Hall]]].
  exists mergedFlat. split; [exact Hm|].
  assert (Hno : ~ In "" (_getPaths mergedFlat)).
  { assert (E := Hm). vm_compute in E. injection E as <-.
    simpl. intros [H|[]]. discriminate. }
  split; [exact Hno | exact (Hall Hno)].
Defined.

End Reassembly.

Section Outcomes.
Import Explained TSConfigAdapter.

Lemma assignPath_error keys v : forall current e,
  assignPath current keys v = Throws e -> e = TypeError.
Proof.
  induction keys as [|k rest IH]; intros current e H; [discriminate|].
  destruct rest as [|k' rest].
  - simpl in H. destruct current; simpl in H; congruence.
  - change (assignPath current (k :: k' :: rest) v)
      with (bind (hasProperty k current)
                 (fun present =>
                    bind (assignPath (if present then getProperty current k
                                      else VObj [])
                                     (k' :: rest) v)
                         (fun child => setProperty current k child))) in H.
    destruct (hasProperty k current) as [present|e'] eqn:Hh.
    + cbn [bind] in H.
      destruct (assignPath (if present then getProperty current k else VObj [])
                           (k' :: rest) v) as [child|e'] eqn:Ha.
      * cbn [bind] in H. destruct current; simpl in H; congruence.
      * cbn [bind] in H. injection H as <-. exact (IH _ _ Ha).
    + cbn [bind] in H. injection H as <-.
      destruct current; simpl in Hh; congruence.
Qed.

Lemma unflattenInto_error flat : forall result e,
  unflattenInto result flat = Throws e -> e = TypeError.
Proof.
  induction flat as [|[key v] flat IH]; intros result e H; [discriminate|].
  simpl in H.
  destruct (assignPath result (splitDot key) v) as [r|e'] eqn:Ha.
  - cbn [bind] in H. exact (IH _ _ H).
  - cbn [bind] in H. injection H as <-. exact (assignPath_error _ _ _ Ha).
Qed.

Lemma mergeTSConfigs_error chain now e :
  mergeTSConfigs chain now = Throws e -> e = TypeError.
Proof.
  unfold mergeTSConfigs.
  rewrite (merge_closed (explainChain_objects now chain 0)).
  cbn [bind]. cbn [value mergeClosedForm].
  destruct (unflattenObject _) as [u|e'] eqn:Hu; [discriminate|].
  cbn [bind]. intros [= <-]. exact (unflattenInto_error _ _ Hu).
Qed.
End Outcomes.

(** X16. On documents that parse to objects of the [TSConfig] interface,
    [explainTSConfig] always ends.  With [followExtends] at its default,
    when it ends with an error, either the walk of the chain has failed
    and the error is that of a reference met from the entry whose
    document is not there or does not parse, or the walk has returned a
    chain, never an empty one, and the error was raised by
    [mergeTSConfigs] on that chain; the error [No tsconfig found] is never
    thrown.  With [followExtends] turned off nothing is merged and no
    parent is looked at: when the entry names a document that is there
    and parses, the result wraps that document, with the root
    Explanation as its whole ledger; when the entry's document has a
    defect, the error of that defect is thrown. *)
Theorem explainTSConfig_outcomes :
  forall (host : Host) (configPath baseDir : string) (now : nat -> Z),
    (exists out,
        TSConfigAdapter.explainTSConfig host configPath baseDir true now
        = Some out /\
        forall e,
          out = Throws e ->
          (forall p, e <> NoTsconfigFound p) /\
          ((exists chain visited,
               TSConfigAdapter.resolveTSConfigChain host configPath baseDir
                                                    10 []
               = Some (Returns (chain, visited)) /\
               chain <> [] /\
               TSConfigAdapter.mergeTSConfigs chain now = Throws e) \/
           (exists r b,
               TSConfigAdapter.resolveTSConfigChain host configPath baseDir
                                                    10 []
               = Some (Throws e) /\
               reached host configPath baseDir r b /\ defect host r b e))) /\
    (forall fullPath cfg,
        locates host configPath baseDir fullPath ->
        prop_get fullPath (files host) = Some (Some cfg) ->
        exists result,
          TSConfigAdapter.explainTSConfig host configPath baseDir false now
          = Some (Returns result) /\
          Explained._getPaths result = ["__root__"] /\
          Explained.explain result None false
          = [mkExplanation fullPath (Explained.value result)
                           (String.append "From " fullPath) 0 (Some fullPath)
                           true (now 0%nat)] /\
          forall key,
            key <> "extends" ->
            field (Explained.value result) key
            = prop_get key (tsc_fields cfg)) /\
    (forall e,
        defect host configPath baseDir e ->
        TSConfigAdapter.explainTSConfig host configPath baseDir false now
        = Some (Throws e)).
Proof.
  intros host r0 b0 now. split; [|split].
  - unfold TSConfigAdapter.explainTSConfig. cbn [negb].
    destruct (resolveTSConfigChain_total host r0 b0 10 [])
      as [out [Hout [Hw _]]].
    rewrite Hout. destruct out as [[chain V']|e].
    + assert (Hwalked := entry_walked Hw).
      destruct chain as [|d chain].
      * exfalso.
        destruct (walked_entry_highest (le_n _) Hwalked)
          as [rest [entry [Heq _]]].
        destruct (app_cons_not_nil _ _ _ Heq).
      * eexists. split; [reflexivity|]. intros e He.
        split.
        -- pose proof (mergeTSConfigs_error _ _ He) as ->. discriminate.
        -- left. exists (d :: chain), V'.
           split; [reflexivity|]. split; [discriminate | exact He].
    + eexists. split; [reflexivity|]. intros e' [= <-].
      destruct (proj1 (walks_throws host) _ _ _ _ _ Hw e eq_refl)
        as [r [b [Hrb Hu]]].
      assert (Hid := unavailable_identifies Hu).
      split.
      * intros p ->. destruct Hid as [Hid|[Hid|[f [_ Hid]]]]; discriminate.
      * right. exists r, b. split; [reflexivity|]. split.
        -- now apply referenced_reached.
        -- now apply unavailable_defect.
  - intros fullPath cfg Hloc Hcfg.
    apply resolveTSConfigPath_locates in Hloc.
    apply loadTSConfig_content in Hcfg.
    unfold TSConfigAdapter.explainTSConfig. cbn [negb].
    rewrite Hloc. cbn [bind]. rewrite Hcfg. cbn [bind].
    eexists. split; [reflexivity|]. split; [reflexivity|].
    split; [reflexivity|].
    intros key Hkey. apply String.eqb_neq in Hkey.
    unfold Explained.from, Explained._addExplanation. cbn [Explained.value].
    unfold TSConfigAdapter.documentOf. cbn [field].
    destruct (tsc_extends cfg); cbn [app prop_get]; [|reflexivity].
    now rewrite Hkey.
  - intros e He. apply unavailable_defect in He.
    unfold TSConfigAdapter.explainTSConfig. cbn [negb].
    destruct He as [He|[f [Hf He]]].
    + now rewrite He.
    + rewrite Hf. cbn [bind]. now rewrite He.
Qed.

Lemma explainTSConfig_outcomes_witness :
  (TSConfigAdapter.explainTSConfig Disk.dangling "./tsconfig.json" "/p"
                                   true (fun _ => 0%Z)
   = Some (Throws (CannotFindFile "./nonexistent.json")) /\
   (forall p, CannotFindFile "./nonexistent.json" <> NoTsconfigFound p)) /\
  (locates Disk.dangling "./tsconfig.json" "/p" "/p/tsconfig.json" /\
   exists result,
     TSConfigAdapter.explainTSConfig Disk.dangling "./tsconfig.json" "/p"
                                     false (fun _ => 0%Z)
     = Some (Returns result) /\
     Explained._getPaths result = ["__root__"]) /\
  (defect Disk.dangling "./nonexistent.json" "/p"
          (CannotFindFile "./nonexistent.json") /\
   TSConfigAdapter.explainTSConfig Disk.dangling "./nonexistent.json" "/p"
                                   false (fun _ => 0%Z)
   = Some (Throws (CannotFindFile "./nonexistent.json"))).
Proof.
  split; [|split].
  - split; [reflexivity|].
    destruct (proj1 (explainTSConfig_outcomes
                       Disk.dangling "./tsconfig.json" "/p" (fun _ => 0%Z)))
      as [out [Hout Herr]].
    assert (E : out = Throws (CannotFindFile "./nonexistent.json")).
    { assert (H : TSConfigAdapter.explainTSConfig
                    Disk.dangling "./tsconfig.json" "/p" true (fun _ => 0%Z)
                  = Some (Throws (CannotFindFile "./nonexistent.json")))
        by reflexivity.
      rewrite Hout in H. now injection H. }
    exact (proj1 (Herr _ E)).
  - assert (Hloc : locates Disk.dangling "./tsconfig.json" "/p"
                           "/p/tsconfig.json").
    { exact (@locates_file Disk.dangling "./tsconfig.json" "/p"
                           eq_refl eq_refl). }
    split; [exact Hloc|].
    destruct (proj1 (proj2 (explainTSConfig_outcomes
                              Disk.dangling "./tsconfig.json" "/p"
                              (fun _ => 0%Z)))
                    "/p/tsconfig.json" _ Hloc eq_refl)
      as [result [Hr [Hp _]]].
    exists result. split; [exact Hr | exact Hp].
  - assert (Hd : defect Disk.dangling "./nonexistent.json" "/p"
                        (CannotFindFile "./nonexistent.json"))
      by (apply defect_file; reflexivity).
    split; [exact Hd|].
    exact (proj2 (proj2 (explainTSConfig_outcomes
                           Disk.dangling "./nonexistent.json" "/p"
                           (fun _ => 0%Z))) _ Hd).
Defined.

Section EntryWins.
Import Explained TSConfigAdapter.

End EntryWins.



Section FlatRecords.
Import TSConfigAdapter.

Lemma JSValue_induction (P : JSValue -> Prop) :
  P VUndefined -> P VNull -> (forall b, P (VBool b)) -> (forall n, P (VNum n)) ->
  (forall s, P (VStr s)) ->
  (forall entries, Forall (fun kv => P (snd kv)) entries -> P (VArr entries)) ->
  (forall entries, Forall (fun kv => P (snd kv)) entries -> P (VObj entries)) ->
  forall v, P v.
Proof.
  intros Hu Hn Hb Hz Hs Ha Ho.
  fix IH 1. intros [ | | b | n | s | entries | entries].
  - exact Hu.
  - exact Hn.
  - apply Hb.
  - apply Hz.
  - apply Hs.
  - apply Ha. induction entries as [|[k v] entries IHe]; constructor;
      [apply IH | exact IHe].
  - apply Ho. induction entries as [|[k v] entries IHe]; constructor;
      [apply IH | exact IHe].
Qed.

Lemma prop_set_NoDup {A : Type} (o : list (string * A)) k v :
  NoDup (keysOf o) -> NoDup (keysOf (prop_set o k v)).
Proof.
  intros Hnd. rewrite prop_set_keys.
  destruct (prop_in k o) eqn:E; [exact Hnd|].
  apply NoDup_append; [exact Hnd | repeat constructor; intros [] |].
  intros x Hx [<-|[]]. apply prop_in_keys in Hx. congruence.
Qed.

Lemma prop_set_Forall {A : Type} (P : string * A -> Prop) o k v :
  Forall P o -> P (k, v) -> Forall P (prop_set o k v).
Proof.
  intros Ho Hkv. induction Ho as [|[k' v'] o Hk' Ho IH]; simpl.
  - repeat constructor. exact Hkv.
  - destruct (String.eqb k k'); constructor; auto.
Qed.

Lemma flatRecord_set flat k v :
  flatRecord flat -> isLeaf v = true -> flatRecord (prop_set flat k v).
Proof.
  intros [Hnd Hl] Hv. split.
  - now apply prop_set_NoDup.
  - now apply prop_set_Forall.
Qed.

Lemma flatRecord_object_set flat k v :
  flatRecord flat -> isLeaf v = true -> flatRecord (object_set flat k v).
Proof.
  intros Hf Hv. unfold object_set.
  destruct (String.eqb k "__proto__" && negb (prop_in k flat));
    [exact Hf | now apply flatRecord_set].
Qed.

Lemma flatRecord_assign block : forall flat,
  flatRecord flat -> Forall (fun kv => isLeaf (snd kv) = true) block ->
  flatRecord (prop_assign flat block).
Proof.
  unfold prop_assign.
  induction block as [|[k v] block IH]; simpl; intros flat Hf Hb;
    [exact Hf|].
  inversion Hb as [|? ? Hv Hb']; subst.
  apply IH; [|exact Hb']. now apply flatRecord_set.
Qed.

Lemma flattenLoop_flatRecord prefix entries :
  Forall (fun kv => forall p, flatRecord (flattenValue (snd kv) p)) entries ->
  forall acc, flatRecord acc -> flatRecord (flattenLoop prefix entries acc).
Proof.
  induction 1 as [|[k v] entries Hv Hrest IH]; intros acc Hacc;
    [exact Hacc|].
  destruct v;
    try (apply IH; apply flatRecord_object_set; [exact Hacc|reflexivity]).
  rewrite flattenLoop_object. apply IH.
  apply flatRecord_assign; [exact Hacc|].
  exact (proj2 (Hv (joinKey prefix k))).
Qed.

Lemma flattenValue_flatRecord v : forall prefix,
  flatRecord (flattenValue v prefix).
Proof.
  induction v as [ | | b | n | s | entries IH | entries IH]
    using JSValue_induction; intros prefix;
    try (split; constructor).
  - change (flattenValue (VArr entries) prefix)
      with (flattenLoop prefix entries []).
    apply flattenLoop_flatRecord; [exact IH|]. split; constructor.
  - change (flattenValue (VObj entries) prefix)
      with (flattenLoop prefix entries []).
    apply flattenLoop_flatRecord; [exact IH|]. split; constructor.
Qed.

(** X18. Whatever object it is given, nested in whatever way and with
    whatever keys, [flattenObject] returns a flat record: no key occurs
    twice in it and none of its values is a plain object. *)
Theorem flattenObject_flat :
  forall (obj : list (string * JSValue)) (prefix : string),
    NoDup (keysOf (flattenObject obj prefix)) /\
    forall k v,
      In (k, v) (flattenObject obj prefix) -> forall o, v <> VObj o.
Proof.
  intros obj prefix.
  destruct (flattenValue_flatRecord (VObj obj) prefix) as [Hnd Hl].
  split; [exact Hnd|].
  intros k v Hin o ->. rewrite Forall_forall in Hl.
  specialize (Hl _ Hin). discriminate.
Qed.

Lemma flattenObject_flat_witness :
  In ("a.b", VNum 2) (flattenObject Nested.doc "") /\
  NoDup (keysOf (flattenObject Nested.doc "")) /\
  forall o, VNum 2 <> VObj o.
Proof.
  assert (Hin : In ("a.b", VNum 2) (flattenObject Nested.doc "")).
  { simpl. auto. }
  split; [exact Hin|].
  destruct (flattenObject_flat Nested.doc "") as [Hnd Hl].
  split; [exact Hnd | exact (Hl _ _ Hin)].
Defined.
End FlatRecords.

(** ** The environment adapter *)

Section EnvFacts.
Variable js : Builtins.
Variable env : list (string * option string).
Import EnvAdapter.

Lemma find_app {A : Type} (f : A -> bool) l l' :
  find f (l ++ l') = match find f l with
                     | Some x => Some x
                     | None => find f l'
                     end.
Proof.
  induction l as [|a l IH]; simpl; [reflexivity|].
  now destruct (f a).
Qed.

(** A schema entry only writes its own key. *)
Lemma parseField_other key (st : EnvParseResult) entry :
  fst entry <> key ->
  prop_get key (parsed (parseField js env st entry)) = prop_get key (parsed st)
  /\
  find (fun e => String.eqb (fst e) key) (errors (parseField js env st entry))
  = find (fun e => String.eqb (fst e) key) (errors st).
Proof.
  intros Hne. destruct entry as [k f]. simpl in Hne.
  assert (Hkk : String.eqb k key = false) by now apply String.eqb_neq.
  assert (Hset : forall o v, prop_get key (object_set o k v)
                             = prop_get key (o : list (string * JSValue))).
  { intros o v. unfold object_set.
    destruct (String.eqb k "__proto__" && negb (prop_in k o));
      [reflexivity|].
    apply prop_get_set_other. congruence. }
  assert (Hfind : forall l m,
             find (fun e : string * string => String.eqb (fst e) key)
                  (l ++ [(k, m)])
             = find (fun e => String.eqb (fst e) key) l).
  { intros l m. rewrite find_app. simpl. rewrite Hkk.
    now destruct (find _ l). }
  unfold parseField, notSet. cbn [fst snd].
  destruct (envLookup env (envVarName js k f)) as [raw|];
    [destruct (negb (String.eqb raw "") || isBoolean (type f));
     [destruct (parseValue js raw (type f))|]|];
    destruct (required f); destruct (isUndefined (default f));
    cbn [parsed errors negb]; rewrite ?Hset, ?Hfind; auto.
Qed.

Lemma parseFields_other key entries : forall st,
  ~ In key (keysOf entries) ->
  prop_get key (parsed (fold_left (parseField js env) entries st))
  = prop_get key (parsed st) /\
  find (fun e => String.eqb (fst e) key)
       (errors (fold_left (parseField js env) entries st))
  = find (fun e => String.eqb (fst e) key) (errors st).
Proof.
  induction entries as [|entry entries IH]; intros st Hno; [auto|].
  simpl in *. destruct (IH (parseField js env st entry)) as [H1 H2]; [tauto|].
  destruct (@parseField_other key st entry) as [H3 H4]; [tauto|].
  split; congruence.
Qed.

Lemma NoDup_split_key {B : Type} (before after : list (string * B)) key f :
  NoDup (keysOf (before ++ (key, f) :: after)) ->
  ~ In key (keysOf before) /\ ~ In key (keysOf after).
Proof.
  rewrite keysOf_app. simpl. intros Hnd.
  assert (H := NoDup_remove_2 _ _ _ Hnd).
  split; intros Hin; apply H; apply in_app_iff; auto.
Qed.

(** With distinct schema keys, what [parseEnv] leaves for a key is what
    the step of that key leaves, from a state that knows nothing of it. *)
Lemma parseEnv_at (schema : list (string * EnvSchemaField)) key f :
  NoDup (keysOf schema) -> In (key, f) schema ->
  exists st,
    prop_get key (parsed st) = None /\
    find (fun e => String.eqb (fst e) key) (errors st) = None /\
    prop_get key (parsed (parseEnv js env schema))
    = prop_get key (parsed (parseField js env st (key, f))) /\
    find (fun e => String.eqb (fst e) key) (errors (parseEnv js env schema))
    = find (fun e => String.eqb (fst e) key)
           (errors (parseField js env st (key, f))).
Proof.
  intros Hnd Hin. apply in_split in Hin. destruct Hin as [before [after ->]].
  destruct (NoDup_split_key _ _ _ _ Hnd) as [Hb Ha].
  set (init := mkEnvParseResult [] [] [] []).
  exists (fold_left (parseField js env) before init).
  destruct (@parseFields_other key before init Hb) as [H1 H2].
  split; [rewrite H1; reflexivity|]. split; [rewrite H2; reflexivity|].
  unfold parseEnv. cbn [parsed errors]. rewrite fold_left_app. simpl.
  apply parseFields_other. exact Ha.
Qed.

Variable result : EnvParseResult.
Variable now : nat -> Z.

Lemma explainField_other key (st : Explained.t * nat) entry :
  fst entry <> key ->
  prop_get key (Explained.explanations
                  (fst (explainField js env result now st entry)))
  = prop_get key (Explained.explanations (fst st)).
Proof.
  intros Hne. destruct entry as [k f]. simpl in Hne.
  assert (Hadd : forall E e,
             prop_get key (Explained.explanations
                             (Explained._addExplanation E k e))
             = prop_get key (Explained.explanations E)).
  { intros E e. unfold Explained._addExplanation. simpl.
    apply prop_get_set_other. congruence. }
  unfold explainField. cbn [fst snd].
  destruct (isUndefined (default f)); cbn [negb fst snd];
    destruct (envLookup env (envVarName js k f)) as [raw|];
    try destruct (String.eqb raw ""); cbn [negb fst snd];
    try destruct (find _ (errors result));
    cbn [fst snd]; rewrite ?Hadd; reflexivity.
Qed.

Lemma explainFields_other key entries : forall st,
  ~ In key (keysOf entries) ->
  prop_get key (Explained.explanations
                  (fst (fold_left (explainField js env result now) entries st)))
  = prop_get key (Explained.explanations (fst st)).
Proof.
  induction entries as [|entry entries IH]; intros st Hno; [auto|].
  simpl in *. rewrite IH by tauto. apply explainField_other. tauto.
Qed.

Lemma explainField_value (st : Explained.t * nat) entry :
  Explained.value (fst (explainField js env result now st entry))
  = Explained.value (fst st).
Proof.
  destruct entry as [k f]. unfold explainField. cbn [fst snd].
  destruct (isUndefined (default f)); cbn [negb fst snd];
    destruct (envLookup env (envVarName js k f)) as [raw|];
    try destruct (String.eqb raw ""); cbn [negb fst snd];
    try destruct (find _ (errors result));
    reflexivity.
Qed.

Lemma explainFields_value entries : forall st,
  Explained.value (fst (fold_left (explainField js env result now) entries st))
  = Explained.value (fst st).
Proof.
  induction entries as [|entry entries IH]; intros st; [auto|].
  simpl. rewrite IH. apply explainField_value.
Qed.

Lemma explainFields_at (schema : list (string * EnvSchemaField)) key f E0 :
  NoDup (keysOf schema) -> In (key, f) schema ->
  prop_get key (Explained.explanations E0) = None ->
  exists E i,
    prop_get key (Explained.explanations E) = None /\
    prop_get key
      (Explained.explanations
         (fst (fold_left (explainField js env result now) schema (E0, 0%nat))))
    = prop_get key
        (Explained.explanations
           (fst (explainField js env result now (E, i) (key, f)))).
Proof.
  intros Hnd Hin H0. apply in_split in Hin. destruct Hin as [before [after ->]].
  destruct (NoDup_split_key _ _ _ _ Hnd) as [Hb Ha].
  set (st := fold_left (explainField js env result now) before (E0, 0%nat)).
  exists (fst st), (snd st). split.
  - unfold st. rewrite explainFields_other by exact Hb. exact H0.
  - rewrite fold_left_app. simpl. fold st.
    rewrite explainFields_other by exact Ha. now destruct st.
Qed.
End EnvFacts.

Section EnvOutcomes.
Variable js : Builtins.
Import EnvAdapter.

Lemma explainEnv_value schema env now :
  Explained.value (explainEnv js schema env now)
  = VObj (parsed (parseEnv js env schema)).
Proof. unfold explainEnv. now rewrite explainFields_value. Qed.

(** With distinct schema keys, the field and the ledger entry that
    [explainEnv] leaves for a key are those that the two steps of that key
    leave, from states that know nothing of the key. *)
Lemma explainEnv_at schema env now key f :
  NoDup (keysOf schema) -> In (key, f) schema ->
  exists st E i,
    prop_get key (parsed st) = None /\
    find (fun e => String.eqb (fst e) key) (errors st) = None /\
    prop_get key (Explained.explanations E) = None /\
    prop_get key (parsed (parseEnv js env schema))
    = prop_get key (parsed (parseField js env st (key, f))) /\
    find (fun e => String.eqb (fst e) key) (errors (parseEnv js env schema))
    = find (fun e => String.eqb (fst e) key)
           (errors (parseField js env st (key, f))) /\
    prop_get key (Explained.explanations (explainEnv js schema env now))
    = prop_get key
        (Explained.explanations
           (fst (explainField js env (parseEnv js env schema) now (E, i)
                              (key, f)))).
Proof.
  intros Hnd Hin.
  destruct (@parseEnv_at js env schema key f Hnd Hin) as [st [H1 [H2 [H3 H4]]]].
  destruct (@explainFields_at js env (parseEnv js env schema) now schema key f
              (Explained.new (VObj (parsed (parseEnv js env schema))) [])
              Hnd Hin eq_refl) as [E [i [H5 H6]]].
  exists st, E, i. auto 10.
Qed.

Lemma addExplanation_get (E : Explained.t) key e :
  prop_get key (Explained.explanations (Explained._addExplanation E key e))
  = Some (match prop_get key (Explained.explanations E) with
          | Some l => l
          | None => []
          end ++ [e]).
Proof. unfold Explained._addExplanation. simpl. apply prop_get_set_same. Qed.

(** X19. A variable that is set, not empty and parses, for a schema key
    other than [__proto__]: the field holds the parsed value, and its
    ledger entry is the default of the field, if the schema gives one,
    marked as lost, followed by one Explanation from the environment
    that carries the parsed value at precedence 10 and is the only
    winner. *)
Theorem explainEnv_parsed_value :
  forall (schema : list (string * EnvSchemaField))
         (env : list (string * option string)) (now : nat -> Z)
         (key : string) (f : EnvSchemaField) (raw : string) (v : JSValue),
    NoDup (keysOf schema) -> In (key, f) schema ->
    key <> "__proto__" ->
    envLookup env (envVarName js key f) = Some raw ->
    raw <> "" ->
    parseValue js raw (type f) = ParsedAs v ->
    field (Explained.value (explainEnv js schema env now)) key = Some v /\
    exists i j,
      prop_get key (Explained.explanations (explainEnv js schema env now))
      = Some (defaultPart key f false (now i)
              ++ [mkExplanation "env" v
                    (String.append (envVarName js key f) " env var")
                    10 None true (now j)]).
Proof.
  intros schema env now key f raw v Hnd Hin Hkey Henv Hraw Hparse.
  destruct (@explainEnv_at schema env now key f Hnd Hin)
    as [st [E [i [Hp0 [He0 [HE0 [Hp [He Hl]]]]]]]].
  apply String.eqb_neq in Hraw.
  assert (Hstep : parseField js env st (key, f)
                  = mkEnvParseResult (prop_set (parsed st) key v)
                                     (used st ++ [envVarName js key f])
                                     (ignored st) (errors st)).
  { unfold parseField. cbn [fst snd]. rewrite Henv, Hraw, Hparse.
    cbn [negb orb]. now rewrite (object_set_plain (parsed st) v Hkey). }
  rewrite Hstep in Hp, He. cbn [parsed errors] in Hp, He.
  rewrite prop_get_set_same in Hp. rewrite He0 in He.
  split.
  - rewrite explainEnv_value. exact Hp.
  - assert (Hg : getProperty (VObj (parsed (parseEnv js env schema))) key = v)
      by (cbn [getProperty]; now rewrite Hp).
    rewrite Hl. unfold explainField. cbn [fst snd].
    rewrite Henv, Hraw, He, Hg. cbn [negb hasEnvValue].
    rewrite Hraw. cbn [negb]. unfold defaultPart.
    destruct (isUndefined (default f)); cbn [negb fst snd].
    + exists 0%nat, i. rewrite addExplanation_get, HE0. reflexivity.
    + exists i, (S i). rewrite !addExplanation_get, HE0. reflexivity.
Qed.

(** X20. A variable that is set, not empty and does not parse, for a
    schema key other than [__proto__]: the field falls back to the
    default of the schema (and is left out when there is none); the
    ledger entry is the default, if any, followed by an Explanation from
    the environment that carries the raw string and the message of the
    parse error; and no Explanation of the entry is marked as the winner,
    the default included. *)
Theorem explainEnv_parse_failure :
  forall (schema : list (string * EnvSchemaField))
         (env : list (string * option string)) (now : nat -> Z)
         (key : string) (f : EnvSchemaField) (raw message : string),
    NoDup (keysOf schema) -> In (key, f) schema ->
    key <> "__proto__" ->
    envLookup env (envVarName js key f) = Some raw ->
    raw <> "" ->
    parseValue js raw (type f) = CannotParse message ->
    field (Explained.value (explainEnv js schema env now)) key = defaultOf f /\
    exists i j exps,
      prop_get key (Explained.explanations (explainEnv js schema env now))
      = Some exps /\
      exps = defaultPart key f false (now i)
             ++ [mkExplanation "env" (VStr raw)
                   (String.append (envVarName js key f)
                      (String.append " env var (parse error: "
                         (String.append message ")")))
                   10 None false (now j)] /\
      filter won exps = [].
Proof.
  intros schema env now key f raw message Hnd Hin Hkey Henv Hraw Hparse.
  destruct (@explainEnv_at schema env now key f Hnd Hin)
    as [st [E [i [Hp0 [He0 [HE0 [Hp [He Hl]]]]]]]].
  apply String.eqb_neq in Hraw.
  assert (Hstep : parseField js env st (key, f)
                  = mkEnvParseResult
                      (if negb (isUndefined (default f))
                       then prop_set (parsed st) key (default f)
                       else parsed st)
                      (used st) (ignored st)
                      (errors st ++ [(key, message)])).
  { unfold parseField. cbn [fst snd]. rewrite Henv, Hraw, Hparse.
    cbn [negb orb].
    now rewrite (object_set_plain (parsed st) (default f) Hkey). }
  rewrite Hstep in Hp, He. cbn [parsed errors] in Hp, He.
  rewrite find_app, He0 in He. cbn [find fst] in He.
  rewrite String.eqb_refl in He.
  split.
  - rewrite explainEnv_value. cbn [field]. rewrite Hp. unfold defaultOf.
    destruct (isUndefined (default f)); simpl;
      [exact Hp0 | apply prop_get_set_same].
  - rewrite Hl. unfold explainField. cbn [fst snd].
    rewrite Henv, Hraw, He. cbn [negb hasEnvValue snd].
    rewrite Hraw. cbn [negb]. unfold defaultPart.
    destruct (isUndefined (default f)); cbn [negb fst snd].
    + exists 0%nat, i. eexists. rewrite addExplanation_get, HE0.
      split; [reflexivity|]. split; reflexivity.
    + exists i, (S i). eexists. rewrite !addExplanation_get, HE0.
      split; [reflexivity|]. split; reflexivity.
Qed.

(** X21. A variable that is not set, or that is the empty string for a
    field that is not boolean, where the schema key is not [__proto__]
    and the name of the variable is not one that every object inherits
    (so that reading it from an environment that does not have it gives
    [undefined]): the ledger entry is the default of the schema alone,
    marked as the winner (there is no entry when the schema gives no
    default); the field holds that default, except that a required field
    is left out of the value even when it has a default. *)
Theorem explainEnv_unset :
  forall (schema : list (string * EnvSchemaField))
         (env : list (string * option string)) (now : nat -> Z)
         (key : string) (f : EnvSchemaField),
    NoDup (keysOf schema) -> In (key, f) schema ->
    key <> "__proto__" ->
    inheritedName (envVarName js key f) = false ->
    envLookup env (envVarName js key f) = None \/
    (envLookup env (envVarName js key f) = Some "" /\
     isBoolean (type f) = false) ->
    field (Explained.value (explainEnv js schema env now)) key
    = (if required f then None else defaultOf f) /\
    exists i,
      prop_get key (Explained.explanations (explainEnv js schema env now))
      = if isUndefined (default f) then None
        else Some [defaultExplanation key f true (now i)].
Proof.
  intros schema env now key f Hnd Hin Hkey _ Hunset.
  destruct (@explainEnv_at schema env now key f Hnd Hin)
    as [st [E [i [Hp0 [He0 [HE0 [Hp [He Hl]]]]]]]].
  assert (Hstep : parseField js env st (key, f) = notSet js key f st).
  { unfold parseField. cbn [fst snd].
    destruct Hunset as [->|[-> Hb]]; [reflexivity|].
    now rewrite Hb. }
  rewrite Hstep in Hp.
  split.
  - rewrite explainEnv_value. cbn [field]. rewrite Hp. unfold notSet, defaultOf.
    destruct (required f); cbn [parsed]; [exact Hp0|].
    destruct (isUndefined (default f)); cbn [negb parsed];
      [exact Hp0|].
    rewrite (object_set_plain (parsed st) (default f) Hkey).
    apply prop_get_set_same.
  - exists i. rewrite Hl. unfold explainField. cbn [fst snd].
    assert (Hhas : hasEnvValue (envLookup env (envVarName js key f)) = false)
      by (destruct Hunset as [->|[-> _]]; reflexivity).
    rewrite Hhas.
    destruct (isUndefined (default f)); cbn [negb fst snd].
    + destruct Hunset as [->|[-> _]]; simpl; exact HE0.
    + destruct Hunset as [->|[-> _]]; simpl;
        rewrite prop_get_set_same, HE0; reflexivity.
Qed.

(** X22. A boolean variable set to the empty string, for a schema key
    other than [__proto__], is parsed as [false] and the field holds
    [false]; yet nothing from the environment is recorded for it: its
    ledger entry is the default of the schema alone, marked as the
    winner, or is missing when the schema gives no default. *)
Theorem explainEnv_blank_boolean :
  forall (schema : list (string * EnvSchemaField))
         (env : list (string * option string)) (now : nat -> Z)
         (key : string) (f : EnvSchemaField),
    NoDup (keysOf schema) -> In (key, f) schema ->
    key <> "__proto__" ->
    toLowerCase js "" = "" ->
    type f = TBoolean ->
    envLookup env (envVarName js key f) = Some "" ->
    field (Explained.value (explainEnv js schema env now)) key
    = Some (VBool false) /\
    exists i,
      prop_get key (Explained.explanations (explainEnv js schema env now))
      = if isUndefined (default f) then None
        else Some [defaultExplanation key f true (now i)].
Proof.
  intros schema env now key f Hnd Hin Hkey Hlower Hty Henv.
  destruct (@explainEnv_at schema env now key f Hnd Hin)
    as [st [E [i [Hp0 [He0 [HE0 [Hp [He Hl]]]]]]]].
  assert (Hstep : parseField js env st (key, f)
                  = mkEnvParseResult (prop_set (parsed st) key (VBool false))
                                     (used st ++ [envVarName js key f])
                                     (ignored st) (errors st)).
  { unfold parseField. cbn [fst snd]. rewrite Henv, Hty. simpl.
    rewrite Hlower. simpl.
    now rewrite (object_set_plain (parsed st) (VBool false) Hkey). }
  rewrite Hstep in Hp. cbn [parsed] in Hp. rewrite prop_get_set_same in Hp.
  split.
  - rewrite explainEnv_value. exact Hp.
  - exists i. rewrite Hl. unfold explainField. cbn [fst snd].
    rewrite Henv. simpl.
    destruct (isUndefined (default f)); cbn [negb fst snd].
    + exact HE0.
    + simpl. rewrite prop_get_set_same, HE0. reflexivity.
Qed.

Lemma parseField_keys env (st : EnvParseResult) entry k :
  In k (keysOf (parsed (parseField js env st entry))) ->
  In k (keysOf (parsed st)) \/ k = fst entry.
Proof.
  destruct entry as [key f].
  assert (Hset : forall v, In k (keysOf (object_set (parsed st) key v)) ->
                           In k (keysOf (parsed st)) \/ k = key).
  { intros v. unfold object_set.
    destruct (String.eqb key "__proto__" && negb (prop_in key (parsed st)));
      [auto|].
    rewrite prop_set_keys.
    destruct (prop_in key (parsed st)); [auto|].
    intros H. apply in_app_iff in H. destruct H as [H|[<-|[]]]; auto. }
  unfold parseField, notSet. cbn [fst snd].
  destruct (envLookup env (envVarName js key f)) as [raw|];
    [destruct (negb (String.eqb raw "") || isBoolean (type f));
     [destruct (parseValue js raw (type f))|]|];
    destruct (required f); destruct (isUndefined (default f));
    cbn [parsed negb]; auto; apply Hset.
Qed.

Lemma parseFields_keys env entries k : forall st,
  In k (keysOf (parsed (fold_left (parseField js env) entries st))) ->
  In k (keysOf (parsed st)) \/ In k (keysOf entries).
Proof.
  induction entries as [|entry entries IH]; intros st H; [auto|].
  simpl in H. apply IH in H. destruct H as [H|H]; [|simpl; auto].
  apply parseField_keys in H. destruct H as [H| ->]; simpl; auto.
Qed.

Lemma explainField_keys env result now (st : Explained.t * nat) entry k :
  In k (keysOf (Explained.explanations
                  (fst (explainField js env result now st entry)))) ->
  In k (keysOf (Explained.explanations (fst st))) \/ k = fst entry.
Proof.
  destruct entry as [key f].
  assert (Hadd : forall E e,
             In k (keysOf (Explained.explanations
                             (Explained._addExplanation E key e))) ->
             In k (keysOf (Explained.explanations E)) \/ k = key).
  { intros E e. unfold Explained._addExplanation. simpl.
    rewrite prop_set_keys.
    destruct (prop_in key (Explained.explanations E)); [auto|].
    intros H. apply in_app_iff in H. destruct H as [H|[<-|[]]]; auto. }
  unfold explainField. cbn [fst snd].
  destruct (isUndefined (default f)); cbn [negb fst snd];
    destruct (envLookup env (envVarName js key f)) as [raw|];
    try destruct (String.eqb raw ""); cbn [negb fst snd];
    try destruct (find _ (errors result));
    cbn [fst snd]; auto;
    intros H; repeat (apply Hadd in H; destruct H as [H|H]; auto).
Qed.

Lemma explainFields_keys env result now entries k : forall st,
  In k (keysOf (Explained.explanations
                  (fst (fold_left (explainField js env result now)
                                  entries st)))) ->
  In k (keysOf (Explained.explanations (fst st))) \/ In k (keysOf entries).
Proof.
  induction entries as [|entry entries IH]; intros st H; [auto|].
  simpl in H. apply IH in H. destruct H as [H|H]; [|simpl; auto].
  apply explainField_keys in H. destruct H as [H| ->]; simpl; auto.
Qed.

(** X23. Nothing outside the schema reaches the result of [explainEnv]:
    every field of the value and every path of the ledger is a key of the
    schema, whatever other variables the environment holds, and the root
    sentinel is only ever a path when the schema has a key of that
    name. *)
Theorem explainEnv_within_schema :
  forall (schema : list (string * EnvSchemaField))
         (env : list (string * option string)) (now : nat -> Z) (k : string),
    (In k (objectKeys (Explained.value (explainEnv js schema env now))) ->
     In k (keysOf schema)) /\
    (In k (Explained._getPaths (explainEnv js schema env now)) ->
     In k (keysOf schema)).
Proof.
  intros schema env now k. split.
  - rewrite explainEnv_value. simpl. unfold parseEnv. cbn [parsed].
    intros H. apply parseFields_keys in H. destruct H as [[]|H]. exact H.
  - unfold Explained._getPaths, explainEnv.
    intros H. apply explainFields_keys in H. destruct H as [[]|H]. exact H.
Qed.

End EnvOutcomes.

Lemma explainEnv_parsed_value_witness :
  field (Explained.value (EnvAdapter.explainEnv Shell.js Shell.schema Shell.set
                                     (fun i => Z.of_nat i)))
        "port"
  = Some (VNum 3000) /\
  exists i j,
    prop_get "port"
             (Explained.explanations
                (EnvAdapter.explainEnv Shell.js Shell.schema Shell.set
                            (fun i => Z.of_nat i)))
    = Some (defaultPart "port" Shell.port false (Z.of_nat i)
            ++ [mkExplanation "env" (VNum 3000) "PORT env var" 10 None true
                              (Z.of_nat j)]).
Proof.
  apply (@explainEnv_parsed_value
           Shell.js Shell.schema Shell.set (fun i => Z.of_nat i)
           "port" Shell.port "3000" (VNum 3000)).
  - repeat constructor; simpl; intuition discriminate.
  - now left.
  - discriminate.
  - reflexivity.
  - discriminate.
  - reflexivity.
Defined.

Lemma explainEnv_parse_failure_witness :
  field (Explained.value (EnvAdapter.explainEnv Shell.js Shell.schema Shell.garbled
                                     (fun i => Z.of_nat i)))
        "port"
  = defaultOf Shell.port /\
  exists i j exps,
    prop_get "port"
             (Explained.explanations
                (EnvAdapter.explainEnv Shell.js Shell.schema Shell.garbled
                            (fun i => Z.of_nat i)))
    = Some exps /\
    exps = defaultPart "port" Shell.port false (Z.of_nat i)
           ++ [mkExplanation "env" (VStr "abc")
                 (String.append "PORT"
                    (String.append " env var (parse error: "
                       (String.append (EnvAdapter.cannotParse "abc" "number") ")")))
                 10 None false (Z.of_nat j)] /\
    filter won exps = [].
Proof.
  apply (@explainEnv_parse_failure
           Shell.js Shell.schema Shell.garbled (fun i => Z.of_nat i)
           "port" Shell.port "abc" (EnvAdapter.cannotParse "abc" "number")).
  - repeat constructor; simpl; intuition discriminate.
  - now left.
  - discriminate.
  - reflexivity.
  - discriminate.
  - reflexivity.
Defined.

Lemma explainEnv_unset_witness :
  field (Explained.value (EnvAdapter.explainEnv Shell.js Shell.schema Shell.set
                                     (fun i => Z.of_nat i)))
        "apiKey"
  = None /\
  exists i,
    prop_get "apiKey"
             (Explained.explanations
                (EnvAdapter.explainEnv Shell.js Shell.schema Shell.set
                            (fun i => Z.of_nat i)))
    = Some [defaultExplanation "apiKey" Shell.apiKey true (Z.of_nat i)].
Proof.
  apply (@explainEnv_unset
           Shell.js Shell.schema Shell.set (fun i => Z.of_nat i)
           "apiKey" Shell.apiKey).
  - repeat constructor; simpl; intuition discriminate.
  - right. right. now left.
  - discriminate.
  - reflexivity.
  - left. reflexivity.
Defined.

Lemma explainEnv_blank_boolean_witness :
  field (Explained.value (EnvAdapter.explainEnv Shell.js Shell.schema Shell.blank
                                     (fun i => Z.of_nat i)))
        "debug"
  = Some (VBool false) /\
  exists i,
    prop_get "debug"
             (Explained.explanations
                (EnvAdapter.explainEnv Shell.js Shell.schema Shell.blank
                            (fun i => Z.of_nat i)))
    = Some [defaultExplanation "debug" Shell.debug true (Z.of_nat i)].
Proof.
  apply (@explainEnv_blank_boolean
           Shell.js Shell.schema Shell.blank (fun i => Z.of_nat i)
           "debug" Shell.debug).
  - repeat constructor; simpl; intuition discriminate.
  - right. now left.
  - discriminate.
  - reflexivity.
  - reflexivity.
  - reflexivity.
Defined.

Lemma explainEnv_within_schema_witness :
  ~ In "HOME" (keysOf Shell.schema) /\
  ~ In "HOME" (objectKeys
                 (Explained.value
                    (EnvAdapter.explainEnv Shell.js Shell.schema Shell.set
                                (fun i => Z.of_nat i)))).
Proof.
  assert (H : ~ In "HOME" (keysOf Shell.schema)).
  { simpl. intuition discriminate. }
  split; [exact H|].
  intros Hin. apply H.
  exact (proj1 (explainEnv_within_schema Shell.js Shell.schema Shell.set
                                         (fun i => Z.of_nat i) "HOME") Hin).
Defined.
